(** * pg_squeeze, concurrent.c: capture and replay of concurrent changes

    A shallow embedding of [src/concurrent.c].  The functions of the file are
    state transformers over an explicit [World] (the decoding output state,
    the WAL reader position, the backend's command counter and snapshot
    stack, the replacement table); [elog(ERROR)] and failed assertions are
    outcomes that carry the world at the point where they were raised.

    PostgreSQL itself (heap and index access, WAL reading, the clock, the
    interrupt flag) and pg_squeeze.h / pg_squeeze.c are not part of the
    file: they are the fields of the class [Postgres].  The functions are
    followed along the calls in which PostgreSQL's allocator, detoaster and
    tuplestore return; an ERROR raised inside palloc, toast_flatten_tuple or
    tuplestore_putvalues is not among the outcomes. *)

From Stdlib Require Import ZArith List String Bool Lia.
From Stdlib Require Import Strings.Byte.
Import ListNotations.
Local Open Scope Z_scope.

(** ** Scalars and plain structs *)

Definition XLogRecPtr := Z.
Definition InvalidXLogRecPtr : XLogRecPtr := 0.
Definition Oid := Z.
Definition CommandId := Z.
(* (CommandId) ~0, the value the 32-bit command counter may never reach *)
Definition InvalidCommandId : CommandId := 2 ^ 32 - 1.
Definition AttrNumber := Z.
Definition ResourceOwner := Z.

(* Size is size_t: unsigned, 64 bits on the LP64 platforms PostgreSQL's
   logical decoding runs on; arithmetic wraps. *)
Definition Size_modulus : Z := 2 ^ 64.
Definition to_Size (z : Z) : Z := z mod Size_modulus.
Definition Size_add (a b : Z) : Z := to_Size (a + b).
Definition Size_mul (a b : Z) : Z := to_Size (a * b).

Definition VARHDRSZ : Z := 4.
(* TYPEALIGN(ALIGNVAL, LEN) = (LEN + (ALIGNVAL - 1)) & ~(ALIGNVAL - 1) *)
Definition TYPEALIGN (alignval len : Z) : Z :=
  Z.land (len + (alignval - 1)) (Z.lnot (alignval - 1)).
(* SET_VARSIZE keeps 30 bits of the length in the 4-byte header. *)
Definition SET_VARSIZE (len : Z) : Z := len mod 2 ^ 30.

Record timeval := mk_timeval { tv_sec : Z; tv_usec : Z }.

Record ItemPointerData := mk_ctid { ip_blkid : Z; ip_posid : Z }.

(* HeapTupleData; [t_data] is the memory the t_data pointer designates
   (header and user data, t_len bytes in a tuple PostgreSQL hands out). *)
Record HeapTupleData := mk_tuple {
  t_len : Z;
  t_self : ItemPointerData;
  t_tableOid : Oid;
  t_data : list byte
}.
Definition HeapTuple := HeapTupleData.

(* memcpy(dst, src, n): n bytes are copied, whatever the object at the
   source address holds.  [src] is that object; a request past its end
   goes on into the memory that lies behind it, [behind] by offset from the
   object's end. *)
Definition memcpy (src : list byte) (behind : nat -> byte) (n : Z) : list byte :=
  firstn (Z.to_nat n) src
  ++ map behind (seq 0 (Z.to_nat n - List.length src)).

(** ** pg_squeeze.h: the change record *)

(* The enum's four members are the ones concurrent.c names; the field is a
   C int, so a record can hold any other value too. *)
Inductive ConcurrentChangeKind :=
| PG_SQUEEZE_CHANGE_INSERT
| PG_SQUEEZE_CHANGE_UPDATE_OLD
| PG_SQUEEZE_CHANGE_UPDATE_NEW
| PG_SQUEEZE_CHANGE_DELETE
| PG_SQUEEZE_CHANGE_other (raw : Z).

Definition kind_eqb (a b : ConcurrentChangeKind) : bool :=
  match a, b with
  | PG_SQUEEZE_CHANGE_INSERT, PG_SQUEEZE_CHANGE_INSERT => true
  | PG_SQUEEZE_CHANGE_UPDATE_OLD, PG_SQUEEZE_CHANGE_UPDATE_OLD => true
  | PG_SQUEEZE_CHANGE_UPDATE_NEW, PG_SQUEEZE_CHANGE_UPDATE_NEW => true
  | PG_SQUEEZE_CHANGE_DELETE, PG_SQUEEZE_CHANGE_DELETE => true
  | PG_SQUEEZE_CHANGE_other x, PG_SQUEEZE_CHANGE_other y => x =? y
  | _, _ => false
  end.

(* A ConcurrentChange as it lies in memory: the struct (a verbatim copy of
   the HeapTupleData, whose t_data pointer is stale, and the kind) followed
   by the bytes that come after it in the same allocation. *)
Record ConcurrentChange := mk_change {
  tup_data : HeapTupleData;
  kind : ConcurrentChangeKind;
  trailing : list byte
}.

(* The bytea datum kept in the tuplestore: varlena header, then the change
   at offset MAXALIGN(VARHDRSZ). *)
Record varlena := mk_varlena {
  vl_len : Z;
  vl_dat : ConcurrentChange
}.

Record DecodingOutputState := mk_dstate {
  relid : Oid;
  resowner : ResourceOwner;
  tstore : list varlena;
  nchanges : Z;
  data_size : Z
}.

(** ** replication/reorderbuffer.h and the WAL, as seen by the plugin *)

Inductive ReorderBufferChangeType :=
| REORDER_BUFFER_CHANGE_INSERT
| REORDER_BUFFER_CHANGE_UPDATE
| REORDER_BUFFER_CHANGE_DELETE
| REORDER_BUFFER_CHANGE_other (raw : Z).

Record ReorderBufferChange := mk_rbchange {
  action : ReorderBufferChangeType;
  oldtuple : option HeapTuple;
  newtuple : option HeapTuple
}.

(* What one call of XLogReadRecord gives. *)
Inductive XLogRead :=
| XLOG_ERRM (errm : string)          (* NULL record, *errm set *)
| XLOG_NULL                          (* NULL record, no message *)
| XLOG_RECORD (changes : list (Oid * ReorderBufferChange)).
     (* a record; [changes] are the change_cb calls that
        LogicalDecodingProcessRecord makes for it, in order: none for most
        records, a whole transaction's changes for its commit record *)

Record XLogRecord := mk_xlog {
  xl_end : XLogRecPtr;               (* reader->EndRecPtr after the read *)
  xl_read : XLogRead
}.

(** ** What the file takes from its environment *)

Inductive ext (A : Type) :=
| Done (a : A)
| Raise (msg : string).
Arguments Done {A} a.
Arguments Raise {A} msg.

Class Postgres := {
  (* build and configuration *)
  USE_ASSERT_CHECKING : bool;
  MAXIMUM_ALIGNOF : Z;
  sizeof_ConcurrentChange : Z;
  maintenance_work_mem : Z;
  (* tuples *)
  Datum : Type;
  HeapTupleHasExternal : HeapTuple -> bool;
  toast_flatten_tuple : HeapTuple -> HeapTuple;
  HeapTupleIsHeapOnly : HeapTuple -> bool;
  (* the memory found behind an object by a read that runs past its end *)
  memory_behind : list byte -> nat -> byte;
  heap_getattr : HeapTuple -> AttrNumber -> Datum * bool;
  (* the replacement table with its indexes *)
  Table : Type;
  heap_insert : Table -> HeapTuple -> CommandId -> ext (Table * ItemPointerData);
  ExecInsertIndexTuples : Table -> HeapTuple -> ext Table;
  index_getnext :
    Table -> CommandId -> list (AttrNumber * Datum) -> ext (option ItemPointerData);
  simple_heap_update :
    Table -> ItemPointerData -> HeapTuple -> CommandId -> ext (Table * HeapTuple);
  simple_heap_delete : Table -> ItemPointerData -> CommandId -> ext Table;
  (* oracles, indexed by the number of earlier calls *)
  gettimeofday : nat -> timeval;
  InterruptPending : nat -> bool;
  check_catalog_changes : nat -> option string
}.

Definition MAXALIGN `{Postgres} (len : Z) : Z := TYPEALIGN MAXIMUM_ALIGNOF len.

(** ** The world and the monad *)

Section Model.
Context `{PG : Postgres}.

(* Calls into PostgreSQL, recorded in the order they are made. *)
Inductive Call :=
| GetBulkInsertState
| FreeBulkInsertState
| call_heap_insert (tup : HeapTuple) (cid : CommandId)
| call_ExecInsertIndexTuples (tup : HeapTuple)
| call_index_scan (curcid : CommandId) (args : list (AttrNumber * Datum))
| call_simple_heap_update (ctid : ItemPointerData) (tup : HeapTuple)
| call_simple_heap_delete (ctid : ItemPointerData)
| CommandCounterIncrement_call
| call_check_catalog_changes
| LogicalConfirmReceivedLocation (lsn : XLogRecPtr)
| elog_DEBUG1_decoded (n : Z)
| elog_DEBUG1_applied (ninserts nupdates ndeletes : Z).

Record World := mk_world {
  dstate : DecodingOutputState;       (* ctx->output_writer_private *)
  EndRecPtr : XLogRecPtr;             (* ctx->reader->EndRecPtr *)
  CurrentResourceOwner : ResourceOwner;
  currentCommandId : CommandId;
  ActiveSnapshot : list CommandId;    (* stack of curcid values, top first *)
  rel_dst : Table;
  clock_reads : nat;
  interrupt_polls : nat;
  catalog_checks : nat;
  calls : list Call
}.

Definition set_dstate (w : World) (d : DecodingOutputState) : World :=
  mk_world d (EndRecPtr w) (CurrentResourceOwner w) (currentCommandId w)
    (ActiveSnapshot w) (rel_dst w) (clock_reads w) (interrupt_polls w)
    (catalog_checks w) (calls w).
Definition set_EndRecPtr (w : World) (p : XLogRecPtr) : World :=
  mk_world (dstate w) p (CurrentResourceOwner w) (currentCommandId w)
    (ActiveSnapshot w) (rel_dst w) (clock_reads w) (interrupt_polls w)
    (catalog_checks w) (calls w).
Definition set_CurrentResourceOwner (w : World) (r : ResourceOwner) : World :=
  mk_world (dstate w) (EndRecPtr w) r (currentCommandId w)
    (ActiveSnapshot w) (rel_dst w) (clock_reads w) (interrupt_polls w)
    (catalog_checks w) (calls w).
Definition set_currentCommandId (w : World) (c : CommandId) : World :=
  mk_world (dstate w) (EndRecPtr w) (CurrentResourceOwner w) c
    (ActiveSnapshot w) (rel_dst w) (clock_reads w) (interrupt_polls w)
    (catalog_checks w) (calls w).
Definition set_ActiveSnapshot (w : World) (s : list CommandId) : World :=
  mk_world (dstate w) (EndRecPtr w) (CurrentResourceOwner w) (currentCommandId w)
    s (rel_dst w) (clock_reads w) (interrupt_polls w)
    (catalog_checks w) (calls w).
Definition set_rel_dst (w : World) (t : Table) : World :=
  mk_world (dstate w) (EndRecPtr w) (CurrentResourceOwner w) (currentCommandId w)
    (ActiveSnapshot w) t (clock_reads w) (interrupt_polls w)
    (catalog_checks w) (calls w).
Definition tick_clock (w : World) : World :=
  mk_world (dstate w) (EndRecPtr w) (CurrentResourceOwner w) (currentCommandId w)
    (ActiveSnapshot w) (rel_dst w) (S (clock_reads w)) (interrupt_polls w)
    (catalog_checks w) (calls w).
Definition tick_interrupts (w : World) : World :=
  mk_world (dstate w) (EndRecPtr w) (CurrentResourceOwner w) (currentCommandId w)
    (ActiveSnapshot w) (rel_dst w) (clock_reads w) (S (interrupt_polls w))
    (catalog_checks w) (calls w).
Definition tick_catalog (w : World) : World :=
  mk_world (dstate w) (EndRecPtr w) (CurrentResourceOwner w) (currentCommandId w)
    (ActiveSnapshot w) (rel_dst w) (clock_reads w) (interrupt_polls w)
    (S (catalog_checks w)) (calls w).
Definition record_call (w : World) (c : Call) : World :=
  mk_world (dstate w) (EndRecPtr w) (CurrentResourceOwner w) (currentCommandId w)
    (ActiveSnapshot w) (rel_dst w) (clock_reads w) (interrupt_polls w)
    (catalog_checks w) (calls w ++ [c]).

Inductive failure :=
| ELOG_ERROR (msg : string)     (* elog(ERROR, ...): longjmp to PG_CATCH *)
| ASSERT_TRAP (cond : string)   (* failed Assert(): the backend aborts *)
| WAL_WAIT.                     (* the reader waits for WAL that never comes *)

Inductive result (A : Type) :=
| OK (a : A) (w : World)
| Fail (f : failure) (w : World).
Arguments OK {A} a w.
Arguments Fail {A} f w.

Definition M (A : Type) : Type := World -> result A.

Definition ret {A} (a : A) : M A := fun w => OK a w.
Definition bind {A B} (m : M A) (k : A -> M B) : M B :=
  fun w => match m w with
           | OK a w' => k a w'
           | Fail f w' => Fail f w'
           end.
Definition get : M World := fun w => OK w w.
Definition modify (f : World -> World) : M unit := fun w => OK tt (f w).
Definition elog_ERROR {A} (msg : string) : M A := fun w => Fail (ELOG_ERROR msg) w.

(* Assert(cond): nothing unless the build has USE_ASSERT_CHECKING. *)
Definition Assert (cond : bool) (text : string) : M unit :=
  fun w => if USE_ASSERT_CHECKING && negb cond
           then Fail (ASSERT_TRAP text) w else OK tt w.

(* PG_TRY / PG_CATCH with a handler that cleans up and re-throws: only
   elog(ERROR) unwinds to it. *)
Definition PG_TRY_rethrow {A} (body : M A) (cleanup : World -> World) : M A :=
  fun w => match body w with
           | Fail (ELOG_ERROR msg) w' => Fail (ELOG_ERROR msg) (cleanup w')
           | r => r
           end.

(* A call into PostgreSQL that can raise. *)
Definition lift_ext {A} (r : ext A) : M A :=
  fun w => match r with
           | Done a => OK a w
           | Raise msg => Fail (ELOG_ERROR msg) w
           end.

End Model.

Arguments OK {PG A} a w.
Arguments Fail {PG A} f w.

Declare Scope pg_scope.
Delimit Scope pg_scope with pg.
Notation "x <- m ;; k" := (bind m (fun x => k))
  (at level 100, m at next level, right associativity) : pg_scope.
Notation "m ;;; k" := (bind m (fun _ => k))
  (at level 100, right associativity) : pg_scope.
Local Open Scope pg_scope.

(** ** The codec: store_change and get_changed_tuple *)

Section Capture.
Context `{PG : Postgres}.

(* The struct copy made by memcpy(&change->tup_data, tuple,
   sizeof(HeapTupleData)): the fields travel, the t_data pointer is stale
   and designates nothing. *)
Definition copy_HeapTupleData (tuple : HeapTuple) : HeapTupleData :=
  mk_tuple (t_len tuple) (t_self tuple) (t_tableOid tuple) [].

Definition change_size (tuple : HeapTuple) : Z :=
  to_Size (MAXALIGN VARHDRSZ + sizeof_ConcurrentChange + t_len tuple).

(* store_change, along the calls in which toast_flatten_tuple, palloc and
   tuplestore_putvalues return: an ERROR raised inside PostgreSQL's
   detoaster, allocator or tuplestore is not one of its outcomes here. *)
Definition store_change (kind : ConcurrentChangeKind) (tuple : HeapTuple)
  : M unit :=
  fun w =>
    let dstate := dstate w in
    let tuple :=
      if HeapTupleHasExternal tuple then toast_flatten_tuple tuple else tuple in
    let size := change_size tuple in
    let change :=
      mk_change (copy_HeapTupleData tuple) kind
                (memcpy (t_data tuple) (memory_behind (t_data tuple))
                        (t_len tuple)) in
    let change_raw := mk_varlena (SET_VARSIZE size) change in
    (* tuplestore_putvalues, then the accounting *)
    OK tt (set_dstate w
             (mk_dstate (relid dstate) (resowner dstate)
                        (tstore dstate ++ [change_raw])
                        (nchanges dstate + 1)
                        (Size_add (data_size dstate) size))).

(* get_changed_tuple, along the calls in which palloc(HEAPTUPLESIZE + t_len)
   returns (for a record that store_change wrote the request is smaller
   than the one store_change made).  The function compares no length: the
   second memcpy takes t_len bytes from behind the struct, whatever the
   record holds there. *)
Definition get_changed_tuple (change : ConcurrentChange) : HeapTuple :=
  let tup_data := tup_data change in
  mk_tuple (t_len tup_data) (t_self tup_data) (t_tableOid tup_data)
           (memcpy (trailing change) (memory_behind (trailing change))
                   (t_len tup_data)).

(** ** The output plugin's change callback *)

Definition plugin_change (rd_id : Oid) (change : ReorderBufferChange) : M unit :=
  fun w =>
    if negb (rd_id =? relid (dstate w)) then OK tt w
    else
      match action change with
      | REORDER_BUFFER_CHANGE_INSERT =>
          match newtuple change with
          | None => Fail (ELOG_ERROR "Incomplete insert info.") w
          | Some newtuple => store_change PG_SQUEEZE_CHANGE_INSERT newtuple w
          end
      | REORDER_BUFFER_CHANGE_UPDATE =>
          match newtuple change with
          | None => Fail (ELOG_ERROR "Incomplete update info.") w
          | Some newtuple =>
              ((match oldtuple change with
                | Some oldtuple =>
                    store_change PG_SQUEEZE_CHANGE_UPDATE_OLD oldtuple
                | None => ret tt
                end) ;;;
               store_change PG_SQUEEZE_CHANGE_UPDATE_NEW newtuple) w
          end
      | REORDER_BUFFER_CHANGE_DELETE =>
          match oldtuple change with
          | None => Fail (ELOG_ERROR "Incomplete delete info.") w
          | Some oldtuple => store_change PG_SQUEEZE_CHANGE_DELETE oldtuple w
          end
      | REORDER_BUFFER_CHANGE_other _ => Assert false "0" w
      end.

(* LogicalDecodingProcessRecord, reduced to what reaches this plugin: the
   change callbacks of the record (begin and commit callbacks are empty). *)
Fixpoint LogicalDecodingProcessRecord
  (changes : list (Oid * ReorderBufferChange)) : M unit :=
  match changes with
  | [] => ret tt
  | (rd_id, change) :: rest =>
      plugin_change rd_id change ;;; LogicalDecodingProcessRecord rest
  end.

End Capture.

(** ** Replay: apply_concurrent_changes *)

Section Replay.
Context `{PG : Postgres}.

(* xact.c: the counter moves when the current command id has been used,
   which heap_insert, simple_heap_update and simple_heap_delete all do
   (GetCurrentCommandId(true)); it may not reach InvalidCommandId. *)
Definition CommandCounterIncrement : M unit :=
  fun w =>
    let w := record_call w CommandCounterIncrement_call in
    if currentCommandId w + 1 =? InvalidCommandId
    then Fail (ELOG_ERROR "cannot have more than 2^32-2 commands in a transaction") w
    else OK tt (set_currentCommandId w (currentCommandId w + 1)).

Definition GetActiveSnapshot (w : World) : CommandId :=
  hd 0 (ActiveSnapshot w).

Definition PushActiveSnapshot_transaction : M unit :=
  modify (fun w => set_ActiveSnapshot w (currentCommandId w :: ActiveSnapshot w)).

Definition PopActiveSnapshot : M unit :=
  modify (fun w => set_ActiveSnapshot w (tl (ActiveSnapshot w))).

Definition UpdateActiveSnapshotCommandId : M unit :=
  modify (fun w => match ActiveSnapshot w with
                   | [] => w
                   | _ :: below => set_ActiveSnapshot w (currentCommandId w :: below)
                   end).

(* The locals of apply_concurrent_changes that live across iterations. *)
Record ApplyLocals := mk_locals {
  tup_old : option HeapTuple;
  bistate : bool;                     (* bistate != NULL *)
  ninserts : Z;
  nupdates : Z;
  ndeletes : Z
}.

Definition is_NULL {A} (p : option A) : bool :=
  match p with None => true | Some _ => false end.

(* lines 284-292: which tuple supplies the key *)
Definition lookup_key_tuple (kind : ConcurrentChangeKind)
  (tup_old : option HeapTuple) (tup : HeapTuple) : M HeapTuple :=
  if kind_eqb kind PG_SQUEEZE_CHANGE_UPDATE_NEW
  then ret (match tup_old with Some old => old | None => tup end)
  else (Assert (is_NULL tup_old) "tup_old == NULL" ;;; ret tup).

(* lines 309-320: the scan key entries get their arguments from tup_key *)
Fixpoint finalize_scan_key (tup_key : HeapTuple) (entries : list AttrNumber)
  : M (list (AttrNumber * Datum)) :=
  match entries with
  | [] => ret []
  | sk_attno :: rest =>
      let '(sk_argument, isnull) := heap_getattr tup_key sk_attno in
      Assert (negb isnull) "!isnull" ;;;
      args <- finalize_scan_key tup_key rest ;;
      ret ((sk_attno, sk_argument) :: args)
  end.

(* lines 303-325: find the tuple to be updated or deleted *)
Definition find_target (key : list AttrNumber) (nkeys : Z) (tup_key : HeapTuple)
  : M ItemPointerData :=
  args <- finalize_scan_key tup_key (firstn (Z.to_nat nkeys) key) ;;
  w <- get ;;
  modify (fun w => record_call w (call_index_scan (GetActiveSnapshot w) args)) ;;;
  tup_exist <- lift_ext (index_getnext (rel_dst w) (GetActiveSnapshot w) args) ;;
  match tup_exist with
  | None => elog_ERROR "Failed to find target tuple"
  | Some ctid => ret ctid
  end.

Definition do_heap_insert (tup : HeapTuple) : M HeapTuple :=
  w <- get ;;
  modify (fun w => record_call w (call_heap_insert tup (currentCommandId w))) ;;;
  r <- lift_ext (heap_insert (rel_dst w) tup (currentCommandId w)) ;;
  modify (fun w => set_rel_dst w (fst r)) ;;;
  ret (mk_tuple (t_len tup) (snd r) (t_tableOid tup) (t_data tup)).

Definition do_ExecInsertIndexTuples (tup : HeapTuple) : M unit :=
  w <- get ;;
  modify (fun w => record_call w (call_ExecInsertIndexTuples tup)) ;;;
  t <- lift_ext (ExecInsertIndexTuples (rel_dst w) tup) ;;
  modify (fun w => set_rel_dst w t).

Definition do_simple_heap_update (ctid : ItemPointerData) (tup : HeapTuple)
  : M HeapTuple :=
  w <- get ;;
  modify (fun w => record_call w (call_simple_heap_update ctid tup)) ;;;
  r <- lift_ext (simple_heap_update (rel_dst w) ctid tup (currentCommandId w)) ;;
  modify (fun w => set_rel_dst w (fst r)) ;;;
  ret (snd r).

Definition do_simple_heap_delete (ctid : ItemPointerData) : M unit :=
  w <- get ;;
  modify (fun w => record_call w (call_simple_heap_delete ctid)) ;;;
  t <- lift_ext (simple_heap_delete (rel_dst w) ctid (currentCommandId w)) ;;
  modify (fun w => set_rel_dst w t).

(* lines 240-358: the dispatch on change->kind *)
Definition dispatch_change (key : list AttrNumber) (nkeys : Z)
  (kind : ConcurrentChangeKind) (tup : HeapTuple) (l : ApplyLocals)
  : M ApplyLocals :=
  match kind with
  | PG_SQUEEZE_CHANGE_UPDATE_OLD =>
      Assert (is_NULL (tup_old l)) "tup_old == NULL" ;;;
      ret (mk_locals (Some tup) (bistate l) (ninserts l) (nupdates l) (ndeletes l))
  | PG_SQUEEZE_CHANGE_INSERT =>
      Assert (is_NULL (tup_old l)) "tup_old == NULL" ;;;
      (if bistate l then ret tt
       else modify (fun w => record_call w GetBulkInsertState)) ;;;
      tup <- do_heap_insert tup ;;
      do_ExecInsertIndexTuples tup ;;;
      ret (mk_locals (tup_old l) true (ninserts l + 1) (nupdates l) (ndeletes l))
  | PG_SQUEEZE_CHANGE_UPDATE_NEW =>
      tup_key <- lookup_key_tuple kind (tup_old l) tup ;;
      ctid <- find_target key nkeys tup_key ;;
      tup <- do_simple_heap_update ctid tup ;;
      (if negb (HeapTupleIsHeapOnly tup) then do_ExecInsertIndexTuples tup
       else ret tt) ;;;
      ret (mk_locals None (bistate l) (ninserts l) (nupdates l + 1) (ndeletes l))
  | PG_SQUEEZE_CHANGE_DELETE =>
      tup_key <- lookup_key_tuple kind (tup_old l) tup ;;
      ctid <- find_target key nkeys tup_key ;;
      do_simple_heap_delete ctid ;;;
      ret (mk_locals None (bistate l) (ninserts l) (nupdates l) (ndeletes l + 1))
  | PG_SQUEEZE_CHANGE_other _ =>
      elog_ERROR "Unrecognized kind of change: %d"
  end.

(* One iteration of the while loop, for the record just fetched. *)
Definition apply_change (key : list AttrNumber) (nkeys : Z)
  (l : ApplyLocals) (change_raw : varlena) : M ApplyLocals :=
  let change := vl_dat change_raw in
  l <- (if negb (kind_eqb (kind change) PG_SQUEEZE_CHANGE_INSERT) && bistate l
        then modify (fun w => record_call w FreeBulkInsertState) ;;;
             ret (mk_locals (tup_old l) false (ninserts l) (nupdates l) (ndeletes l))
        else ret l) ;;
  let tup := get_changed_tuple change in
  l <- dispatch_change key nkeys (kind change) tup l ;;
  (if negb (kind_eqb (kind change) PG_SQUEEZE_CHANGE_UPDATE_OLD)
   then CommandCounterIncrement ;;; UpdateActiveSnapshotCommandId
   else ret tt) ;;;
  ret l.

(* The while loop: tuplestore_gettupleslot hands out the stored records in
   order until there is none left. *)
Fixpoint apply_loop (key : list AttrNumber) (nkeys : Z)
  (records : list varlena) (l : ApplyLocals) : M ApplyLocals :=
  match records with
  | [] => ret l
  | change_raw :: rest =>
      l <- apply_change key nkeys l change_raw ;;
      apply_loop key nkeys rest l
  end.

Definition apply_concurrent_changes (key : list AttrNumber) (nkeys : Z) : M unit :=
  w <- get ;;
  if nchanges (dstate w) =? 0 then ret tt
  else
    PushActiveSnapshot_transaction ;;;
    l <- apply_loop key nkeys (tstore (dstate w)) (mk_locals None false 0 0 0) ;;
    modify (fun w => record_call w
                       (elog_DEBUG1_applied (ninserts l) (nupdates l) (ndeletes l))) ;;;
    (* tuplestore_clear; nchanges = 0; data_size = 0 *)
    modify (fun w => set_dstate w
                       (mk_dstate (relid (dstate w)) (resowner (dstate w)) [] 0 0)) ;;;
    PopActiveSnapshot ;;;
    (if bistate l then modify (fun w => record_call w FreeBulkInsertState)
     else ret tt).

End Replay.

(** ** Decoding: decode_concurrent_changes *)

Section Decode.
Context `{PG : Postgres}.

Definition processing_time_elapsed (utmost : option timeval) : M bool :=
  fun w =>
    match utmost with
    | None => OK false w
    | Some utmost =>
        let now := gettimeofday (clock_reads w) in
        let w := tick_clock w in
        if tv_sec now <? tv_sec utmost then OK false w
        else if tv_sec now >? tv_sec utmost then OK true w
        else OK (tv_usec now >=? tv_usec utmost) w
    end.

Definition CHECK_FOR_INTERRUPTS : M unit :=
  fun w =>
    let pending := InterruptPending (interrupt_polls w) in
    let w := tick_interrupts w in
    if pending then Fail (ELOG_ERROR "canceling statement due to user request") w
    else OK tt w.

(* maintenance_wm_bytes = (Size) maintenance_work_mem * 1024L *)
Definition maintenance_wm_bytes : Z :=
  Size_mul (to_Size maintenance_work_mem) 1024.

(* The first conjunct of the while condition: something below end_of_wal is
   still to be read, from *startptr or after the reader's last record. *)
Definition more_to_read (startptr end_of_wal : XLogRecPtr) (w : World) : bool :=
  (negb (startptr =? InvalidXLogRecPtr) && (startptr <? end_of_wal))
  || (negb (EndRecPtr w =? InvalidXLogRecPtr) && (EndRecPtr w <? end_of_wal)).

(* How the while loop was left: its condition was false, or the break. *)
Inductive loop_exit :=
| EXIT_CONDITION
| EXIT_BREAK.

(* The while loop of decode_concurrent_changes.  [wal] is what successive
   XLogReadRecord calls will return; the loop gives back *startptr, the
   part of [wal] not read, and how it was left. *)
Fixpoint decode_loop (end_of_wal : XLogRecPtr) (must_complete : option timeval)
  (wal : list XLogRecord) (startptr : XLogRecPtr) {struct wal}
  : M (XLogRecPtr * list XLogRecord * loop_exit) :=
  fun w =>
    if more_to_read startptr end_of_wal w
       && (data_size (dstate w) <? maintenance_wm_bytes)
    then
      match wal with
      | [] => Fail WAL_WAIT w
      | record :: wal' =>
          (* XLogReadRecord(ctx->reader, *startptr, &errm) *)
          let w := set_EndRecPtr w (xl_end record) in
          (match xl_read record with
           | XLOG_ERRM errm => elog_ERROR errm
           | XLOG_NULL => ret tt
           | XLOG_RECORD changes => LogicalDecodingProcessRecord changes
           end ;;;
           elapsed <- processing_time_elapsed must_complete ;;
           if elapsed then ret (InvalidXLogRecPtr, wal', EXIT_BREAK)
           else CHECK_FOR_INTERRUPTS ;;;
                decode_loop end_of_wal must_complete wal' InvalidXLogRecPtr) w
      end
    else OK (startptr, wal, EXIT_CONDITION) w.

Definition decode_concurrent_changes (startptr end_of_wal : XLogRecPtr)
  (must_complete : option timeval) (wal : list XLogRecord)
  : M (bool * (XLogRecPtr * list XLogRecord * loop_exit)) :=
  w0 <- get ;;
  let resowner_old := CurrentResourceOwner w0 in
  modify (fun w => set_CurrentResourceOwner w (resowner (dstate w))) ;;;
  out <- PG_TRY_rethrow
           (out <- decode_loop end_of_wal must_complete wal startptr ;;
            modify (fun w => set_CurrentResourceOwner w resowner_old) ;;;
            modify (fun w => if negb (EndRecPtr w =? InvalidXLogRecPtr)
                             then record_call w (LogicalConfirmReceivedLocation (EndRecPtr w))
                             else w) ;;;
            ret out)
           (fun w => set_CurrentResourceOwner w resowner_old) ;;
  modify (fun w => record_call w (elog_DEBUG1_decoded (nchanges (dstate w)))) ;;;
  w <- get ;;
  ret ((EndRecPtr w =? InvalidXLogRecPtr) || (EndRecPtr w >=? end_of_wal), out).

(** ** The coordinator: process_concurrent_changes *)

Definition do_check_catalog_changes : M unit :=
  fun w =>
    let verdict := check_catalog_changes (catalog_checks w) in
    let w := tick_catalog (record_call w call_check_catalog_changes) in
    match verdict with
    | Some msg => Fail (ELOG_ERROR msg) w
    | None => OK tt w
    end.

(* What one pass through the body of while(!done) ends in. *)
Inductive iteration :=
| RETURN_false (startptr : XLogRecPtr) (wal : list XLogRecord)
| NEXT (done : bool) (startptr : XLogRecPtr) (wal : list XLogRecord).

Definition coordinator_iteration (startptr end_of_wal : XLogRecPtr)
  (key : list AttrNumber) (nkeys : Z) (must_complete : option timeval)
  (wal : list XLogRecord) : M iteration :=
  CHECK_FOR_INTERRUPTS ;;;
  r <- decode_concurrent_changes startptr end_of_wal must_complete wal ;;
  let '(done, (startptr, wal, _)) := r in
  elapsed <- processing_time_elapsed must_complete ;;
  if elapsed then ret (RETURN_false startptr wal)
  else
    w <- get ;;
    if nchanges (dstate w) =? 0 then ret (NEXT done startptr wal)
    else
      do_check_catalog_changes ;;;
      apply_concurrent_changes key nkeys ;;;
      ret (NEXT done startptr wal).

(* while(!done) { ... } return true;  [None]: the fuel did not suffice. *)
Fixpoint process_concurrent_changes (fuel : nat)
  (startptr end_of_wal : XLogRecPtr) (key : list AttrNumber) (nkeys : Z)
  (must_complete : option timeval) (wal : list XLogRecord) (w : World)
  : option (result (bool * XLogRecPtr * list XLogRecord)) :=
  match fuel with
  | O => None
  | S fuel =>
      match coordinator_iteration startptr end_of_wal key nkeys
                                  must_complete wal w with
      | Fail f w => Some (Fail f w)
      | OK (RETURN_false startptr wal) w => Some (OK (false, startptr, wal) w)
      | OK (NEXT done startptr wal) w =>
          if done then Some (OK (true, startptr, wal) w)
          else process_concurrent_changes fuel startptr end_of_wal key nkeys
                                          must_complete wal w
      end
  end.

End Decode.

(** ** A small PostgreSQL to run the model on

    Rows carry the command that inserted them and the command that deleted
    them; a scan with snapshot command id [curcid] sees what earlier
    commands inserted and did not delete.  Attribute [n] of a tuple is its
    [n]-th data byte. *)

Module Toy.

Record row := mk_row {
  row_ctid : ItemPointerData;
  row_tuple : HeapTuple;
  row_cmin : CommandId;
  row_cmax : option CommandId
}.

Definition ctid_eqb (a b : ItemPointerData) : bool :=
  (ip_blkid a =? ip_blkid b) && (ip_posid a =? ip_posid b).

Definition getattr (tup : HeapTuple) (attno : AttrNumber) : byte * bool :=
  match nth_error (t_data tup) (Z.to_nat (attno - 1)) with
  | Some b => (b, false)
  | None => (x00, true)
  end.

Definition visible (curcid : CommandId) (r : row) : bool :=
  (row_cmin r <? curcid)
  && match row_cmax r with
     | None => true
     | Some cmax => curcid <=? cmax
     end.

Definition matches (args : list (AttrNumber * byte)) (r : row) : bool :=
  forallb (fun a => let '(v, isnull) := getattr (row_tuple r) (fst a) in
                    negb isnull && Byte.eqb v (snd a)) args.

Definition scan (t : list row) (curcid : CommandId)
  (args : list (AttrNumber * byte)) : ext (option ItemPointerData) :=
  Done (option_map row_ctid
          (find (fun r => visible curcid r && matches args r) t)).

Definition fresh_ctid (t : list row) : ItemPointerData :=
  mk_ctid 0 (Z.of_nat (List.length t) + 1).

Definition with_ctid (tup : HeapTuple) (ctid : ItemPointerData) : HeapTuple :=
  mk_tuple (t_len tup) ctid (t_tableOid tup) (t_data tup).

Definition insert (t : list row) (tup : HeapTuple) (cid : CommandId)
  : ext (list row * ItemPointerData) :=
  let ctid := fresh_ctid t in
  Done (t ++ [mk_row ctid (with_ctid tup ctid) cid None], ctid).

Definition expire (ctid : ItemPointerData) (cid : CommandId) (r : row) : row :=
  if ctid_eqb (row_ctid r) ctid
  then mk_row (row_ctid r) (row_tuple r) (row_cmin r) (Some cid)
  else r.

Definition delete (t : list row) (ctid : ItemPointerData) (cid : CommandId)
  : ext (list row) :=
  Done (map (expire ctid cid) t).

Definition update (t : list row) (ctid : ItemPointerData) (tup : HeapTuple)
  (cid : CommandId) : ext (list row * HeapTuple) :=
  let new := fresh_ctid t in
  Done (map (expire ctid cid) t ++ [mk_row new (with_ctid tup new) cid None],
        with_ctid tup new).

(* The rows a snapshot taken at command [curcid] sees, as data bytes. *)
Definition contents (curcid : CommandId) (t : list row) : list (list byte) :=
  map (fun r => t_data (row_tuple r)) (filter (visible curcid) t).

Definition clock (n : nat) : timeval := mk_timeval (Z.of_nat n) 0.

#[local] Instance PG (cassert : bool) (work_mem : Z) (now : nat -> timeval)
  : Postgres := {|
  USE_ASSERT_CHECKING := cassert;
  MAXIMUM_ALIGNOF := 8;
  sizeof_ConcurrentChange := 32;
  maintenance_work_mem := work_mem;
  Datum := byte;
  HeapTupleHasExternal := fun _ => false;
  toast_flatten_tuple := fun t => t;
  HeapTupleIsHeapOnly := fun _ => false;
  memory_behind := fun _ _ => x7f;
  heap_getattr := getattr;
  Table := list row;
  heap_insert := insert;
  ExecInsertIndexTuples := fun t _ => Done t;
  index_getnext := scan;
  simple_heap_update := update;
  simple_heap_delete := delete;
  gettimeofday := now;
  InterruptPending := fun _ => false;
  check_catalog_changes := fun _ => None
|}.

Definition tuple_of (data : list byte) : HeapTuple :=
  mk_tuple (Z.of_nat (List.length data)) (mk_ctid 0 0) 16384 data.

Definition world0 (cassert : bool) (work_mem : Z) (now : nat -> timeval)
  (buffer : list varlena) (n size : Z)
  : @World (PG cassert work_mem now) :=
  @mk_world (PG cassert work_mem now)
    (mk_dstate 16384 7 buffer n size) InvalidXLogRecPtr 1 1 [] [] 0%nat 0%nat 0%nat [].

End Toy.

(** ** Vocabulary of the properties *)

Section Vocabulary.
Context `{PG : Postgres}.

Definition world_of {A} (r : result A) : World :=
  match r with
  | OK _ w => w
  | Fail _ w => w
  end.

(* The calls made between two worlds of one run. *)
Definition calls_since (w w' : World) : list Call :=
  skipn (List.length (calls w)) (calls w').

(* The columns of a tuple that a scan over [entries] compares. *)
Definition key_arguments (tup_key : HeapTuple) (entries : list AttrNumber)
  : list (AttrNumber * Datum) :=
  map (fun attno => (attno, fst (heap_getattr tup_key attno))) entries.

Definition key_not_null (tup_key : HeapTuple) (entries : list AttrNumber) : bool :=
  forallb (fun attno => negb (snd (heap_getattr tup_key attno))) entries.

Definition scan_entries (key : list AttrNumber) (nkeys : Z) : list AttrNumber :=
  firstn (Z.to_nat nkeys) key.

Definition is_index_scan (c : Call) : bool :=
  match c with call_index_scan _ _ => true | _ => false end.

Definition is_CommandCounterIncrement (c : Call) : bool :=
  match c with CommandCounterIncrement_call => true | _ => false end.

(* Calls that change the replacement table. *)
Definition is_table_write (c : Call) : bool :=
  match c with
  | call_heap_insert _ _ | call_ExecInsertIndexTuples _
  | call_simple_heap_update _ _ | call_simple_heap_delete _ => true
  | _ => false
  end.

Definition is_replay_call (c : Call) : bool :=
  match c with
  | LogicalConfirmReceivedLocation _ | elog_DEBUG1_decoded _ => false
  | _ => true
  end.

Definition advances_counter (change_raw : varlena) : bool :=
  negb (kind_eqb (kind (vl_dat change_raw)) PG_SQUEEZE_CHANGE_UPDATE_OLD).

(* The tuple store_change works on after the TOAST check. *)
Definition flat_tuple (tuple : HeapTuple) : HeapTuple :=
  if HeapTupleHasExternal tuple then toast_flatten_tuple tuple else tuple.

(* The record store_change appends for a kind and a tuple. *)
Definition stored_change (kind : ConcurrentChangeKind) (tuple : HeapTuple)
  : varlena :=
  mk_varlena (SET_VARSIZE (change_size (flat_tuple tuple)))
    (mk_change (copy_HeapTupleData (flat_tuple tuple)) kind
               (memcpy (t_data (flat_tuple tuple))
                       (memory_behind (t_data (flat_tuple tuple)))
                       (t_len (flat_tuple tuple)))).

(* The bytes a buffered record was accounted with. *)
Definition record_size (r : varlena) : Z := change_size (tup_data (vl_dat r)).

Definition sum_sizes (buffer : list varlena) : Z :=
  fold_right (fun r acc => record_size r + acc) 0 buffer.

(* nchanges and data_size describe the tuplestore. *)
Definition buffer_consistent (d : DecodingOutputState) : Prop :=
  nchanges d = Z.of_nat (List.length (tstore d))
  /\ data_size d = to_Size (sum_sizes (tstore d)).

(* What plugin_change appends for one change of the relation [relid]. *)
Definition captured_change (relid : Oid) (c : Oid * ReorderBufferChange)
  : list varlena :=
  if negb (fst c =? relid) then []
  else
    match action (snd c), oldtuple (snd c), newtuple (snd c) with
    | REORDER_BUFFER_CHANGE_INSERT, _, Some new =>
        [stored_change PG_SQUEEZE_CHANGE_INSERT new]
    | REORDER_BUFFER_CHANGE_UPDATE, Some old, Some new =>
        [stored_change PG_SQUEEZE_CHANGE_UPDATE_OLD old;
         stored_change PG_SQUEEZE_CHANGE_UPDATE_NEW new]
    | REORDER_BUFFER_CHANGE_UPDATE, None, Some new =>
        [stored_change PG_SQUEEZE_CHANGE_UPDATE_NEW new]
    | REORDER_BUFFER_CHANGE_DELETE, Some old, _ =>
        [stored_change PG_SQUEEZE_CHANGE_DELETE old]
    | _, _, _ => []
    end.

Definition captured_read (relid : Oid) (r : XLogRead) : list varlena :=
  match r with
  | XLOG_RECORD changes => flat_map (captured_change relid) changes
  | _ => []
  end.

(* Every UPDATE_OLD is directly followed by an UPDATE_NEW. *)
Fixpoint well_paired (kinds : list ConcurrentChangeKind) : bool :=
  match kinds with
  | [] => true
  | PG_SQUEEZE_CHANGE_UPDATE_OLD :: rest =>
      match rest with
      | PG_SQUEEZE_CHANGE_UPDATE_NEW :: rest' => well_paired rest'
      | _ => false
      end
  | _ :: rest => well_paired rest
  end.

Definition kinds_of (buffer : list varlena) : list ConcurrentChangeKind :=
  map (fun r => kind (vl_dat r)) buffer.

(* The world the replay loop starts in, and the one the pass ends in. *)
Definition locals0 : ApplyLocals := mk_locals None false 0 0 0.

Definition pushed (w : World) : World :=
  set_ActiveSnapshot w (currentCommandId w :: ActiveSnapshot w).

Definition finished (l : ApplyLocals) (w : World) : World :=
  let w := record_call w (elog_DEBUG1_applied (ninserts l) (nupdates l) (ndeletes l)) in
  let w := set_dstate w (mk_dstate (relid (dstate w)) (resowner (dstate w)) [] 0 0) in
  let w := set_ActiveSnapshot w (tl (ActiveSnapshot w)) in
  if bistate l then record_call w FreeBulkInsertState else w.

(* The tuple whose columns the scan for an UPDATE_NEW or DELETE compares. *)
Definition key_tuple_of (l : ApplyLocals) (change_raw : varlena) : HeapTuple :=
  if kind_eqb (kind (vl_dat change_raw)) PG_SQUEEZE_CHANGE_UPDATE_NEW
  then match tup_old l with
       | Some old => old
       | None => get_changed_tuple (vl_dat change_raw)
       end
  else get_changed_tuple (vl_dat change_raw).

(* The buffer after [new] has been appended by store_change calls. *)
Definition append_changes (d : DecodingOutputState) (new : list varlena)
  : DecodingOutputState :=
  mk_dstate (relid d) (resowner d) (tstore d ++ new)
            (nchanges d + Z.of_nat (List.length new))
            (fold_left (fun size r => Size_add size (record_size r)) new (data_size d)).

(* utmost <= now, as processing_time_elapsed compares them *)
Definition deadline_reached (now utmost : timeval) : bool :=
  if tv_sec now <? tv_sec utmost then false
  else if tv_sec now >? tv_sec utmost then true
  else tv_usec now >=? tv_usec utmost.

Definition timeval_le (a b : timeval) : Prop :=
  tv_sec a < tv_sec b \/ (tv_sec a = tv_sec b /\ tv_usec a <= tv_usec b).

(* Whether tup_old is set after a change of the given kind was applied. *)
Definition pending_step (k : ConcurrentChangeKind) (pending : bool) : bool :=
  match k with
  | PG_SQUEEZE_CHANGE_UPDATE_OLD => true
  | PG_SQUEEZE_CHANGE_UPDATE_NEW | PG_SQUEEZE_CHANGE_DELETE => false
  | _ => pending
  end.

(* What decoding leaves alone. *)
Definition decode_frame (w w' : World) : Prop :=
  rel_dst w' = rel_dst w
  /\ calls w' = calls w
  /\ currentCommandId w' = currentCommandId w
  /\ ActiveSnapshot w' = ActiveSnapshot w
  /\ catalog_checks w' = catalog_checks w
  /\ CurrentResourceOwner w' = CurrentResourceOwner w.

(* The buffer of [w'] is the buffer of [w] with well paired records added. *)
Definition grows_paired (w w' : World) : Prop :=
  exists new,
    dstate w' = append_changes (dstate w) new
    /\ well_paired (kinds_of new) = true.

End Vocabulary.

(** ** A table with a one-column identity key and a few changes to it *)

Module Scenario.
Import Toy.

Definition pg (cassert : bool) : Postgres := Toy.PG cassert 1024 Toy.clock.

Definition with_asserts : Postgres := pg true.
Definition without_asserts : Postgres := pg false.

Definition row_X : HeapTuple := tuple_of [x01; x0a].
Definition row_Y : HeapTuple := tuple_of [x02; x14].
Definition row_Y' : HeapTuple := tuple_of [x02; x15].
Definition row_Z : HeapTuple := tuple_of [x03; x1e].

Definition ev (kind : ConcurrentChangeKind) (tup : HeapTuple) : varlena :=
  @stored_change (pg true) kind tup.

(* three inserts, then row_Y becomes row_Y', then row_Z is deleted *)
Definition buffer : list varlena :=
  [ev PG_SQUEEZE_CHANGE_INSERT row_X; ev PG_SQUEEZE_CHANGE_INSERT row_Y;
   ev PG_SQUEEZE_CHANGE_INSERT row_Z; ev PG_SQUEEZE_CHANGE_UPDATE_OLD row_Y;
   ev PG_SQUEEZE_CHANGE_UPDATE_NEW row_Y'; ev PG_SQUEEZE_CHANGE_DELETE row_Z].

Definition world (cassert : bool) (buffer : list varlena) : @World (pg cassert) :=
  world0 cassert 1024 clock buffer (Z.of_nat (List.length buffer))
         (@sum_sizes (pg cassert) buffer).

Definition ins (t : HeapTuple) : Oid * ReorderBufferChange :=
  (16384, mk_rbchange REORDER_BUFFER_CHANGE_INSERT None (Some t)).
Definition upd (o n : HeapTuple) : Oid * ReorderBufferChange :=
  (16384, mk_rbchange REORDER_BUFFER_CHANGE_UPDATE (Some o) (Some n)).
Definition del (t : HeapTuple) : Oid * ReorderBufferChange :=
  (16384, mk_rbchange REORDER_BUFFER_CHANGE_DELETE (Some t) None).

(* the same changes as they come out of the WAL: two transactions *)
Definition wal : list XLogRecord :=
  [mk_xlog 100 (XLOG_RECORD [ins row_X; ins row_Y; ins row_Z]);
   mk_xlog 200 XLOG_NULL;
   mk_xlog 300 (XLOG_RECORD [upd row_Y row_Y'; del row_Z])].

(* the replay of [buffer] just before its UPDATE_NEW *)
Definition world_at_update : @World (pg true) :=
  world_of (apply_loop [1] 1 (firstn 4 buffer) locals0 (pushed (world true buffer))).
Definition locals_at_update : ApplyLocals := mk_locals (Some row_Y) false 3 0 0.


(* tuples of 600000 bytes: each buffered record is larger than half of
   maintenance_work_mem = 1024 kB *)
Definition big (b : byte) : HeapTuple :=
  tuple_of (b :: repeat x00 (Z.to_nat 599999)).

Definition big_wal : list XLogRecord :=
  [mk_xlog 100 (XLOG_RECORD [ins (big x01)]);
   mk_xlog 200 (XLOG_RECORD [upd (big x01) (big x02)]);
   mk_xlog 300 (XLOG_RECORD [ins (big x03)])].

(* a deadline that has passed at the first reading of the clock *)
Definition deadline : option timeval := Some (mk_timeval 0 0).

End Scenario.

(** ** Index maintenance: get_index_insert_state *)

(* An index as ExecOpenIndices leaves it in the ResultRelInfo: the relcache
   entry (its rd_id, and the rest of the descriptor) and the IndexInfo with
   its three exclusion-constraint arrays (NULL or not) and the fields the
   function does not touch. *)
Record IndexRelation := mk_index_rel {
  rd_id : Oid;
  rd_rest : Z
}.

Record IndexInfo := mk_index_info {
  ii_ExclusionOps : option (list Oid);
  ii_ExclusionProcs : option (list Oid);
  ii_ExclusionStrats : option (list Z);
  ii_rest : Z
}.

(* ri_IndexRelationDescs[i] and ri_IndexRelationInfo[i], i < ri_NumIndices *)
Definition ResultRelInfo := list (IndexRelation * IndexInfo).

Record IndexInsertState := mk_iistate {
  rri : ResultRelInfo;
  ident_index : option IndexRelation
}.

(* The body of the for loop, for index i. *)
Definition open_index (ident_index_id : Oid) (result : IndexInsertState)
  (index : IndexRelation * IndexInfo) : IndexInsertState :=
  let '(ind_rel, ii) := index in
  let ii := mk_index_info None None None (ii_rest ii) in
  mk_iistate (rri result ++ [(ind_rel, ii)])
             (if rd_id ind_rel =? ident_index_id then Some ind_rel
              else ident_index result).

(* [opened] is what ExecOpenIndices(result->rri, false) finds for the
   relation; palloc0 leaves ident_index NULL before the loop. *)
Definition get_index_insert_state (opened : ResultRelInfo) (ident_index_id : Oid)
  : ext IndexInsertState :=
  let result := fold_left (open_index ident_index_id) opened (mk_iistate [] None) in
  match ident_index result with
  | None => Raise "Failed to open identity index"
  | Some _ => Done result
  end.

Definition no_exclusion_check (ii : IndexInfo) : IndexInfo :=
  mk_index_info None None None (ii_rest ii).

(** ** More vocabulary *)

Section MoreVocabulary.
Context `{PG : Postgres}.

(* What a replay step does to the table, as seen in the calls. *)
Inductive applied :=
| applied_insert (tup : HeapTuple)
| applied_update (tup : HeapTuple)
| applied_delete.

Definition applied_by_call (c : Call) : list applied :=
  match c with
  | call_heap_insert tup _ => [applied_insert tup]
  | call_simple_heap_update _ tup => [applied_update tup]
  | call_simple_heap_delete _ => [applied_delete]
  | _ => []
  end.

(* What a buffered record asks for. *)
Definition applied_of_record (r : varlena) : list applied :=
  match kind (vl_dat r) with
  | PG_SQUEEZE_CHANGE_INSERT => [applied_insert (get_changed_tuple (vl_dat r))]
  | PG_SQUEEZE_CHANGE_UPDATE_NEW => [applied_update (get_changed_tuple (vl_dat r))]
  | PG_SQUEEZE_CHANGE_DELETE => [applied_delete]
  | _ => []
  end.

Definition has_kind (k : ConcurrentChangeKind) (r : varlena) : bool :=
  kind_eqb (kind (vl_dat r)) k.

Definition count_kind (k : ConcurrentChangeKind) (buffer : list varlena) : Z :=
  Z.of_nat (List.length (filter (has_kind k) buffer)).

Definition is_GetBulkInsertState (c : Call) : bool :=
  match c with GetBulkInsertState => true | _ => false end.

Definition is_FreeBulkInsertState (c : Call) : bool :=
  match c with FreeBulkInsertState => true | _ => false end.

Definition scan_curcid (c : Call) : list CommandId :=
  match c with call_index_scan curcid _ => [curcid] | _ => [] end.

(* Everything the plugin stores for a run of WAL records. *)
Definition captured_records (relid : Oid) (records : list XLogRecord)
  : list varlena :=
  flat_map (fun r => captured_read relid (xl_read r)) records.

Definition b2n (b : bool) : nat := if b then 1%nat else 0%nat.

End MoreVocabulary.

(* Before each of the reads that consumed [consumed], something below
   end_of_wal was left to read: from *startptr for the first read, after
   the record just read for the later ones. *)
Fixpoint read_below (end_of_wal startptr EndRecPtr : XLogRecPtr)
  (consumed : list XLogRecord) : Prop :=
  match consumed with
  | [] => True
  | record :: rest =>
      ((startptr <> InvalidXLogRecPtr /\ startptr < end_of_wal)
       \/ (EndRecPtr <> InvalidXLogRecPtr /\ EndRecPtr < end_of_wal))
      /\ read_below end_of_wal InvalidXLogRecPtr (xl_end record) rest
  end.

(** ** The trace of the decode loop *)

Section LoopVocabulary.
Context `{PG : Postgres}.







End LoopVocabulary.

(** ** The small PostgreSQL after a concurrent catalog change

    As [Scenario.pg], but every check_catalog_changes raises. *)

Module Altered.
Import Toy.

Definition pg : Postgres := {|
  USE_ASSERT_CHECKING := true;
  MAXIMUM_ALIGNOF := 8;
  sizeof_ConcurrentChange := 32;
  maintenance_work_mem := 1024;
  Datum := byte;
  HeapTupleHasExternal := fun _ => false;
  toast_flatten_tuple := fun t => t;
  HeapTupleIsHeapOnly := fun _ => false;
  memory_behind := fun _ _ => x7f;
  heap_getattr := getattr;
  Table := list row;
  heap_insert := insert;
  ExecInsertIndexTuples := fun t _ => Done t;
  index_getnext := scan;
  simple_heap_update := update;
  simple_heap_delete := delete;
  gettimeofday := clock;
  InterruptPending := fun _ => false;
  check_catalog_changes := fun _ => Some "catalog changed"%string
|}.

Definition world : @World pg :=
  @mk_world pg (mk_dstate 16384 7 [] 0 0) InvalidXLogRecPtr 1 1 [] []
            0%nat 0%nat 0%nat [].

End Altered.

(** ** Two more states of the small PostgreSQL *)

Module Corner.
Import Toy.



(* A clock that is set back after its first reading. *)
Definition clock_set_back (n : nat) : timeval :=
  match n with
  | O => mk_timeval 5 10
  | S _ => mk_timeval 5 9
  end.

Definition pg : Postgres := Toy.PG true 1024 clock_set_back.

Definition world : @World pg := world0 true 1024 clock_set_back [] 0 0.

Definition deadline : option timeval := Some (mk_timeval 5 10).

End Corner.

(** * Properties *)

(** ** The monad and the index scan *)

Section Facts.
Context `{PG : Postgres}.

Lemma bind_OK {A B} (m : M A) (k : A -> M B) w b w2 :
  bind m k w = OK b w2 <-> exists a w1, m w = OK a w1 /\ k a w1 = OK b w2.
Proof.
  unfold bind. destruct (m w) as [a w1|f w1]; split.
  - intros E. exists a, w1. auto.
  - intros (a' & w1' & E1 & E2). inversion E1; subst. exact E2.
  - discriminate.
  - intros (a' & w1' & E1 & _). discriminate.
Qed.

Lemma skipn_length_app {A} (l x : list A) : skipn (List.length l) (l ++ x) = x.
Proof. induction l; simpl; auto. Qed.

Lemma calls_since_app (w w' : World) new :
  calls w' = calls w ++ new -> calls_since w w' = new.
Proof. unfold calls_since. intros ->. apply skipn_length_app. Qed.

Lemma finalize_scan_key_spec tup_key entries w :
  finalize_scan_key tup_key entries w =
  if USE_ASSERT_CHECKING && negb (key_not_null tup_key entries)
  then Fail (ASSERT_TRAP "!isnull") w
  else OK (key_arguments tup_key entries) w.
Proof.
  induction entries as [|a rest IH]; simpl.
  - rewrite andb_false_r. reflexivity.
  - destruct (heap_getattr tup_key a) as [v isnull] eqn:E. simpl.
    unfold bind at 1. unfold Assert at 1.
    destruct USE_ASSERT_CHECKING; simpl in *.
    + rewrite negb_involutive. destruct isnull; simpl; auto.
      unfold bind. rewrite IH. destruct (key_not_null tup_key rest); reflexivity.
    + unfold bind. rewrite IH. reflexivity.
Qed.

Lemma find_target_spec key nkeys tup_key w :
  find_target key nkeys tup_key w =
  let entries := scan_entries key nkeys in
  if USE_ASSERT_CHECKING && negb (key_not_null tup_key entries)
  then Fail (ASSERT_TRAP "!isnull") w
  else
    let args := key_arguments tup_key entries in
    let w1 := record_call w (call_index_scan (GetActiveSnapshot w) args) in
    match index_getnext (rel_dst w) (GetActiveSnapshot w) args with
    | Raise msg => Fail (ELOG_ERROR msg) w1
    | Done None => Fail (ELOG_ERROR "Failed to find target tuple") w1
    | Done (Some ctid) => OK ctid w1
    end.
Proof.
  unfold find_target, scan_entries. unfold bind at 1.
  rewrite finalize_scan_key_spec.
  destruct (USE_ASSERT_CHECKING && _); [reflexivity|].
  cbn.
  destruct (index_getnext _ _ _) as [[ctid|]|msg]; reflexivity.
Qed.

End Facts.

(** ** One replay step

    The step is small enough to be run symbolically: unfold it, split on
    every outcome of the environment, and read the world off. *)

Ltac unfold_step :=
  unfold apply_change, dispatch_change, lookup_key_tuple,
    do_heap_insert, do_ExecInsertIndexTuples, do_simple_heap_update,
    do_simple_heap_delete, CommandCounterIncrement,
    UpdateActiveSnapshotCommandId, bind, ret, get, modify, lift_ext,
    elog_ERROR, Assert in *.

Ltac split_match :=
  match goal with
  | |- context [match ?x with _ => _ end] =>
      lazymatch x with
      | context [match _ with _ => _ end] => fail
      | _ => destruct x eqn:?
      end
  end.

Ltac calls_shape :=
  simpl; rewrite <- ?app_assoc;
  first [reflexivity | symmetry; apply app_nil_r].

Ltac norm_calls :=
  cbn [world_of];
  repeat match goal with
         | |- context [calls_since ?w ?w'] =>
             erewrite (calls_since_app w w') by calls_shape
         end;
  simpl filter.

Section StepFacts.
Context `{PG : Postgres}.

#[local] Arguments get_changed_tuple : simpl never.

(** C1.  When an UPDATE_NEW or a DELETE is replayed, every index scan the
    step makes on the replacement table carries the identity-key columns of
    [key_tuple_of]: for an UPDATE_NEW the pending old tuple if there is one
    and the change's own tuple otherwise, for a DELETE the change's own
    tuple.  The step makes at most one scan; a step that succeeds has made
    it and leaves no pending old tuple. *)
Theorem C1_lookup_key key nkeys (l : ApplyLocals) (change_raw : varlena) (w : World) :
  kind (vl_dat change_raw) = PG_SQUEEZE_CHANGE_UPDATE_NEW
  \/ kind (vl_dat change_raw) = PG_SQUEEZE_CHANGE_DELETE ->
  let r := apply_change key nkeys l change_raw w in
  let scans := filter is_index_scan (calls_since w (world_of r)) in
  (scans = []
   \/ exists curcid,
        scans = [call_index_scan curcid
                   (key_arguments (key_tuple_of l change_raw)
                                  (scan_entries key nkeys))])
  /\ (forall l' w', r = OK l' w' -> scans <> [] /\ tup_old l' = None).
Proof.
  intros K r scans. subst scans r. unfold key_tuple_of.
  destruct K as [K|K]; unfold apply_change; rewrite K;
    cbn [kind_eqb negb andb dispatch_change];
    unfold_step; cbn [kind_eqb];
    destruct (bistate l); cbn;
    repeat first [rewrite find_target_spec; cbn | split_match]; norm_calls.
  all: try (split;
     [ first [left; reflexivity | right; eexists; reflexivity]
     | intros l' w' E;
       first [discriminate E
             | inversion E; subst; split; [discriminate | reflexivity]]]).
Qed.

Lemma apply_change_frame key nkeys l e w :
  let r := apply_change key nkeys l e w in
  dstate (world_of r) = dstate w
  /\ EndRecPtr (world_of r) = EndRecPtr w
  /\ clock_reads (world_of r) = clock_reads w
  /\ currentCommandId w <= currentCommandId (world_of r)
  /\ exists new, calls (world_of r) = calls w ++ new.
Proof.
  cbv zeta. unfold apply_change.
  destruct (kind (vl_dat e)) eqn:K; cbn [kind_eqb negb andb dispatch_change];
    unfold_step; cbn [kind_eqb];
    destruct (bistate l); cbn;
    repeat first [rewrite find_target_spec; cbn | split_match];
    cbn [world_of]; simpl;
    (repeat split; try reflexivity; try lia;
     eexists; rewrite <- ?app_assoc;
     first [reflexivity | symmetry; apply app_nil_r]).
Qed.

Lemma apply_change_OK key nkeys l e w l' w' :
  apply_change key nkeys l e w = OK l' w' ->
  currentCommandId w' =
    currentCommandId w + (if advances_counter e then 1 else 0)
  /\ (if advances_counter e
      then exists before,
             calls_since w w' = before ++ [CommandCounterIncrement_call]
             /\ filter is_CommandCounterIncrement before = []
      else filter is_CommandCounterIncrement (calls_since w w') = []).
Proof.
  unfold apply_change, advances_counter.
  destruct (kind (vl_dat e)) eqn:K; cbn [kind_eqb negb andb dispatch_change];
    unfold_step; cbn [kind_eqb];
    destruct (bistate l); cbn;
    repeat first [rewrite find_target_spec; cbn | split_match];
    intros E; try discriminate E; inversion E; subst; clear E;
    norm_calls; simpl.
  all: split; [lia|].
  all: first [ reflexivity
             | match goal with
               | |- exists before, ?L = before ++ _ /\ _ =>
                   exists (removelast L); simpl; split; reflexivity
               end ].
Qed.


Lemma apply_loop_app key nkeys pre post l w :
  apply_loop key nkeys (pre ++ post) l w =
  match apply_loop key nkeys pre l w with
  | OK l1 w1 => apply_loop key nkeys post l1 w1
  | Fail f w1 => Fail f w1
  end.
Proof.
  revert l w. induction pre as [|e pre IH]; intros l w; simpl.
  - reflexivity.
  - unfold bind. destruct (apply_change key nkeys l e w); auto.
Qed.

Lemma apply_change_OK_calls key nkeys l e w l' w' :
  apply_change key nkeys l e w = OK l' w' ->
  dstate w' = dstate w
  /\ exists new,
       calls w' = calls w ++ new
       /\ List.length (filter is_CommandCounterIncrement new)
          = (if advances_counter e then 1%nat else 0%nat).
Proof.
  intros E.
  pose proof (apply_change_frame key nkeys l e w) as F. cbv zeta in F.
  rewrite E in F. cbn [world_of] in F.
  destruct F as (Fd & _ & _ & _ & new & Fc).
  split; [exact Fd|]. exists new. split; [exact Fc|].
  apply apply_change_OK in E. destruct E as [_ E].
  rewrite (calls_since_app _ _ _ Fc) in E.
  destruct (advances_counter e).
  - destruct E as (before & -> & Hb).
    rewrite filter_app, Hb. reflexivity.
  - rewrite E. reflexivity.
Qed.

Lemma apply_loop_OK key nkeys records l w l' w' :
  apply_loop key nkeys records l w = OK l' w' ->
  dstate w' = dstate w
  /\ currentCommandId w' =
     currentCommandId w
     + Z.of_nat (List.length (filter advances_counter records))
  /\ exists new,
       calls w' = calls w ++ new
       /\ List.length (filter is_CommandCounterIncrement new)
          = List.length (filter advances_counter records).
Proof.
  revert l w. induction records as [|e rest IH]; intros l w; simpl.
  - unfold ret. intros E. inversion E; subst.
    repeat split; [lia|]. exists []. rewrite app_nil_r. auto.
  - unfold bind. destruct (apply_change key nkeys l e w) as [l1 w1|] eqn:E1;
      [|discriminate].
    intros E2. apply IH in E2. destruct E2 as (D2 & C2 & new2 & N2 & L2).
    pose proof (apply_change_OK _ _ _ _ _ _ _ E1) as [C1 _].
    apply apply_change_OK_calls in E1. destruct E1 as (D1 & new1 & N1 & L1).
    split; [congruence|]. split.
    + rewrite C2, C1. destruct (advances_counter e); simpl List.length; lia.
    + exists (new1 ++ new2). split.
      * rewrite N2, N1, app_assoc. reflexivity.
      * rewrite filter_app, length_app, L1, L2.
        destruct (advances_counter e); reflexivity.
Qed.

Lemma apply_loop_counter key nkeys records l w l' w' :
  apply_loop key nkeys records l w = OK l' w' ->
  currentCommandId w' =
    currentCommandId w
    + Z.of_nat (List.length (filter advances_counter records))
  /\ List.length (filter is_CommandCounterIncrement (calls_since w w'))
     = List.length (filter advances_counter records)
  /\ forall pre e post,
       records = pre ++ e :: post ->
       exists l1 w1 l2 w2,
         apply_loop key nkeys pre l w = OK l1 w1
         /\ apply_change key nkeys l1 e w1 = OK l2 w2
         /\ currentCommandId w <= currentCommandId w1
         /\ currentCommandId w2 =
            currentCommandId w1 + (if advances_counter e then 1 else 0)
         /\ (if advances_counter e
             then exists before,
                    calls_since w1 w2 = before ++ [CommandCounterIncrement_call]
                    /\ filter is_CommandCounterIncrement before = []
             else filter is_CommandCounterIncrement (calls_since w1 w2) = [])
         /\ currentCommandId w2 <= currentCommandId w'.
Proof.
  intros E.
  pose proof (apply_loop_OK _ _ _ _ _ _ _ E) as (_ & C & new & N & L).
  split; [exact C|]. split.
  { rewrite (calls_since_app _ _ _ N). exact L. }
  intros pre e post ->.
  rewrite apply_loop_app in E.
  destruct (apply_loop key nkeys pre l w) as [l1 w1|] eqn:E1; [|discriminate].
  simpl in E. unfold bind in E.
  destruct (apply_change key nkeys l1 e w1) as [l2 w2|] eqn:E2; [|discriminate].
  exists l1, w1, l2, w2.
  pose proof (apply_loop_OK _ _ _ _ _ _ _ E1) as (_ & C1 & _).
  pose proof (apply_loop_OK _ _ _ _ _ _ _ E) as (_ & C3 & _).
  pose proof (apply_change_OK _ _ _ _ _ _ _ E2) as [C2 T2].
  repeat split; auto; lia.
Qed.


Lemma apply_concurrent_changes_run key nkeys w :
  nchanges (dstate w) <> 0 ->
  apply_concurrent_changes key nkeys w =
  match apply_loop key nkeys (tstore (dstate w)) locals0 (pushed w) with
  | OK l w1 => OK tt (finished l w1)
  | Fail f w1 => Fail f w1
  end.
Proof.
  intros N. unfold apply_concurrent_changes.
  unfold bind at 1. unfold get at 1.
  apply Z.eqb_neq in N. rewrite N.
  unfold bind at 1. unfold PushActiveSnapshot_transaction, modify at 1.
  fold (pushed w). fold locals0. unfold bind at 1.
  destruct (apply_loop key nkeys (tstore (dstate w)) locals0 (pushed w))
    as [l w1|f w1]; [|reflexivity].
  unfold finished, PopActiveSnapshot, bind, modify, ret.
  destruct (bistate l); reflexivity.
Qed.

Lemma dstate_finished l w :
  dstate (finished l w) = mk_dstate (relid (dstate w)) (resowner (dstate w)) [] 0 0.
Proof. unfold finished. destruct (bistate l); reflexivity. Qed.

(** C2.  After a replay pass that returns without error the change buffer
    is empty: the tuplestore holds nothing, nchanges is 0 and data_size is
    0, whatever kinds of changes were buffered.  (The buffer is one whose
    counters describe its tuplestore, as store_change and the pass itself
    keep it.) *)
Theorem C2_buffer_empty_after_replay key nkeys w w' :
  buffer_consistent (dstate w) ->
  apply_concurrent_changes key nkeys w = OK tt w' ->
  tstore (dstate w') = []
  /\ nchanges (dstate w') = 0
  /\ data_size (dstate w') = 0.
Proof.
  intros [Hn Hs] E.
  destruct (Z.eq_dec (nchanges (dstate w)) 0) as [Z0|NZ].
  - unfold apply_concurrent_changes, bind, get in E.
    rewrite Z0 in E. simpl in E. unfold ret in E. inversion E; subst w'.
    assert (T : tstore (dstate w) = []).
    { destruct (tstore (dstate w)); [reflexivity|].
      simpl List.length in Hn. lia. }
    rewrite Hs, T. repeat split; auto.
  - rewrite (apply_concurrent_changes_run _ _ _ NZ) in E.
    destruct (apply_loop _ _ _ _ _) as [l w1|]; [|discriminate].
    inversion E; subst w'. rewrite dstate_finished. simpl. auto.
Qed.

End StepFacts.

(** ** The replay pass *)

Section PassFacts.
Context `{PG : Postgres}.

#[local] Arguments get_changed_tuple : simpl never.

Lemma finished_frame l w :
  currentCommandId (finished l w) = currentCommandId w
  /\ rel_dst (finished l w) = rel_dst w
  /\ exists new, calls (finished l w) = calls w ++ new
       /\ filter is_CommandCounterIncrement new = []
       /\ filter is_table_write new = [].
Proof.
  unfold finished. destruct (bistate l); simpl; repeat split;
    eexists; rewrite <- ?app_assoc; repeat split; reflexivity.
Qed.

(** C9.  In a replay pass the command counter is advanced exactly once
    after each applied INSERT, UPDATE_NEW or DELETE, as the last call of
    that step, and not at all for an UPDATE_OLD; over the pass it moves by
    the number of such changes and never goes down. *)
Theorem C9_counter_advanced_once_per_applied_change key nkeys w w' :
  buffer_consistent (dstate w) ->
  apply_concurrent_changes key nkeys w = OK tt w' ->
  let records := tstore (dstate w) in
  currentCommandId w' =
    currentCommandId w
    + Z.of_nat (List.length (filter advances_counter records))
  /\ List.length (filter is_CommandCounterIncrement (calls_since w w'))
     = List.length (filter advances_counter records)
  /\ forall pre e post,
       records = pre ++ e :: post ->
       exists l1 w1 l2 w2,
         apply_loop key nkeys pre locals0 (pushed w) = OK l1 w1
         /\ apply_change key nkeys l1 e w1 = OK l2 w2
         /\ currentCommandId w <= currentCommandId w1
         /\ currentCommandId w2 =
            currentCommandId w1 + (if advances_counter e then 1 else 0)
         /\ (if advances_counter e
             then exists before,
                    calls_since w1 w2 = before ++ [CommandCounterIncrement_call]
                    /\ filter is_CommandCounterIncrement before = []
             else filter is_CommandCounterIncrement (calls_since w1 w2) = [])
         /\ currentCommandId w2 <= currentCommandId w'.
Proof.
  intros [Hn Hs] E records. subst records.
  destruct (Z.eq_dec (nchanges (dstate w)) 0) as [Z0|NZ].
  - assert (T : tstore (dstate w) = []).
    { destruct (tstore (dstate w)); [reflexivity|].
      simpl List.length in Hn. lia. }
    unfold apply_concurrent_changes, bind, get in E.
    rewrite Z0 in E. simpl in E. unfold ret in E. inversion E; subst w'.
    rewrite T. simpl. split; [lia|]. split.
    + unfold calls_since. rewrite skipn_all. reflexivity.
    + intros pre e post C. destruct pre; discriminate C.
  - rewrite (apply_concurrent_changes_run _ _ _ NZ) in E.
    destruct (apply_loop key nkeys (tstore (dstate w)) locals0 (pushed w))
      as [l wl|] eqn:EL; [|discriminate].
    inversion E; subst w'. clear E.
    destruct (finished_frame l wl) as (Fc & _ & fin & Fn & Ff & _).
    pose proof (apply_loop_counter _ _ _ _ _ _ _ EL) as (C & N & Steps).
    pose proof (apply_loop_OK _ _ _ _ _ _ _ EL) as (_ & _ & new & Nn & Ln).
    simpl in C, Nn. split; [rewrite Fc; exact C|]. split.
    + rewrite (calls_since_app w (finished l wl) (new ++ fin)).
      * rewrite filter_app, Ff, app_nil_r. exact Ln.
      * rewrite Fn, Nn, app_assoc. reflexivity.
    + intros pre e post D. destruct (Steps pre e post D)
        as (l1 & w1 & l2 & w2 & S1 & S2 & S3 & S4 & S5 & S6).
      exists l1, w1, l2, w2. rewrite Fc. simpl in S3. auto 10.
Qed.

(** C5, amended.  An UPDATE_OLD consumed while an old tuple is pending
    fails, as a failed assertion, only in a build with assertion checking;
    without it the new old tuple silently takes the place of the pending
    one and replay goes on.  Either way the table is not touched and there
    is one pending old tuple at most. *)
Theorem C5_second_update_old key nkeys l e w old :
  kind (vl_dat e) = PG_SQUEEZE_CHANGE_UPDATE_OLD ->
  tup_old l = Some old ->
  let w1 := if bistate l then record_call w FreeBulkInsertState else w in
  apply_change key nkeys l e w =
  if USE_ASSERT_CHECKING
  then Fail (ASSERT_TRAP "tup_old == NULL") w1
  else OK (mk_locals (Some (get_changed_tuple (vl_dat e))) false
                     (ninserts l) (nupdates l) (ndeletes l)) w1.
Proof.
  intros K O. unfold apply_change. rewrite K.
  cbn [kind_eqb negb andb dispatch_change].
  unfold_step. rewrite O. cbn [is_NULL negb].
  destruct (bistate l) eqn:B; cbn; rewrite ?andb_true_r, ?O; cbn;
    destruct USE_ASSERT_CHECKING; cbn; rewrite ?B; reflexivity.
Qed.

Lemma apply_change_miss key nkeys l e w :
  kind (vl_dat e) = PG_SQUEEZE_CHANGE_UPDATE_NEW
  \/ kind (vl_dat e) = PG_SQUEEZE_CHANGE_DELETE ->
  (USE_ASSERT_CHECKING = true ->
   key_not_null (key_tuple_of l e) (scan_entries key nkeys) = true
   /\ (kind (vl_dat e) = PG_SQUEEZE_CHANGE_DELETE -> tup_old l = None)) ->
  index_getnext (rel_dst w) (GetActiveSnapshot w)
    (key_arguments (key_tuple_of l e) (scan_entries key nkeys)) = Done None ->
  let w1 := if bistate l then record_call w FreeBulkInsertState else w in
  apply_change key nkeys l e w =
  Fail (ELOG_ERROR "Failed to find target tuple")
       (record_call w1
          (call_index_scan (GetActiveSnapshot w)
             (key_arguments (key_tuple_of l e) (scan_entries key nkeys)))).
Proof.
  intros K A Miss. unfold key_tuple_of in *.
  destruct K as [K|K]; rewrite K in *; cbn [kind_eqb] in *;
    unfold apply_change; rewrite K;
    cbn [kind_eqb negb andb dispatch_change];
    unfold_step; cbn [kind_eqb];
    destruct USE_ASSERT_CHECKING eqn:UA;
    try (destruct A as [A1 A2]; [reflexivity|]);
    destruct (bistate l); cbn;
    try rewrite (A2 eq_refl); cbn;
    rewrite find_target_spec; cbn;
    rewrite ?UA, ?A1; cbn; rewrite ?andb_false_r;
    unfold GetActiveSnapshot in *; simpl;
    rewrite Miss; reflexivity.
Qed.

(** C8.  When the scan for an UPDATE_NEW or a DELETE finds no row, the
    pass fails with "Failed to find target tuple" whatever follows in the
    buffer: the table and the command counter are as the changes before it
    left them, no table write is made after the miss, and the buffer is not
    cleared. *)
Theorem C8_lookup_miss_is_fatal key nkeys w pre e post l1 w1 :
  tstore (dstate w) = pre ++ e :: post ->
  nchanges (dstate w) <> 0 ->
  apply_loop key nkeys pre locals0 (pushed w) = OK l1 w1 ->
  kind (vl_dat e) = PG_SQUEEZE_CHANGE_UPDATE_NEW
  \/ kind (vl_dat e) = PG_SQUEEZE_CHANGE_DELETE ->
  (USE_ASSERT_CHECKING = true ->
   key_not_null (key_tuple_of l1 e) (scan_entries key nkeys) = true
   /\ (kind (vl_dat e) = PG_SQUEEZE_CHANGE_DELETE -> tup_old l1 = None)) ->
  index_getnext (rel_dst w1) (GetActiveSnapshot w1)
    (key_arguments (key_tuple_of l1 e) (scan_entries key nkeys)) = Done None ->
  exists wf,
    apply_concurrent_changes key nkeys w =
      Fail (ELOG_ERROR "Failed to find target tuple") wf
    /\ rel_dst wf = rel_dst w1
    /\ currentCommandId wf = currentCommandId w1
    /\ dstate wf = dstate w
    /\ filter is_table_write (calls_since w1 wf) = [].
Proof.
  intros T NZ Pre K A Miss.
  rewrite (apply_concurrent_changes_run _ _ _ NZ), T, apply_loop_app, Pre.
  simpl apply_loop. unfold bind.
  rewrite (apply_change_miss _ _ _ _ _ K A Miss).
  eexists. split; [reflexivity|].
  pose proof (apply_loop_OK _ _ _ _ _ _ _ Pre) as (D & _).
  simpl in D.
  destruct (bistate l1); simpl; repeat split; auto;
    unfold calls_since; simpl; rewrite <- ?app_assoc;
    rewrite skipn_length_app; reflexivity.
Qed.

End PassFacts.

(** ** Capture: what the plugin appends *)

Section CaptureFacts.
Context `{PG : Postgres}.

Lemma set_dstate_same (w : World) : set_dstate w (dstate w) = w.
Proof. destruct w; reflexivity. Qed.

Lemma append_changes_nil d : append_changes d [] = d.
Proof.
  destruct d; unfold append_changes; simpl.
  rewrite app_nil_r, Z.add_0_r. reflexivity.
Qed.

Lemma append_changes_app d a b :
  append_changes (append_changes d a) b = append_changes d (a ++ b).
Proof.
  unfold append_changes; simpl.
  rewrite <- app_assoc, length_app, Nat2Z.inj_add, Z.add_assoc, fold_left_app.
  reflexivity.
Qed.

Lemma record_size_stored kind tuple :
  record_size (stored_change kind tuple) = change_size (flat_tuple tuple).
Proof. reflexivity. Qed.

Lemma store_change_spec kind tuple w :
  store_change kind tuple w =
  OK tt (set_dstate w (append_changes (dstate w) [stored_change kind tuple])).
Proof. reflexivity. Qed.

Lemma set_dstate_twice (w : World) d1 d2 :
  set_dstate (set_dstate w d1) d2 = set_dstate w d2.
Proof. reflexivity. Qed.

Lemma plugin_change_spec rd_id change w :
  world_of (plugin_change rd_id change w) =
  set_dstate w (append_changes (dstate w)
                  (captured_change (relid (dstate w)) (rd_id, change))).
Proof.
  unfold plugin_change, captured_change. cbn [fst snd].
  destruct (rd_id =? relid (dstate w)); cbn [negb].
  2: { rewrite append_changes_nil, set_dstate_same. reflexivity. }
  destruct (action change), (oldtuple change) as [old|], (newtuple change) as [new|];
    unfold bind, ret, Assert; rewrite ?store_change_spec; cbn [world_of dstate set_dstate];
    rewrite ?set_dstate_twice, ?append_changes_app; cbn [app];
    try reflexivity;
    try (rewrite append_changes_nil, set_dstate_same; reflexivity).
  all: destruct (USE_ASSERT_CHECKING && negb false); cbn [world_of];
    rewrite append_changes_nil, set_dstate_same; reflexivity.
Qed.

Lemma LogicalDecodingProcessRecord_OK changes w w' :
  LogicalDecodingProcessRecord changes w = OK tt w' ->
  w' = set_dstate w (append_changes (dstate w)
                       (flat_map (captured_change (relid (dstate w))) changes)).
Proof.
  revert w. induction changes as [|[rd_id change] rest IH]; intros w; simpl.
  - unfold ret. intros E. inversion E; subst.
    rewrite append_changes_nil, set_dstate_same. reflexivity.
  - unfold bind.
    pose proof (plugin_change_spec rd_id change w) as S.
    destruct (plugin_change rd_id change w) as [[] w1|]; [|discriminate].
    cbn [world_of] in S. intros E. apply IH in E. subst w' w1.
    cbn [dstate set_dstate relid append_changes].
    rewrite set_dstate_twice. fold (append_changes (dstate w)
      (captured_change (relid (dstate w)) (rd_id, change))).
    rewrite append_changes_app. reflexivity.
Qed.

Lemma well_paired_app a b :
  well_paired a = true -> well_paired b = true -> well_paired (a ++ b) = true.
Proof.
  remember (List.length a) as n eqn:L.
  revert a L. induction n as [n IH] using lt_wf_ind. intros a L Ha Hb.
  destruct a as [|k a]; [exact Hb|].
  destruct k; simpl in *; try (apply (IH (List.length a)); auto; lia).
  destruct a as [|k a]; [discriminate|].
  destruct k; try discriminate. simpl.
  apply (IH (List.length a)); auto. simpl in L. lia.
Qed.

Lemma captured_change_paired relid c :
  well_paired (kinds_of (captured_change relid c)) = true.
Proof.
  unfold captured_change.
  destruct (negb (fst c =? relid)); [reflexivity|].
  destruct (action (snd c)), (oldtuple (snd c)), (newtuple (snd c)); reflexivity.
Qed.

Lemma kinds_of_app a b : kinds_of (a ++ b) = kinds_of a ++ kinds_of b.
Proof. apply map_app. Qed.

Lemma captured_paired relid changes :
  well_paired (kinds_of (flat_map (captured_change relid) changes)) = true.
Proof.
  induction changes as [|c rest IH]; simpl; [reflexivity|].
  rewrite kinds_of_app. apply well_paired_app; auto using captured_change_paired.
Qed.

Lemma LogicalDecodingProcessRecord_any changes w :
  exists new,
    world_of (LogicalDecodingProcessRecord changes w) =
      set_dstate w (append_changes (dstate w) new)
    /\ well_paired (kinds_of new) = true.
Proof.
  revert w. induction changes as [|[rd_id change] rest IH]; intros w; simpl.
  - exists []. rewrite append_changes_nil, set_dstate_same. auto.
  - unfold bind.
    pose proof (plugin_change_spec rd_id change w) as S.
    destruct (plugin_change rd_id change w) as [[] w1|f w1]; cbn [world_of] in *.
    + destruct (IH w1) as (new & E & P). subst w1.
      eexists. split.
      * rewrite E. cbn [dstate set_dstate]. rewrite set_dstate_twice,
          append_changes_app. reflexivity.
      * rewrite kinds_of_app. apply well_paired_app; auto using captured_change_paired.
    + eexists. split; [exact S|]. apply captured_change_paired.
Qed.

Lemma sum_sizes_app a b : sum_sizes (a ++ b) = sum_sizes a + sum_sizes b.
Proof. induction a as [|x a IH]; simpl; [reflexivity|]. rewrite IH. lia. Qed.

Lemma buffer_consistent_append d new :
  buffer_consistent d -> buffer_consistent (append_changes d new).
Proof.
  intros [Hn Hs]. revert d Hn Hs.
  induction new as [|r new IH]; intros d Hn Hs.
  - rewrite append_changes_nil. split; assumption.
  - change (r :: new) with ([r] ++ new). rewrite <- append_changes_app.
    apply IH; unfold append_changes; simpl.
    + rewrite length_app, Nat2Z.inj_add, Hn. reflexivity.
    + rewrite Hs. unfold Size_add, to_Size.
      rewrite Zplus_mod_idemp_l, sum_sizes_app. simpl. f_equal. lia.
Qed.







End CaptureFacts.

(** ** Pending old tuples along a buffer *)

Section PairingFacts.
Context `{PG : Postgres}.

#[local] Arguments get_changed_tuple : simpl never.

Lemma apply_change_tup_old key nkeys l e w l' w' :
  apply_change key nkeys l e w = OK l' w' ->
  tup_old l' =
  match kind (vl_dat e) with
  | PG_SQUEEZE_CHANGE_UPDATE_OLD => Some (get_changed_tuple (vl_dat e))
  | PG_SQUEEZE_CHANGE_UPDATE_NEW | PG_SQUEEZE_CHANGE_DELETE => None
  | _ => tup_old l
  end.
Proof.
  unfold apply_change.
  destruct (kind (vl_dat e)) eqn:K; cbn [kind_eqb negb andb dispatch_change];
    unfold_step; cbn [kind_eqb];
    destruct (bistate l); cbn;
    repeat first [rewrite find_target_spec; cbn | split_match];
    intros E; try discriminate E; inversion E; subst; reflexivity.
Qed.

Lemma apply_loop_pending key nkeys records l w l' w' :
  apply_loop key nkeys records l w = OK l' w' ->
  negb (is_NULL (tup_old l')) =
  fold_left (fun p k => pending_step k p) (kinds_of records)
            (negb (is_NULL (tup_old l))).
Proof.
  revert l w. induction records as [|e rest IH]; intros l w; simpl.
  - unfold ret. intros E. inversion E; subst. reflexivity.
  - unfold bind. destruct (apply_change key nkeys l e w) as [l1 w1|] eqn:E1;
      [|discriminate].
    intros E2. rewrite (IH _ _ E2). f_equal.
    rewrite (apply_change_tup_old _ _ _ _ _ _ _ E1).
    destruct (kind (vl_dat e)); reflexivity.
Qed.

Lemma well_paired_split ks rest :
  well_paired (ks ++ rest) = true ->
  (fold_left (fun p k => pending_step k p) ks false = false
   /\ well_paired rest = true)
  \/ exists rest', rest = PG_SQUEEZE_CHANGE_UPDATE_NEW :: rest'.
Proof.
  remember (List.length ks) as n eqn:L.
  revert ks L. induction n as [n IH] using lt_wf_ind. intros ks L W.
  destruct ks as [|k ks]; [left; auto|].
  destruct k; simpl in W |- *;
    try (apply (IH (List.length ks)); [simpl in L; lia | reflexivity | exact W]).
  destruct ks as [|k ks]; simpl in W.
  - destruct rest as [|[] rest']; try discriminate. right. eauto.
  - destruct k; try discriminate. simpl.
    apply (IH (List.length ks)); [simpl in L; lia | reflexivity | exact W].
Qed.

End PairingFacts.

(** ** The decode loop *)

Section DecodeFacts.
Context `{PG : Postgres}.

Lemma decode_frame_refl w : decode_frame w w.
Proof. repeat split. Qed.

Lemma decode_frame_trans a b c :
  decode_frame a b -> decode_frame b c -> decode_frame a c.
Proof.
  unfold decode_frame. intros (?&?&?&?&?&?) (?&?&?&?&?&?).
  repeat split; congruence.
Qed.

Lemma processing_time_elapsed_spec must w :
  processing_time_elapsed must w =
  match must with
  | None => OK false w
  | Some utmost =>
      OK (deadline_reached (gettimeofday (clock_reads w)) utmost) (tick_clock w)
  end.
Proof.
  unfold processing_time_elapsed, deadline_reached.
  destruct must as [u|]; [|reflexivity].
  destruct (_ <? _); [reflexivity|]. destruct (_ >? _); reflexivity.
Qed.

(* What reading and processing one record does when it succeeds. *)
Lemma read_record_OK (record : XLogRecord) (w w2 : World) :
  (match xl_read record with
   | XLOG_ERRM errm => elog_ERROR errm
   | XLOG_NULL => ret tt
   | XLOG_RECORD changes => LogicalDecodingProcessRecord changes
   end) (set_EndRecPtr w (xl_end record)) = OK tt w2 ->
  w2 = set_dstate (set_EndRecPtr w (xl_end record))
         (append_changes (dstate w)
            (captured_read (relid (dstate w)) (xl_read record))).
Proof.
  destruct (xl_read record) as [errm| |changes]; simpl.
  - discriminate.
  - unfold ret. intros E. inversion E.
    rewrite append_changes_nil. destruct w; reflexivity.
  - intros E. apply LogicalDecodingProcessRecord_OK in E. exact E.
Qed.

Lemma relid_append d new : relid (append_changes d new) = relid d.
Proof. reflexivity. Qed.

Lemma decode_loop_OK end_of_wal must wal :
  forall startptr w startptr' wal' how w',
  decode_loop end_of_wal must wal startptr w = OK (startptr', wal', how) w' ->
  decode_frame w w'
  /\ ((w' = w /\ startptr' = startptr /\ wal' = wal /\ how = EXIT_CONDITION
       /\ more_to_read startptr end_of_wal w
          && (data_size (dstate w) <? maintenance_wm_bytes) = false)
      \/ exists consumed record before,
           wal = consumed ++ record :: wal'
           /\ startptr' = InvalidXLogRecPtr
           /\ data_size (append_changes (dstate w) before) < maintenance_wm_bytes
           /\ dstate w' =
              append_changes (dstate w)
                (before ++ captured_read (relid (dstate w)) (xl_read record))
           /\ EndRecPtr w' = xl_end record
           /\ match how with
              | EXIT_BREAK =>
                  exists utmost n,
                    must = Some utmost /\ clock_reads w' = S n
                    /\ deadline_reached (gettimeofday n) utmost = true
              | EXIT_CONDITION =>
                  more_to_read InvalidXLogRecPtr end_of_wal w'
                  && (data_size (dstate w') <? maintenance_wm_bytes) = false
              end).
Proof.
  induction wal as [|record wal0 IH]; intros startptr w startptr' wal' how w'.
  - simpl. destruct (_ && _) eqn:C; [discriminate|].
    intros E. inversion E; subst. split; [apply decode_frame_refl|]. left. auto.
  - simpl. destruct (_ && _) eqn:C.
    2: { intros E. inversion E; subst. split; [apply decode_frame_refl|].
         left. auto. }
    unfold bind at 1.
    match goal with
    | |- context [match ?m (set_EndRecPtr w (xl_end record)) with _ => _ end] =>
        destruct (m (set_EndRecPtr w (xl_end record))) as [[] w2|] eqn:R
    end; [|discriminate].
    apply read_record_OK in R.
    unfold bind at 1. rewrite processing_time_elapsed_spec.
    apply andb_true_iff in C. destruct C as [_ C]. apply Z.ltb_lt in C.
    destruct must as [utmost|].
    + destruct (deadline_reached _ utmost) eqn:DL.
      * unfold ret. intros E. inversion E; subst. clear E.
        split; [repeat split|]. right.
        exists [], record, []. rewrite ?append_changes_nil; cbn [app fold_left].
        repeat split; auto.
        exists utmost, (clock_reads w). auto.
      * unfold bind at 1, CHECK_FOR_INTERRUPTS.
        destruct (InterruptPending _); [discriminate|].
        intros E. apply IH in E. destruct E as [F E].
        split. { eapply decode_frame_trans; [|exact F]. subst w2. repeat split. }
        right. subst w2.
        cbn [dstate tick_interrupts tick_clock set_dstate set_EndRecPtr] in E.
        rewrite relid_append in E.
        destruct E as [(-> & -> & -> & -> & Cnd)
                      |(consumed & rec' & before & -> & -> & Sz & D & Ep & Hw)].
        -- exists [], record, []. rewrite ?append_changes_nil; cbn [app fold_left].
           repeat split; auto.
        -- exists (record :: consumed), rec',
             (captured_read (relid (dstate w)) (xl_read record) ++ before).
           rewrite append_changes_app in Sz, D. rewrite <- app_assoc.
           repeat split; auto.
    + unfold bind at 1, CHECK_FOR_INTERRUPTS.
      destruct (InterruptPending _); [discriminate|].
      intros E. apply IH in E. destruct E as [F E].
      split. { eapply decode_frame_trans; [|exact F]. subst w2. repeat split. }
      right. subst w2.
        cbn [dstate tick_interrupts tick_clock set_dstate set_EndRecPtr] in E.
        rewrite relid_append in E.
      destruct E as [(-> & -> & -> & -> & Cnd)
                    |(consumed & rec' & before & -> & -> & Sz & D & Ep & Hw)].
      * exists [], record, []. rewrite ?append_changes_nil; cbn [app fold_left].
        repeat split; auto.
      * exists (record :: consumed), rec',
          (captured_read (relid (dstate w)) (xl_read record) ++ before).
        rewrite append_changes_app in Sz, D. rewrite <- app_assoc.
        repeat split; auto.
Qed.


Lemma decode_concurrent_changes_OK startptr end_of_wal must wal w done out w' :
  decode_concurrent_changes startptr end_of_wal must wal w = OK (done, out) w' ->
  exists wl,
    decode_loop end_of_wal must wal startptr
      (set_CurrentResourceOwner w (resowner (dstate w))) = OK out wl
    /\ done = (EndRecPtr wl =? InvalidXLogRecPtr) || (EndRecPtr wl >=? end_of_wal)
    /\ dstate w' = dstate wl
    /\ EndRecPtr w' = EndRecPtr wl
    /\ clock_reads w' = clock_reads wl
    /\ rel_dst w' = rel_dst wl
    /\ currentCommandId w' = currentCommandId wl
    /\ catalog_checks w' = catalog_checks wl
    /\ CurrentResourceOwner w' = CurrentResourceOwner w
    /\ exists new, calls w' = calls wl ++ new /\ filter is_replay_call new = [].
Proof.
  unfold decode_concurrent_changes, PG_TRY_rethrow, bind, get, modify, ret.
  destruct (decode_loop _ _ _ _ _) as [out' wl|[] wl]; try discriminate.
  intros E. exists wl. inversion E; subst; clear E.
  split; [reflexivity|].
  destruct (EndRecPtr wl =? InvalidXLogRecPtr) eqn:Z0; cbn;
    rewrite ?Z0; repeat split;
    eexists; rewrite <- ?app_assoc; split; reflexivity.
Qed.







End DecodeFacts.

(** ** The memory threshold and the deadline *)

Section ThresholdFacts.
Context `{PG : Postgres}.

Lemma record_size_nonneg r : 0 <= record_size r.
Proof.
  unfold record_size, change_size, to_Size.
  apply Z.mod_pos_bound. reflexivity.
Qed.

Lemma sum_sizes_nonneg b : 0 <= sum_sizes b.
Proof.
  induction b as [|r b IH]; simpl; [lia|].
  pose proof (record_size_nonneg r). lia.
Qed.

Lemma to_Size_le z : 0 <= z -> 0 <= to_Size z <= z.
Proof.
  intros H. unfold to_Size. split.
  - apply Z.mod_pos_bound. reflexivity.
  - apply Z.mod_le; [exact H | reflexivity].
Qed.

Lemma to_Size_small z : 0 <= z < Size_modulus -> to_Size z = z.
Proof. intros H. unfold to_Size. apply Z.mod_small. exact H. Qed.

Lemma to_Size_add_le a b :
  0 <= a -> 0 <= b -> to_Size (a + b) <= to_Size a + b.
Proof.
  intros Ha Hb. unfold to_Size.
  rewrite <- Zplus_mod_idemp_l.
  pose proof (Z.mod_pos_bound a Size_modulus eq_refl).
  apply Z.mod_le; [lia | reflexivity].
Qed.

Lemma big_records_few (before : list varlena) (limit : Z) :
  (forall r, In r before -> limit < 2 * record_size r) ->
  sum_sizes before < limit ->
  (List.length before <= 1)%nat.
Proof.
  intros Big Sum.
  destruct before as [|x [|y rest]]; simpl; try lia.
  exfalso. simpl in Sum.
  pose proof (Big x (or_introl eq_refl)).
  pose proof (Big y (or_intror (or_introl eq_refl))).
  pose proof (sum_sizes_nonneg rest). lia.
Qed.

(** C7, amended.  data_size is compared with the threshold once per WAL
    record, at the top of the decode loop: the buffer that was compared
    last ([before]) was below the threshold, and what the call added after
    that ([last]) is what the last record read made the plugin store, so
    the threshold is exceeded by less than the size of those records
    together.  When every buffered record is larger than half the threshold
    (and the sizes do not wrap), [before] holds one record at most, so the
    buffer ends with at most one record more than the last WAL record
    contributed. *)
Theorem C7_threshold_checked_once_per_record
  startptr end_of_wal must_complete wal w done startptr' wal' how w' :
  buffer_consistent (dstate w) ->
  data_size (dstate w) < maintenance_wm_bytes ->
  decode_concurrent_changes startptr end_of_wal must_complete wal w
  = OK (done, (startptr', wal', how)) w' ->
  exists before last,
    tstore (dstate w') = before ++ last
    /\ ((wal' = wal /\ last = [])
        \/ exists consumed record,
             wal = consumed ++ record :: wal'
             /\ last = captured_read (relid (dstate w)) (xl_read record))
    /\ to_Size (sum_sizes before) < maintenance_wm_bytes
    /\ data_size (dstate w') = to_Size (sum_sizes before + sum_sizes last)
    /\ data_size (dstate w') < maintenance_wm_bytes + sum_sizes last
    /\ (sum_sizes (before ++ last) < Size_modulus ->
        (forall r, In r (before ++ last) ->
                   maintenance_wm_bytes < 2 * record_size r) ->
        (List.length before <= 1)%nat
        /\ nchanges (dstate w') <= 1 + Z.of_nat (List.length last)).
Proof.
  intros Cons Below E.
  apply decode_concurrent_changes_OK in E.
  destruct E as (wl & L & _ & D & _).
  apply decode_loop_OK in L. destruct L as [_ L].
  cbn [dstate set_CurrentResourceOwner] in L.
  assert (Shape : exists before last,
    dstate wl = append_changes (dstate w) (before ++ last)
    /\ ((wal' = wal /\ last = [])
        \/ exists consumed record,
             wal = consumed ++ record :: wal'
             /\ last = captured_read (relid (dstate w)) (xl_read record))
    /\ data_size (append_changes (dstate w) before) < maintenance_wm_bytes).
  { destruct L as [(-> & -> & -> & -> & C)
                  |(consumed & record & before & -> & -> & Sz & Dl & _)].
    - exists [], []. cbn [app]. rewrite append_changes_nil.
      repeat split; auto.
    - exists before, (captured_read (relid (dstate w)) (xl_read record)).
      repeat split; eauto. }
  destruct Shape as (b & last & Dl & Last & Sz).
  pose proof (buffer_consistent_append _ b Cons) as [_ Sb].
  pose proof (buffer_consistent_append _ (b ++ last) Cons) as [Nbl Sbl].
  rewrite <- Dl, <- D in Nbl, Sbl.
  assert (T : tstore (dstate w') = (tstore (dstate w) ++ b) ++ last).
  { rewrite D, Dl. simpl. apply app_assoc. }
  exists (tstore (dstate w) ++ b), last.
  rewrite Sb in Sz. cbn [tstore append_changes] in Sz.
  rewrite T, sum_sizes_app in Sbl.
  pose proof (sum_sizes_nonneg (tstore (dstate w) ++ b)) as P1.
  pose proof (sum_sizes_nonneg last) as P2.
  repeat split; auto.
  - rewrite Sbl.
    pose proof (to_Size_add_le _ _ P1 P2). lia.
  - apply (big_records_few _ maintenance_wm_bytes).
    + intros r I. apply H0. apply in_or_app. left. exact I.
    + rewrite sum_sizes_app in H. rewrite to_Size_small in Sz; lia.
  - rewrite Nbl, T, length_app, Nat2Z.inj_add.
    assert (List.length (tstore (dstate w) ++ b) <= 1)%nat; [|lia].
    apply (big_records_few _ maintenance_wm_bytes).
    + intros r I. apply H0. apply in_or_app. left. exact I.
    + rewrite sum_sizes_app in H. rewrite to_Size_small in Sz; lia.
Qed.

Lemma deadline_reached_later now later utmost :
  deadline_reached now utmost = true ->
  timeval_le now later ->
  deadline_reached later utmost = true.
Proof.
  unfold deadline_reached, timeval_le. rewrite !Z.gtb_ltb, !Z.geb_leb.
  destruct (Z.ltb_spec (tv_sec now) (tv_sec utmost)); [discriminate|].
  destruct (Z.ltb_spec (tv_sec later) (tv_sec utmost)); [lia|].
  destruct (Z.ltb_spec (tv_sec utmost) (tv_sec now)),
    (Z.ltb_spec (tv_sec utmost) (tv_sec later)); auto; try lia.
  all: intros A B; apply Z.leb_le in A; apply Z.leb_le; lia.
Qed.

(** C6, amended.  The coordinator reads the clock again after the decode
    call.  When the decode call of a coordinator iteration left its loop
    because the deadline was reached, and this next reading of the clock is
    not earlier than the reading that stopped the decode loop, the
    iteration returns false at once, and so does
    process_concurrent_changes; the buffer is as decoding left it, the
    table is untouched, and neither check_catalog_changes nor any call of a
    replay pass was made. *)
Theorem C6_deadline_in_decode_returns_incomplete
  startptr end_of_wal key nkeys must_complete wal w w1 done startptr' wal' w2 :
  timeval_le (gettimeofday (Nat.pred (clock_reads w2)))
             (gettimeofday (clock_reads w2)) ->
  CHECK_FOR_INTERRUPTS w = OK tt w1 ->
  decode_concurrent_changes startptr end_of_wal must_complete wal w1
  = OK (done, (startptr', wal', EXIT_BREAK)) w2 ->
  coordinator_iteration startptr end_of_wal key nkeys must_complete wal w
  = OK (RETURN_false startptr' wal') (tick_clock w2)
  /\ (forall fuel,
        process_concurrent_changes (S fuel) startptr end_of_wal key nkeys
                                   must_complete wal w
        = Some (OK (false, startptr', wal') (tick_clock w2)))
  /\ dstate (tick_clock w2) = dstate w2
  /\ rel_dst (tick_clock w2) = rel_dst w
  /\ catalog_checks (tick_clock w2) = catalog_checks w
  /\ filter is_replay_call (calls_since w (tick_clock w2)) = [].
Proof.
  intros Mono I E.
  assert (It : coordinator_iteration startptr end_of_wal key nkeys must_complete wal w
               = OK (RETURN_false startptr' wal') (tick_clock w2)).
  { unfold coordinator_iteration. unfold bind at 1. rewrite I.
    unfold bind at 1. rewrite E.
    apply decode_concurrent_changes_OK in E.
    destruct E as (wl & L & _ & _ & _ & Ck & _).
    apply decode_loop_OK in L. destruct L as [_ L].
    destruct L as [(_ & _ & _ & X & _)|(_ & _ & _ & _ & _ & _ & _ & _ & H)];
      [discriminate X|].
    destruct H as (utmost & n & -> & Cn & DL).
    unfold bind at 1. rewrite processing_time_elapsed_spec.
    rewrite (deadline_reached_later (gettimeofday n) _ utmost DL).
    - reflexivity.
    - rewrite Ck, Cn in Mono |- *. exact Mono. }
  split; [exact It|]. split.
  { intros fuel. simpl. rewrite It. reflexivity. }
  unfold CHECK_FOR_INTERRUPTS in I.
  destruct (InterruptPending _); [discriminate|]. inversion I; subst w1.
  apply decode_concurrent_changes_OK in E.
  destruct E as (wl & L & _ & _ & _ & _ & R & _ & Cc & _ & new & N & Fn).
  apply decode_loop_OK in L. destruct L as [(F1 & F2 & _ & _ & F5 & _) _].
  simpl in F1, F2, F5.
  repeat split.
  - simpl. congruence.
  - simpl. congruence.
  - rewrite (calls_since_app w (tick_clock w2) new); [exact Fn|].
    simpl. rewrite N, F2. reflexivity.
Qed.

End ThresholdFacts.

(** ** What every outcome of decoding and replay preserves *)

Section InvariantFacts.
Context `{PG : Postgres}.

Lemma grows_paired_same w w' : dstate w' = dstate w -> grows_paired w w'.
Proof. intros E. exists []. rewrite append_changes_nil. auto. Qed.

Lemma grows_paired_trans a b c :
  grows_paired a b -> grows_paired b c -> grows_paired a c.
Proof.
  intros (n1 & E1 & P1) (n2 & E2 & P2). exists (n1 ++ n2). split.
  - rewrite E2, E1, append_changes_app. reflexivity.
  - rewrite kinds_of_app. apply well_paired_app; assumption.
Qed.

Lemma decode_loop_grows end_of_wal must wal :
  forall startptr w,
  grows_paired w (world_of (decode_loop end_of_wal must wal startptr w)).
Proof.
  induction wal as [|record wal0 IH]; intros startptr w; simpl.
  - destruct (_ && _); apply grows_paired_same; reflexivity.
  - destruct (_ && _); [|apply grows_paired_same; reflexivity].
    unfold bind at 1.
    assert (R : forall r : result unit,
      grows_paired w (world_of r) ->
      grows_paired w
        (world_of
           match r with
           | OK a w' =>
               bind (processing_time_elapsed must)
                 (fun elapsed =>
                    if elapsed then ret (InvalidXLogRecPtr, wal0, EXIT_BREAK)
                    else bind CHECK_FOR_INTERRUPTS
                           (fun _ => decode_loop end_of_wal must wal0 InvalidXLogRecPtr))
                 w'
           | Fail f w' => Fail f w'
           end)).
    { intros [[] w2|f w2] G; cbn [world_of] in *; [|exact G].
      unfold bind at 1. rewrite processing_time_elapsed_spec.
      assert (K : forall w3, dstate w3 = dstate w2 ->
                grows_paired w
                  (world_of (bind CHECK_FOR_INTERRUPTS
                     (fun _ => decode_loop end_of_wal must wal0 InvalidXLogRecPtr) w3))).
      { intros w3 D3. unfold bind, CHECK_FOR_INTERRUPTS.
        destruct (InterruptPending _); cbn [world_of].
        - eapply grows_paired_trans; [exact G|].
          apply grows_paired_same. exact D3.
        - eapply grows_paired_trans; [exact G|].
          eapply grows_paired_trans; [|apply IH].
          apply grows_paired_same. exact D3. }
      destruct must as [utmost|].
      - destruct (deadline_reached _ utmost).
        + unfold ret. cbn [world_of]. eapply grows_paired_trans; [exact G|].
          apply grows_paired_same. reflexivity.
        + apply K. reflexivity.
      - apply K. reflexivity. }
    apply R.
    destruct (xl_read record) as [errm| |changes].
    + apply grows_paired_same. reflexivity.
    + apply grows_paired_same. reflexivity.
    + destruct (LogicalDecodingProcessRecord_any changes
                  (set_EndRecPtr w (xl_end record))) as (new & E & P).
      exists new. rewrite E. split; [reflexivity|exact P].
Qed.

Lemma decode_concurrent_changes_grows startptr end_of_wal must wal w :
  grows_paired w
    (world_of (decode_concurrent_changes startptr end_of_wal must wal w)).
Proof.
  pose proof (decode_loop_grows end_of_wal must wal startptr
                (set_CurrentResourceOwner w (resowner (dstate w)))) as G.
  unfold decode_concurrent_changes, PG_TRY_rethrow, bind, get, modify, ret.
  destruct (decode_loop _ _ _ _ _) as [out wl|[] wl]; cbn [world_of] in *;
    (eapply grows_paired_trans; [exact G|]);
    apply grows_paired_same; try reflexivity.
  destruct (negb _); reflexivity.
Qed.

Lemma apply_loop_dstate key nkeys records l w :
  dstate (world_of (apply_loop key nkeys records l w)) = dstate w.
Proof.
  revert l w. induction records as [|e rest IH]; intros l w; simpl.
  - reflexivity.
  - unfold bind.
    pose proof (apply_change_frame key nkeys l e w) as F. cbv zeta in F.
    destruct (apply_change key nkeys l e w) as [l1 w1|f w1];
      cbn [world_of] in *; destruct F as [F _].
    + rewrite IH. exact F.
    + exact F.
Qed.

(* nchanges and data_size keep describing the tuplestore. *)
Lemma buffer_consistent_decode startptr end_of_wal must wal w :
  buffer_consistent (dstate w) ->
  buffer_consistent
    (dstate (world_of (decode_concurrent_changes startptr end_of_wal must wal w))).
Proof.
  intros C.
  destruct (decode_concurrent_changes_grows startptr end_of_wal must wal w)
    as (new & -> & _).
  apply buffer_consistent_append. exact C.
Qed.

Lemma buffer_consistent_apply key nkeys w :
  buffer_consistent (dstate w) ->
  buffer_consistent (dstate (world_of (apply_concurrent_changes key nkeys w))).
Proof.
  intros C.
  destruct (Z.eq_dec (nchanges (dstate w)) 0) as [Z0|NZ].
  - unfold apply_concurrent_changes, bind, get. rewrite Z0. exact C.
  - rewrite (apply_concurrent_changes_run _ _ _ NZ).
    pose proof (apply_loop_dstate key nkeys (tstore (dstate w)) locals0 (pushed w)) as D.
    destruct (apply_loop _ _ _ _ _) as [l w1|f w1]; cbn [world_of] in *.
    + rewrite dstate_finished. split; reflexivity.
    + rewrite D. exact C.
Qed.

End InvariantFacts.

(** ** UPDATE_OLD and UPDATE_NEW travel together *)

Section PairedBuffer.
Context `{PG : Postgres}.

#[local] Arguments get_changed_tuple : simpl never.

(** C10.  The capture of an update stores UPDATE_OLD and UPDATE_NEW back to
    back, or UPDATE_NEW alone when the update carries no old tuple; nothing
    a decode call adds to the buffer, however the call ends, leaves an
    UPDATE_OLD without an UPDATE_NEW right after it.  So in the replay of
    such a buffer no old tuple is pending when an UPDATE_OLD is reached, the
    change after it is an UPDATE_NEW, that change looks its row up by the
    old tuple, and once it is applied no old tuple is pending. *)
Theorem C10_update_old_directly_followed_by_update_new :
  (forall rd_id old new w,
     rd_id = relid (dstate w) ->
     plugin_change rd_id
       (mk_rbchange REORDER_BUFFER_CHANGE_UPDATE (Some old) (Some new)) w
     = OK tt (set_dstate w
                (append_changes (dstate w)
                   [stored_change PG_SQUEEZE_CHANGE_UPDATE_OLD old;
                    stored_change PG_SQUEEZE_CHANGE_UPDATE_NEW new]))
     /\ plugin_change rd_id
          (mk_rbchange REORDER_BUFFER_CHANGE_UPDATE None (Some new)) w
        = OK tt (set_dstate w
                   (append_changes (dstate w)
                      [stored_change PG_SQUEEZE_CHANGE_UPDATE_NEW new])))
  /\ (forall startptr end_of_wal must_complete wal w,
       well_paired (kinds_of (tstore (dstate w))) = true ->
       well_paired
         (kinds_of
            (tstore
               (dstate
                  (world_of
                     (decode_concurrent_changes startptr end_of_wal
                        must_complete wal w)))))
       = true)
  /\ (forall key nkeys pre e post w0 l1 w1,
       well_paired (kinds_of (pre ++ e :: post)) = true ->
       kind (vl_dat e) = PG_SQUEEZE_CHANGE_UPDATE_OLD ->
       apply_loop key nkeys pre locals0 w0 = OK l1 w1 ->
       tup_old l1 = None
       /\ exists e' post',
            post = e' :: post'
            /\ kind (vl_dat e') = PG_SQUEEZE_CHANGE_UPDATE_NEW
            /\ forall l2 w2,
                 apply_change key nkeys l1 e w1 = OK l2 w2 ->
                 tup_old l2 = Some (get_changed_tuple (vl_dat e))
                 /\ key_tuple_of l2 e' = get_changed_tuple (vl_dat e)
                 /\ forall l3 w3,
                      apply_change key nkeys l2 e' w2 = OK l3 w3 ->
                      tup_old l3 = None).
Proof.
  split; [|split].
  - intros rd_id old new w ->. unfold plugin_change.
    rewrite Z.eqb_refl. cbn [negb action oldtuple newtuple]. unfold bind, ret.
    rewrite !store_change_spec. cbn [dstate set_dstate].
    rewrite set_dstate_twice, append_changes_app. split; reflexivity.
  - intros startptr end_of_wal must_complete wal w W.
    destruct (decode_concurrent_changes_grows startptr end_of_wal
                must_complete wal w) as (new & E & P).
    rewrite E. cbn [tstore append_changes].
    rewrite kinds_of_app. apply well_paired_app; assumption.
  - intros key nkeys pre e post w0 l1 w1 W K Pre.
    rewrite kinds_of_app in W. simpl in W. rewrite K in W.
    apply apply_loop_pending in Pre. simpl in Pre.
    destruct (well_paired_split _ _ W) as [[P W']|[rest' R]]; [|discriminate R].
    rewrite P in Pre. split.
    { destruct (tup_old l1); [discriminate Pre | reflexivity]. }
    simpl in W'. destruct post as [|e' post']; [discriminate|].
    simpl in W'. destruct (kind (vl_dat e')) eqn:K'; try discriminate.
    exists e', post'. split; [reflexivity|]. split; [exact K'|].
    intros l2 w2 E2.
    pose proof (apply_change_tup_old _ _ _ _ _ _ _ E2) as T2.
    rewrite K in T2. split; [exact T2|]. split.
    + unfold key_tuple_of. rewrite K', T2. reflexivity.
    + intros l3 w3 E3.
      rewrite (apply_change_tup_old _ _ _ _ _ _ _ E3), K'. reflexivity.
Qed.

End PairedBuffer.

(** ** The decode loop does not wait when the WAL reaches the end bound *)

Section Progress.
Context `{PG : Postgres}.

Lemma plugin_change_never_waits rd_id change w w' :
  plugin_change rd_id change w <> Fail WAL_WAIT w'.
Proof.
  unfold plugin_change, store_change, bind, ret, Assert.
  repeat split_match; discriminate.
Qed.

Lemma LogicalDecodingProcessRecord_never_waits changes w w' :
  LogicalDecodingProcessRecord changes w <> Fail WAL_WAIT w'.
Proof.
  revert w. induction changes as [|[rd_id change] rest IH]; intros w; simpl.
  - discriminate.
  - unfold bind.
    pose proof (plugin_change_never_waits rd_id change w) as N.
    destruct (plugin_change rd_id change w) as [[] w1|f w1].
    + apply IH.
    + intros E. inversion E; subst. apply (N w'). reflexivity.
Qed.

Lemma LogicalDecodingProcessRecord_EndRecPtr changes w :
  EndRecPtr (world_of (LogicalDecodingProcessRecord changes w)) = EndRecPtr w.
Proof.
  destruct (LogicalDecodingProcessRecord_any changes w) as (new & E & _).
  rewrite E. reflexivity.
Qed.

Lemma decode_loop_never_waits end_of_wal must wal :
  forall startptr w w',
  Exists (fun r => end_of_wal <= xl_end r /\ xl_end r <> InvalidXLogRecPtr) wal ->
  decode_loop end_of_wal must wal startptr w <> Fail WAL_WAIT w'.
Proof.
  induction wal as [|record wal0 IH]; intros startptr w w' Cover.
  - inversion Cover.
  - simpl. destruct (_ && _); [|discriminate].
    unfold bind at 1.
    match goal with
    | |- context [match ?m (set_EndRecPtr w (xl_end record)) with _ => _ end] =>
        assert (N : forall v, m (set_EndRecPtr w (xl_end record)) <> Fail WAL_WAIT v);
        [|assert (P : EndRecPtr (world_of (m (set_EndRecPtr w (xl_end record))))
                      = xl_end record);
          [|destruct (m (set_EndRecPtr w (xl_end record))) as [[] w2|f w2]]]
    end.
    + intros v. destruct (xl_read record); try discriminate.
      apply LogicalDecodingProcessRecord_never_waits.
    + destruct (xl_read record); try reflexivity.
      apply LogicalDecodingProcessRecord_EndRecPtr.
    + cbn [world_of] in P.
      unfold bind at 1. rewrite processing_time_elapsed_spec.
      assert (K : forall w3, EndRecPtr w3 = xl_end record ->
                bind CHECK_FOR_INTERRUPTS
                  (fun _ => decode_loop end_of_wal must wal0 InvalidXLogRecPtr) w3
                <> Fail WAL_WAIT w').
      { intros w3 E3. unfold bind, CHECK_FOR_INTERRUPTS.
        destruct (InterruptPending _); [discriminate|].
        inversion Cover as [r l [Ge Nz]|r l Rest]; subst.
        - destruct wal0; simpl; unfold more_to_read; simpl; rewrite E3;
            destruct (Z.eqb_spec (xl_end record) InvalidXLogRecPtr); try contradiction;
            destruct (Z.ltb_spec (xl_end record) end_of_wal); try lia;
            simpl; discriminate.
        - apply IH. exact Rest. }
      destruct must as [utmost|].
      * destruct (deadline_reached _ utmost); [discriminate|].
        apply K. exact P.
      * apply K. exact P.
    + intros E. inversion E; subst. apply (N w'). reflexivity.
Qed.

End Progress.

(** ** The theorems at work on the small table *)

Section ChecksWithAsserts.
#[local] Existing Instance Scenario.with_asserts.

(** C1, witness: the UPDATE_NEW of row_Y' is replayed with row_Y pending;
    the scan looks for row_Y's key. *)
Lemma C1_witness :
  let e := Scenario.ev PG_SQUEEZE_CHANGE_UPDATE_NEW Scenario.row_Y' in
  let r := apply_change [1] 1 Scenario.locals_at_update e Scenario.world_at_update in
  let scans :=
    filter is_index_scan (calls_since Scenario.world_at_update (world_of r)) in
  (scans = []
   \/ exists curcid,
        scans = [call_index_scan curcid
                   (key_arguments (key_tuple_of Scenario.locals_at_update e)
                                  (scan_entries [1] 1))])
  /\ (forall l' w', r = OK l' w' -> scans <> [] /\ tup_old l' = None).
Proof.
  exact (C1_lookup_key [1] 1 Scenario.locals_at_update
           (Scenario.ev PG_SQUEEZE_CHANGE_UPDATE_NEW Scenario.row_Y')
           Scenario.world_at_update (or_introl eq_refl)).
Defined.

(** C2, witness: the replay of the six buffered changes. *)
Lemma C2_witness :
  let w' := world_of (apply_concurrent_changes [1] 1
                        (Scenario.world true Scenario.buffer)) in
  tstore (dstate w') = [] /\ nchanges (dstate w') = 0 /\ data_size (dstate w') = 0.
Proof.
  cbv zeta.
  apply (C2_buffer_empty_after_replay [1] 1 (Scenario.world true Scenario.buffer)).
  - split; vm_compute; reflexivity.
  - vm_compute. reflexivity.
Defined.





(* A header of five bytes over a payload of two: the copy runs on into
   the memory behind the record. *)
Lemma long_header_reads_on :
  let change := mk_change (mk_tuple 5 (mk_ctid 0 0) 16384 [])
                          PG_SQUEEZE_CHANGE_INSERT [x02; x15] in
  t_len (get_changed_tuple change) = 5
  /\ t_data (get_changed_tuple change) = [x02; x15; x7f; x7f; x7f].
Proof.
  split; reflexivity.
Qed.

(** C5, witness: with assertion checking the second UPDATE_OLD traps. *)
Lemma C5_witness :
  apply_change [1] 1 (mk_locals (Some Scenario.row_Y) false 0 0 0)
    (Scenario.ev PG_SQUEEZE_CHANGE_UPDATE_OLD Scenario.row_Z)
    (Scenario.world true [])
  = Fail (ASSERT_TRAP "tup_old == NULL") (Scenario.world true []).
Proof.
  exact (C5_second_update_old [1] 1 (mk_locals (Some Scenario.row_Y) false 0 0 0)
           (Scenario.ev PG_SQUEEZE_CHANGE_UPDATE_OLD Scenario.row_Z)
           (Scenario.world true []) Scenario.row_Y eq_refl eq_refl).
Defined.

(** C6, witness: the deadline has passed when the first record is decoded;
    the coordinator returns false with the three inserts still buffered. *)
Lemma C6_witness :
  let w := Scenario.world true [] in
  let w2 := world_of (decode_concurrent_changes 1 300 Scenario.deadline
                        Scenario.wal (tick_interrupts w)) in
  coordinator_iteration 1 300 [1] 1 Scenario.deadline Scenario.wal w
  = OK (RETURN_false 0 (tl Scenario.wal)) (tick_clock w2)
  /\ (forall fuel,
        process_concurrent_changes (S fuel) 1 300 [1] 1 Scenario.deadline
                                   Scenario.wal w
        = Some (OK (false, 0, tl Scenario.wal) (tick_clock w2)))
  /\ dstate (tick_clock w2) = dstate w2
  /\ rel_dst (tick_clock w2) = rel_dst w
  /\ catalog_checks (tick_clock w2) = catalog_checks w
  /\ filter is_replay_call (calls_since w (tick_clock w2)) = [].
Proof.
  cbv zeta.
  apply (C6_deadline_in_decode_returns_incomplete 1 300 [1] 1 Scenario.deadline
           Scenario.wal (Scenario.world true [])
           (tick_interrupts (Scenario.world true [])) false).
  - vm_compute. left. reflexivity.
  - vm_compute. reflexivity.
  - vm_compute. reflexivity.
Defined.

(** C7, witness: decoding the three records from an empty buffer. *)
Lemma C7_witness :
  let w := Scenario.world true [] in
  let w' := world_of (decode_concurrent_changes 1 300 None Scenario.wal w) in
  exists before last,
    tstore (dstate w') = before ++ last
    /\ ((@nil XLogRecord = Scenario.wal /\ last = [])
        \/ exists consumed record,
             Scenario.wal = consumed ++ record :: []
             /\ last = captured_read (relid (dstate w)) (xl_read record))
    /\ to_Size (sum_sizes before) < maintenance_wm_bytes
    /\ data_size (dstate w') = to_Size (sum_sizes before + sum_sizes last)
    /\ data_size (dstate w') < maintenance_wm_bytes + sum_sizes last
    /\ (sum_sizes (before ++ last) < Size_modulus ->
        (forall r, In r (before ++ last) ->
                   maintenance_wm_bytes < 2 * record_size r) ->
        (List.length before <= 1)%nat
        /\ nchanges (dstate w') <= 1 + Z.of_nat (List.length last)).
Proof.
  cbv zeta.
  apply (C7_threshold_checked_once_per_record 1 300 None Scenario.wal
           (Scenario.world true []) true 0 [] EXIT_CONDITION).
  - split; vm_compute; reflexivity.
  - vm_compute. reflexivity.
  - vm_compute. reflexivity.
Defined.

(** C7, counterexample: with maintenance_work_mem = 1024 kB and records
    of 600040 bytes each, an insert and then an update with its old tuple
    leave three records in the buffer, 751544 bytes over the threshold,
    which is more than the 600040 bytes of the last record; one WAL record
    is still unread. *)
Lemma C7_counterexample :
  let r := decode_concurrent_changes 1 300 None Scenario.big_wal
             (Scenario.world true []) in
  let buffer := tstore (dstate (world_of r)) in
  maintenance_wm_bytes = 1048576
  /\ map record_size buffer = [600040; 600040; 600040]
  /\ nchanges (dstate (world_of r)) = 3
  /\ data_size (dstate (world_of r)) - maintenance_wm_bytes = 751544
  /\ match r with
     | OK (done, (_, unread, _)) _ => done = false /\ List.length unread = 1%nat
     | Fail _ _ => False
     end.
Proof.
  vm_compute. repeat split.
Qed.

(** C8, witness: a DELETE of row_Z on the empty table; the INSERT that
    follows it in the buffer is not applied. *)
Lemma C8_witness :
  let w := Scenario.world true
             [Scenario.ev PG_SQUEEZE_CHANGE_DELETE Scenario.row_Z;
              Scenario.ev PG_SQUEEZE_CHANGE_INSERT Scenario.row_X] in
  exists wf,
    apply_concurrent_changes [1] 1 w
    = Fail (ELOG_ERROR "Failed to find target tuple") wf
    /\ rel_dst wf = rel_dst (pushed w)
    /\ currentCommandId wf = currentCommandId (pushed w)
    /\ dstate wf = dstate w
    /\ filter is_table_write (calls_since (pushed w) wf) = [].
Proof.
  cbv zeta.
  apply (C8_lookup_miss_is_fatal [1] 1 _ []
           (Scenario.ev PG_SQUEEZE_CHANGE_DELETE Scenario.row_Z)
           [Scenario.ev PG_SQUEEZE_CHANGE_INSERT Scenario.row_X]
           locals0).
  - reflexivity.
  - vm_compute. discriminate.
  - reflexivity.
  - right. reflexivity.
  - intros _. split; [vm_compute; reflexivity | reflexivity].
  - vm_compute. reflexivity.
Defined.

(** C9, witness: the replay of the six buffered changes advances the
    counter five times. *)
Lemma C9_witness :
  let w := Scenario.world true Scenario.buffer in
  let w' := world_of (apply_concurrent_changes [1] 1 w) in
  currentCommandId w' = currentCommandId w + 5
  /\ List.length (filter is_CommandCounterIncrement (calls_since w w')) = 5%nat.
Proof.
  cbv zeta.
  destruct (C9_counter_advanced_once_per_applied_change [1] 1
              (Scenario.world true Scenario.buffer)
              (world_of (apply_concurrent_changes [1] 1
                           (Scenario.world true Scenario.buffer))))
    as (H1 & H2 & _).
  - split; vm_compute; reflexivity.
  - vm_compute. reflexivity.
  - split; [exact H1 | exact H2].
Defined.

(** C10, witness: in the buffer of the six changes the UPDATE_OLD of row_Y
    is reached after the three inserts with nothing pending, and the
    UPDATE_NEW after it is keyed by row_Y. *)
Lemma C10_witness :
  let w0 := pushed (Scenario.world true Scenario.buffer) in
  let e := Scenario.ev PG_SQUEEZE_CHANGE_UPDATE_OLD Scenario.row_Y in
  let post := [Scenario.ev PG_SQUEEZE_CHANGE_UPDATE_NEW Scenario.row_Y';
               Scenario.ev PG_SQUEEZE_CHANGE_DELETE Scenario.row_Z] in
  let l1 := mk_locals None true 3 0 0 in
  let w1 := world_of (apply_loop [1] 1 (firstn 3 Scenario.buffer) locals0 w0) in
  tup_old l1 = None
  /\ exists e' post',
       post = e' :: post'
       /\ kind (vl_dat e') = PG_SQUEEZE_CHANGE_UPDATE_NEW
       /\ forall l2 w2,
            apply_change [1] 1 l1 e w1 = OK l2 w2 ->
            tup_old l2 = Some (get_changed_tuple (vl_dat e))
            /\ key_tuple_of l2 e' = get_changed_tuple (vl_dat e)
            /\ forall l3 w3,
                 apply_change [1] 1 l2 e' w2 = OK l3 w3 -> tup_old l3 = None.
Proof.
  cbv zeta.
  apply (proj2 (proj2 C10_update_old_directly_followed_by_update_new)
           [1] 1 (firstn 3 Scenario.buffer)
           (Scenario.ev PG_SQUEEZE_CHANGE_UPDATE_OLD Scenario.row_Y)
           [Scenario.ev PG_SQUEEZE_CHANGE_UPDATE_NEW Scenario.row_Y';
            Scenario.ev PG_SQUEEZE_CHANGE_DELETE Scenario.row_Z]
           (pushed (Scenario.world true Scenario.buffer))).
  - vm_compute. reflexivity.
  - reflexivity.
  - vm_compute. reflexivity.
Defined.

End ChecksWithAsserts.

Section ChecksWithoutAsserts.
#[local] Existing Instance Scenario.without_asserts.

(** C5, counterexample: in a build without assertion checking the replay of
    UPDATE_OLD row_Y, UPDATE_OLD row_Z returns without any error; the second
    change is consumed with row_Y pending and leaves row_Z pending. *)
Lemma C5_counterexample :
  let w := Scenario.world false
             [Scenario.ev PG_SQUEEZE_CHANGE_UPDATE_OLD Scenario.row_Y;
              Scenario.ev PG_SQUEEZE_CHANGE_UPDATE_OLD Scenario.row_Z] in
  let l1 := mk_locals (Some Scenario.row_Y) false 0 0 0 in
  let l2 := mk_locals (Some Scenario.row_Z) false 0 0 0 in
  apply_loop [1] 1 [Scenario.ev PG_SQUEEZE_CHANGE_UPDATE_OLD Scenario.row_Y]
             locals0 (pushed w) = OK l1 (pushed w)
  /\ apply_change [1] 1 l1
       (Scenario.ev PG_SQUEEZE_CHANGE_UPDATE_OLD Scenario.row_Z) (pushed w)
     = OK l2 (pushed w)
  /\ apply_concurrent_changes [1] 1 w = OK tt (finished l2 (pushed w)).
Proof.
  cbv zeta. repeat split; vm_compute; reflexivity.
Qed.

End ChecksWithoutAsserts.

Section ChecksClockSetBack.
#[local] Existing Instance Corner.pg.

(** C6, counterexample: the clock reads 5 s 10 us, the deadline, when the
    first record has been decoded, and 5 s 9 us from then on.  The decode
    call of the first iteration leaves its loop by the deadline break,
    with two records unread; the coordinator's own reading is before the
    deadline, so the iteration checks the catalog and replays the three
    inserts instead of returning, and process_concurrent_changes goes on to
    read the rest and returns true. *)
Lemma C6_counterexample :
  let w := Corner.world in
  let decoded := decode_concurrent_changes 1 300 Corner.deadline Scenario.wal
                   (tick_interrupts w) in
  let it := coordinator_iteration 1 300 [1] 1 Corner.deadline Scenario.wal w in
  let run := process_concurrent_changes 5 1 300 [1] 1 Corner.deadline
               Scenario.wal w in
  match decoded with
  | OK (done, (_, unread, how)) _ =>
      done = false /\ how = EXIT_BREAK /\ List.length unread = 2%nat
  | Fail _ _ => False
  end
  /\ match it with
     | OK (NEXT done _ unread) w' =>
         done = false /\ List.length unread = 2%nat
         /\ catalog_checks w' = 1%nat
         /\ hd_error (filter is_replay_call (calls_since w w'))
            = Some call_check_catalog_changes
         /\ List.length (filter is_table_write (calls_since w w')) = 6%nat
         /\ Toy.contents (currentCommandId w') (rel_dst w')
            = [[x01; x0a]; [x02; x14]; [x03; x1e]]
     | _ => False
     end
  /\ match run with
     | Some (OK (done, _, unread) w') =>
         done = true /\ unread = []
         /\ Toy.contents (currentCommandId w') (rel_dst w')
            = [[x01; x0a]; [x02; x15]]
     | _ => False
     end.
Proof.
  vm_compute. repeat split.
Qed.

End ChecksClockSetBack.

(** ** get_index_insert_state *)

Section IndexState.

Lemma open_indexes_spec ident_index_id opened acc :
  let result := fold_left (open_index ident_index_id) opened acc in
  rri result
  = rri acc ++ map (fun i => (fst i, no_exclusion_check (snd i))) opened
  /\ match ident_index result with
     | None =>
         ident_index acc = None
         /\ forall i, In i opened -> rd_id (fst i) <> ident_index_id
     | Some ind_rel =>
         ident_index acc = Some ind_rel
         \/ (rd_id ind_rel = ident_index_id /\ In ind_rel (map fst opened))
     end.
Proof.
  revert acc. induction opened as [|[ind_rel ii] rest IH]; intros acc;
    cbv zeta; cbn [fold_left].
  - simpl. rewrite app_nil_r. split; [reflexivity|].
    destruct (ident_index acc); [left; reflexivity|]. split; [reflexivity|].
    intros i [].
  - destruct (IH (open_index ident_index_id acc (ind_rel, ii))) as [R I].
    split.
    + rewrite R. simpl. rewrite <- app_assoc. reflexivity.
    + destruct (ident_index (fold_left _ rest _)) as [found|]; simpl in I |- *.
      * destruct (Z.eqb_spec (rd_id ind_rel) ident_index_id) as [E|N].
        -- right. destruct I as [I|[I1 I2]].
           ++ inversion I; subst found. auto.
           ++ auto.
        -- destruct I as [I|[I1 I2]]; auto.
      * destruct I as [I1 I2].
        destruct (Z.eqb_spec (rd_id ind_rel) ident_index_id) as [E|N];
          [discriminate|].
        split; [exact I1|]. intros i [<-|I]; [exact N|]. apply I2. exact I.
Qed.

(** X1. get_index_insert_state either raises "Failed to open identity index",
    and then no opened index has the id asked for, or returns every opened
    index in order with its three exclusion arrays cleared and, as the
    identity index, an opened index whose rd_id is the id asked for. *)
Theorem get_index_insert_state_finds_identity_index opened ident_index_id :
  match get_index_insert_state opened ident_index_id with
  | Raise msg =>
      msg = "Failed to open identity index"%string
      /\ forall i, In i opened -> rd_id (fst i) <> ident_index_id
  | Done result =>
      rri result = map (fun i => (fst i, no_exclusion_check (snd i))) opened
      /\ exists ind_rel,
           ident_index result = Some ind_rel
           /\ rd_id ind_rel = ident_index_id
           /\ In ind_rel (map fst opened)
  end.
Proof.
  unfold get_index_insert_state.
  destruct (open_indexes_spec ident_index_id opened (mk_iistate [] None))
    as [R I]. simpl in R, I.
  destruct (ident_index (fold_left _ opened _)) as [found|] eqn:F.
  - split; [exact R|]. exists found. split; [exact F|].
    destruct I as [I|I]; [discriminate I | exact I].
  - split; [reflexivity|]. apply I.
Qed.

End IndexState.

(** ** The deadline test and the change callback *)

Section CaptureMore.
Context `{PG : Postgres}.

Lemma deadline_reached_iff now utmost :
  deadline_reached now utmost = true <-> timeval_le utmost now.
Proof.
  unfold deadline_reached, timeval_le. rewrite Z.gtb_ltb, Z.geb_leb.
  destruct (Z.ltb_spec (tv_sec now) (tv_sec utmost)),
    (Z.ltb_spec (tv_sec utmost) (tv_sec now)),
    (Z.leb_spec (tv_usec utmost) (tv_usec now));
    split; intros; try lia; try discriminate; reflexivity.
Qed.

(** X2. processing_time_elapsed: without a deadline the answer is false and the
    clock is not read; with a deadline the clock is read once and the answer
    is true exactly when the deadline is not later than the time read,
    seconds compared first and microseconds on equal seconds. *)
Theorem processing_time_elapsed_compares_with_deadline must_complete w :
  match must_complete with
  | None => processing_time_elapsed None w = OK false w
  | Some utmost =>
      exists elapsed,
        processing_time_elapsed (Some utmost) w = OK elapsed (tick_clock w)
        /\ (elapsed = true <-> timeval_le utmost (gettimeofday (clock_reads w)))
  end.
Proof.
  destruct must_complete as [utmost|]; [|reflexivity].
  eexists. split.
  - apply (processing_time_elapsed_spec (Some utmost)).
  - apply deadline_reached_iff.
Qed.

(** X3. plugin_change checks a change before it stores anything.  A change
    of another relation is skipped, the state untouched.  For the squeezed
    relation an INSERT or an UPDATE without new tuple and a DELETE without
    old tuple raise "Incomplete insert info.", "Incomplete update info." and
    "Incomplete delete info."; and when one of these three errors is raised
    the state is the one at the call: an UPDATE that lacks its new tuple has
    not stored its old tuple. *)
Theorem plugin_change_rejects_before_storing rd_id change w :
  (rd_id <> relid (dstate w) -> plugin_change rd_id change w = OK tt w)
  /\ (rd_id = relid (dstate w) ->
      newtuple change = None ->
      (action change = REORDER_BUFFER_CHANGE_INSERT ->
       plugin_change rd_id change w = Fail (ELOG_ERROR "Incomplete insert info.") w)
      /\ (action change = REORDER_BUFFER_CHANGE_UPDATE ->
          plugin_change rd_id change w
          = Fail (ELOG_ERROR "Incomplete update info.") w))
  /\ (rd_id = relid (dstate w) ->
      oldtuple change = None ->
      action change = REORDER_BUFFER_CHANGE_DELETE ->
      plugin_change rd_id change w = Fail (ELOG_ERROR "Incomplete delete info.") w)
  /\ (forall msg w',
        In msg ["Incomplete insert info."; "Incomplete update info.";
                "Incomplete delete info."]%string ->
        plugin_change rd_id change w = Fail (ELOG_ERROR msg) w' ->
        w' = w).
Proof.
  unfold plugin_change. split; [|split; [|split]].
  - intros N. apply Z.eqb_neq in N. rewrite N. reflexivity.
  - intros -> N. rewrite Z.eqb_refl.
    split; intros A; rewrite A, N; reflexivity.
  - intros -> O A. rewrite Z.eqb_refl, A, O. reflexivity.
  - intros msg w' _. destruct (negb _); [discriminate|].
    destruct (action change), (oldtuple change), (newtuple change);
      unfold bind, ret, Assert, store_change; simpl;
      try discriminate; try (intros E; inversion E; reflexivity).
    all: destruct USE_ASSERT_CHECKING; simpl; try discriminate;
      intros E; inversion E; reflexivity.
Qed.

End CaptureMore.

(** ** What a decoding pass leaves behind *)

Section DecodeMore.
Context `{PG : Postgres}.

(* The fields decoding never writes, whatever the outcome. *)
Lemma read_record_frame (record : XLogRecord) (w : World) :
  let r := (match xl_read record with
            | XLOG_ERRM errm => elog_ERROR errm
            | XLOG_NULL => ret tt
            | XLOG_RECORD changes => LogicalDecodingProcessRecord changes
            end) (set_EndRecPtr w (xl_end record)) in
  decode_frame w (world_of r)
  /\ clock_reads (world_of r) = clock_reads w
  /\ EndRecPtr (world_of r) = xl_end record
  /\ resowner (dstate (world_of r)) = resowner (dstate w).
Proof.
  cbv zeta. destruct (xl_read record) as [errm| |changes].
  - repeat split.
  - repeat split.
  - destruct (LogicalDecodingProcessRecord_any changes
                (set_EndRecPtr w (xl_end record))) as (new & E & _).
    rewrite E. repeat split.
Qed.

Lemma decode_loop_frame end_of_wal must wal :
  forall startptr w r,
  r = decode_loop end_of_wal must wal startptr w ->
  decode_frame w (world_of r)
  /\ resowner (dstate (world_of r)) = resowner (dstate w)
  /\ (must = None -> clock_reads (world_of r) = clock_reads w).
Proof.
  induction wal as [|record wal0 IH]; intros startptr w r Er; simpl in Er.
  - destruct (_ && _); subst r; repeat split.
  - destruct (_ && _); [|subst r; repeat split].
    unfold bind at 1 in Er.
    pose proof (read_record_frame record w) as F. cbv zeta in F.
    match type of Er with
    | context [match ?m (set_EndRecPtr w (xl_end record)) with _ => _ end] =>
        destruct (m (set_EndRecPtr w (xl_end record))) as [[] w2|f w2]
    end; cbn [world_of] in F; destruct F as (F & Ck & _ & Ro).
    2: { subst r. split; [exact F|]. split; [exact Ro|]. intros _. exact Ck. }
    unfold bind at 1 in Er. rewrite processing_time_elapsed_spec in Er.
    assert (K : forall w3,
      decode_frame w w3 -> resowner (dstate w3) = resowner (dstate w) ->
      (must = None -> clock_reads w3 = clock_reads w) ->
      r = bind CHECK_FOR_INTERRUPTS
            (fun _ => decode_loop end_of_wal must wal0 InvalidXLogRecPtr) w3 ->
      decode_frame w (world_of r)
      /\ resowner (dstate (world_of r)) = resowner (dstate w)
      /\ (must = None -> clock_reads (world_of r) = clock_reads w)).
    { intros w3 F3 R3 C3 E3. clear Er. unfold bind, CHECK_FOR_INTERRUPTS in E3.
      destruct (InterruptPending _).
      - subst r. cbn [world_of].
        split; [|split; [exact R3 | exact C3]].
        eapply decode_frame_trans; [exact F3|]. repeat split.
      - destruct (IH InvalidXLogRecPtr (tick_interrupts w3) r E3) as (F4 & R4 & C4).
        split; [|split].
        + eapply decode_frame_trans; [exact F3|].
          eapply decode_frame_trans; [|exact F4]. repeat split.
        + rewrite R4. exact R3.
        + intros N. rewrite (C4 N). simpl. apply C3. exact N. }
    destruct must as [utmost|].
    + destruct (deadline_reached _ utmost).
      * unfold ret in Er. subst r. cbn [world_of].
        split; [|split; [exact Ro | discriminate]].
        eapply decode_frame_trans; [exact F|]. repeat split.
      * apply (K (tick_clock w2)); [|exact Ro | discriminate | exact Er].
        eapply decode_frame_trans; [exact F|]. repeat split.
    + apply (K w2); [exact F | exact Ro | intros _; exact Ck | exact Er].
Qed.

(** X4. decode_concurrent_changes leaves CurrentResourceOwner as it found it,
    when it returns and when it re-throws an ERROR; only an abort that
    PG_CATCH does not see leaves the decoding resource owner in place. *)
Theorem decode_restores_the_resource_owner startptr end_of_wal must_complete wal w :
  match decode_concurrent_changes startptr end_of_wal must_complete wal w with
  | OK _ w' => CurrentResourceOwner w' = CurrentResourceOwner w
  | Fail (ELOG_ERROR _) w' => CurrentResourceOwner w' = CurrentResourceOwner w
  | Fail _ w' => CurrentResourceOwner w' = resowner (dstate w)
  end.
Proof.
  destruct (decode_loop_frame end_of_wal must_complete wal startptr
              (set_CurrentResourceOwner w (resowner (dstate w))) _ eq_refl)
    as ((_ & _ & _ & _ & _ & Ow) & _).
  unfold decode_concurrent_changes, PG_TRY_rethrow, bind, get, modify, ret.
  destruct (decode_loop _ _ _ _ _) as [out wl|[] wl]; cbn [world_of] in Ow;
    try exact Ow; try reflexivity.
  destruct (negb _); reflexivity.
Qed.

(** X5. The calls of a decoding pass that returns are
    LogicalConfirmReceivedLocation(EndRecPtr), made only when EndRecPtr is
    valid, and then the DEBUG1 message with the number of buffered changes;
    a pass that fails confirms nothing and logs nothing. *)
Theorem decode_confirms_the_position_reached startptr end_of_wal must_complete wal w :
  match decode_concurrent_changes startptr end_of_wal must_complete wal w with
  | OK _ w' =>
      calls_since w w' =
      (if EndRecPtr w' =? InvalidXLogRecPtr then []
       else [LogicalConfirmReceivedLocation (EndRecPtr w')])
      ++ [elog_DEBUG1_decoded (nchanges (dstate w'))]
  | Fail _ w' => calls_since w w' = []
  end.
Proof.
  destruct (decode_loop_frame end_of_wal must_complete wal startptr
              (set_CurrentResourceOwner w (resowner (dstate w))) _ eq_refl)
    as ((_ & Cl & _) & _).
  unfold decode_concurrent_changes, PG_TRY_rethrow, bind, get, modify, ret.
  destruct (decode_loop _ _ _ _ _) as [out wl|f wl]; cbn [world_of] in Cl.
  - simpl in Cl.
    destruct (EndRecPtr wl =? InvalidXLogRecPtr) eqn:Z0; cbn; rewrite ?Z0;
      apply calls_since_app; simpl; rewrite ?Z0, Cl, <- ?app_assoc; reflexivity.
  - simpl in Cl.
    destruct f; unfold calls_since; simpl; rewrite Cl; apply skipn_all.
Qed.

Lemma decode_loop_consumed end_of_wal must wal :
  forall startptr w startptr' wal' how w',
  decode_loop end_of_wal must wal startptr w = OK (startptr', wal', how) w' ->
  exists consumed,
    wal = consumed ++ wal'
    /\ dstate w' =
       append_changes (dstate w) (captured_records (relid (dstate w)) consumed)
    /\ read_below end_of_wal startptr (EndRecPtr w) consumed
    /\ match consumed with
       | [] => w' = w /\ startptr' = startptr
       | _ => startptr' = InvalidXLogRecPtr
       end.
Proof.
  induction wal as [|record wal0 IH]; intros startptr w startptr' wal' how w'.
  - simpl. destruct (_ && _); [discriminate|].
    intros E. inversion E; subst. exists []. simpl.
    rewrite append_changes_nil. auto.
  - simpl. destruct (_ && _) eqn:C.
    2: { intros E. inversion E; subst. exists []. simpl.
         rewrite append_changes_nil. auto. }
    apply andb_true_iff in C. destruct C as [C _].
    assert (Below : (startptr <> InvalidXLogRecPtr /\ startptr < end_of_wal)
                    \/ (EndRecPtr w <> InvalidXLogRecPtr /\ EndRecPtr w < end_of_wal)).
    { unfold more_to_read in C. apply orb_true_iff in C.
      destruct C as [C|C]; apply andb_true_iff in C; destruct C as [C1 C2];
        apply negb_true_iff, Z.eqb_neq in C1; apply Z.ltb_lt in C2; auto. }
    unfold bind at 1.
    match goal with
    | |- context [match ?m (set_EndRecPtr w (xl_end record)) with _ => _ end] =>
        destruct (m (set_EndRecPtr w (xl_end record))) as [[] w2|] eqn:R
    end; [|discriminate].
    apply read_record_OK in R.
    unfold bind at 1. rewrite processing_time_elapsed_spec.
    assert (K : forall w3,
      dstate w3 = dstate w2 -> EndRecPtr w3 = xl_end record ->
      bind CHECK_FOR_INTERRUPTS
        (fun _ => decode_loop end_of_wal must wal0 InvalidXLogRecPtr) w3
      = OK (startptr', wal', how) w' ->
      exists consumed,
        record :: wal0 = consumed ++ wal'
        /\ dstate w' =
           append_changes (dstate w) (captured_records (relid (dstate w)) consumed)
        /\ read_below end_of_wal startptr (EndRecPtr w) consumed
        /\ match consumed with
           | [] => w' = w /\ startptr' = startptr
           | _ => startptr' = InvalidXLogRecPtr
           end).
    { intros w3 D3 E3. unfold bind at 1, CHECK_FOR_INTERRUPTS.
      destruct (InterruptPending _); [discriminate|].
      intros E. apply IH in E.
      destruct E as (consumed & -> & D & B & S).
      cbn [dstate tick_interrupts EndRecPtr] in D, B.
      rewrite D3 in D. rewrite E3 in B. subst w2.
      cbn [dstate set_dstate] in D. rewrite relid_append in D.
      exists (record :: consumed). split; [reflexivity|]. split.
      - rewrite D, append_changes_app. reflexivity.
      - split.
        + simpl. split; [exact Below | exact B].
        + destruct consumed; [destruct S as [_ S]; exact S | exact S]. }
    destruct must as [utmost|].
    + destruct (deadline_reached _ utmost).
      * unfold ret. intros E. inversion E; subst. clear E.
        exists [record]. simpl. rewrite app_nil_r. auto.
      * apply K; subst w2; reflexivity.
    + apply K; subst w2; reflexivity.
Qed.

End DecodeMore.

(** ** What a decoding pass reads *)

Section DecodeTheorems.
Context `{PG : Postgres}.

(** X6. A decoding pass that returns has consumed a prefix of the WAL records;
    the buffer is what it was followed by the changes of the relation that
    these records carry, in WAL order, nchanges has grown by their number
    and relid is untouched. *)
Theorem decode_appends_what_was_captured_in_order
  startptr end_of_wal must_complete wal w done startptr' wal' how w' :
  decode_concurrent_changes startptr end_of_wal must_complete wal w
  = OK (done, (startptr', wal', how)) w' ->
  exists consumed,
    wal = consumed ++ wal'
    /\ tstore (dstate w')
       = tstore (dstate w) ++ captured_records (relid (dstate w)) consumed
    /\ nchanges (dstate w')
       = nchanges (dstate w)
         + Z.of_nat (List.length (captured_records (relid (dstate w)) consumed))
    /\ relid (dstate w') = relid (dstate w).
Proof.
  intros E. apply decode_concurrent_changes_OK in E.
  destruct E as (wl & L & _ & D & _).
  apply decode_loop_consumed in L.
  destruct L as (consumed & W & Dl & _).
  exists consumed. rewrite D, Dl. repeat split. exact W.
Qed.

(** X7. Every record a decoding pass read was asked for while *startptr or the
    reader's EndRecPtr was valid and below end_of_wal; *startptr is invalid
    after the first read, and with no read both *startptr and EndRecPtr are
    as they were. *)
Theorem decode_reads_only_below_the_end_bound
  startptr end_of_wal must_complete wal w done startptr' wal' how w' :
  decode_concurrent_changes startptr end_of_wal must_complete wal w
  = OK (done, (startptr', wal', how)) w' ->
  exists consumed,
    wal = consumed ++ wal'
    /\ read_below end_of_wal startptr (EndRecPtr w) consumed
    /\ (consumed = [] -> startptr' = startptr /\ EndRecPtr w' = EndRecPtr w)
    /\ (consumed <> [] -> startptr' = InvalidXLogRecPtr).
Proof.
  intros E. apply decode_concurrent_changes_OK in E.
  destruct E as (wl & L & _ & _ & Ep & _).
  apply decode_loop_consumed in L.
  destruct L as (consumed & W & _ & B & S).
  exists consumed. split; [exact W|]. split; [exact B|].
  destruct consumed.
  - destruct S as [-> ->]. split; [intros _; split; [reflexivity|exact Ep]|].
    intros N. contradiction.
  - split; [discriminate|]. intros _. exact S.
Qed.

(** X8. If some record to come ends at or beyond end_of_wal, a decoding pass
    never asks for a record behind the last one: the loop stops at that
    record at the latest. *)
Theorem decode_does_not_wait_past_the_end_bound
  startptr end_of_wal must_complete wal w w' :
  Exists (fun r => end_of_wal <= xl_end r /\ xl_end r <> InvalidXLogRecPtr) wal ->
  decode_concurrent_changes startptr end_of_wal must_complete wal w
  <> Fail WAL_WAIT w'.
Proof.
  intros Cover.
  unfold decode_concurrent_changes, PG_TRY_rethrow, bind, get, modify, ret.
  pose proof (decode_loop_never_waits end_of_wal must_complete wal startptr
                (set_CurrentResourceOwner w (resowner (dstate w)))) as N.
  destruct (decode_loop _ _ _ _ _) as [out wl|[] wl]; try discriminate.
  intros _. apply (N wl Cover). reflexivity.
Qed.

(** X9. With the deadline already reached at entry, a decoding pass that returns
    has either read nothing, without looking at the clock, or decoded
    exactly one record, read the clock once and left the loop by the
    break. *)
Theorem decode_checks_the_deadline_after_a_record
  startptr end_of_wal utmost wal w done startptr' wal' how w' :
  deadline_reached (gettimeofday (clock_reads w)) utmost = true ->
  decode_concurrent_changes startptr end_of_wal (Some utmost) wal w
  = OK (done, (startptr', wal', how)) w' ->
  (wal' = wal /\ how = EXIT_CONDITION /\ dstate w' = dstate w
   /\ clock_reads w' = clock_reads w)
  \/ exists record,
       wal = record :: wal' /\ how = EXIT_BREAK
       /\ dstate w' =
          append_changes (dstate w)
            (captured_read (relid (dstate w)) (xl_read record))
       /\ clock_reads w' = S (clock_reads w).
Proof.
  intros DL E. apply decode_concurrent_changes_OK in E.
  destruct E as (wl & L & _ & D & _ & Ck & _). rewrite D, Ck. clear D Ck.
  destruct wal as [|record wal0]; simpl in L.
  - destruct (_ && _); [discriminate|]. inversion L; subst. left. auto.
  - destruct (_ && _).
    2: { inversion L; subst. left. auto. }
    unfold bind at 1 in L.
    match type of L with
    | context [match ?m ?x with _ => _ end] =>
        destruct (m x) as [[] w2|] eqn:R
    end; [|discriminate].
    apply read_record_OK in R.
    unfold bind at 1 in L. rewrite processing_time_elapsed_spec in L.
    subst w2. cbn [clock_reads set_dstate set_EndRecPtr set_CurrentResourceOwner] in L.
    rewrite DL in L. unfold ret in L. inversion L; subst.
    right. exists record. repeat split.
Qed.

End DecodeTheorems.

(** ** One replayed change *)

Section ReplayMore.
Context `{PG : Postgres}.

#[local] Arguments get_changed_tuple : simpl never.

Ltac run_step l :=
  unfold apply_change;
  match goal with
  | K : kind _ = _ |- _ => rewrite K
  end;
  cbn [kind_eqb negb andb dispatch_change];
  unfold_step; cbn [kind_eqb];
  destruct (bistate l) eqn:Hbis; cbn;
  repeat first [rewrite find_target_spec; cbn | split_match].

(* What a step that succeeds has done, read off its calls and locals. *)
Lemma apply_change_OK_effects key nkeys l e w l' w' :
  apply_change key nkeys l e w = OK l' w' ->
  flat_map applied_by_call (calls_since w w') = applied_of_record e
  /\ ninserts l' = ninserts l + (if has_kind PG_SQUEEZE_CHANGE_INSERT e then 1 else 0)
  /\ nupdates l' = nupdates l + (if has_kind PG_SQUEEZE_CHANGE_UPDATE_NEW e then 1 else 0)
  /\ ndeletes l' = ndeletes l + (if has_kind PG_SQUEEZE_CHANGE_DELETE e then 1 else 0)
  /\ (List.length (filter is_GetBulkInsertState (calls_since w w')) + b2n (bistate l)
      = List.length (filter is_FreeBulkInsertState (calls_since w w')) + b2n (bistate l'))%nat
  /\ bistate l' = has_kind PG_SQUEEZE_CHANGE_INSERT e
  /\ (forall raw, kind (vl_dat e) <> PG_SQUEEZE_CHANGE_other raw).
Proof.
  unfold applied_of_record, has_kind.
  destruct (kind (vl_dat e)) eqn:K; run_step l;
    intros E; try discriminate E; inversion E; subst; clear E;
    norm_calls; simpl;
    rewrite ?Hbis;
    repeat split; try reflexivity; try lia; try discriminate.
Qed.

Lemma apply_change_snapshot key nkeys l e w :
  GetActiveSnapshot w = currentCommandId w ->
  ActiveSnapshot w <> [] ->
  let r := apply_change key nkeys l e w in
  Forall (eq (currentCommandId w))
         (flat_map scan_curcid (calls_since w (world_of r)))
  /\ (forall l' w',
        r = OK l' w' ->
        GetActiveSnapshot w' = currentCommandId w'
        /\ tl (ActiveSnapshot w') = tl (ActiveSnapshot w)
        /\ ActiveSnapshot w' <> []).
Proof.
  unfold GetActiveSnapshot. intros G N. cbv zeta.
  destruct (ActiveSnapshot w) as [|top below] eqn:AS; [contradiction|].
  simpl in G. subst top.
  destruct (kind (vl_dat e)) eqn:K; run_step l;
    (split;
     [ norm_calls; simpl; unfold GetActiveSnapshot; simpl; rewrite ?AS; simpl;
       repeat constructor
     | intros l' w' E; try discriminate E; inversion E; subst; clear E;
       simpl in *; rewrite ?AS in *; simpl;
       try discriminate;
       repeat split; try reflexivity; try discriminate; try congruence ]).
Qed.

(** X10. A replayed UPDATE_NEW or DELETE that succeeds acts on the row its index
    scan returned: the scan with the step's key arguments finds a ctid; an
    update calls simple_heap_update on that ctid with the change's tuple and
    inserts index entries unless the new tuple is heap-only; a delete calls
    simple_heap_delete on that ctid and writes nothing else. *)
Theorem update_and_delete_hit_the_row_found key nkeys l e w l' w' :
  kind (vl_dat e) = PG_SQUEEZE_CHANGE_UPDATE_NEW
  \/ kind (vl_dat e) = PG_SQUEEZE_CHANGE_DELETE ->
  apply_change key nkeys l e w = OK l' w' ->
  let tup := get_changed_tuple (vl_dat e) in
  let args := key_arguments (key_tuple_of l e) (scan_entries key nkeys) in
  exists ctid,
    index_getnext (rel_dst w) (GetActiveSnapshot w) args = Done (Some ctid)
    /\ if kind_eqb (kind (vl_dat e)) PG_SQUEEZE_CHANGE_UPDATE_NEW
       then
         exists updated,
           simple_heap_update (rel_dst w) ctid tup (currentCommandId w)
           = Done updated
           /\ filter is_table_write (calls_since w w') =
              call_simple_heap_update ctid tup
              :: (if HeapTupleIsHeapOnly (snd updated) then []
                  else [call_ExecInsertIndexTuples (snd updated)])
           /\ (if HeapTupleIsHeapOnly (snd updated)
               then rel_dst w' = fst updated
               else ExecInsertIndexTuples (fst updated) (snd updated)
                    = Done (rel_dst w'))
       else
         simple_heap_delete (rel_dst w) ctid (currentCommandId w)
         = Done (rel_dst w')
         /\ filter is_table_write (calls_since w w') = [call_simple_heap_delete ctid].
Proof.
  intros K E tup args. subst tup args. unfold key_tuple_of.
  revert E. destruct K as [K|K].
  all: unfold apply_change.
  all: rewrite K.
  all: cbn [kind_eqb negb andb dispatch_change].
  all: unfold_step; cbn [kind_eqb].
  all: destruct (bistate l) eqn:Hbis; cbn.
  all: repeat first [rewrite find_target_spec; cbn | split_match].
  all: intros E; try discriminate E; inversion E; subst; clear E;
    norm_calls; unfold GetActiveSnapshot in *; simpl in *;
    try match goal with
        | H : ActiveSnapshot _ = _ |- _ => rewrite H in *; simpl in *
        end;
    (eexists; split; [first [eassumption | reflexivity]|]);
    try (eexists; split; [first [eassumption | reflexivity]|]);
    repeat match goal with
           | H : negb ?x = _ |- _ =>
               apply (f_equal negb) in H; rewrite negb_involutive in H;
               simpl in H; rewrite H
           end;
    repeat split; try reflexivity; try assumption.
Qed.

End ReplayMore.

(** ** A whole replay *)

Section PassMore.
Context `{PG : Postgres}.

#[local] Arguments get_changed_tuple : simpl never.

Lemma calls_since_trans (w w1 w2 : World) n1 n2 :
  calls w1 = calls w ++ n1 -> calls w2 = calls w1 ++ n2 ->
  calls_since w w2 = calls_since w w1 ++ calls_since w1 w2.
Proof.
  intros E1 E2.
  rewrite (calls_since_app _ _ _ E1), (calls_since_app _ _ _ E2).
  apply calls_since_app. rewrite E2, E1, app_assoc. reflexivity.
Qed.

Lemma calls_since_same (w w' : World) : calls w' = calls w -> calls_since w w' = [].
Proof. intros E. unfold calls_since. rewrite E. apply skipn_all. Qed.

Lemma count_kind_cons k e rest :
  count_kind k (e :: rest) = (if has_kind k e then 1 else 0) + count_kind k rest.
Proof.
  unfold count_kind. simpl. destruct (has_kind k e); simpl List.length; lia.
Qed.

Lemma apply_loop_effects key nkeys records :
  forall l w l' w',
  apply_loop key nkeys records l w = OK l' w' ->
  flat_map applied_by_call (calls_since w w') = flat_map applied_of_record records
  /\ ninserts l' = ninserts l + count_kind PG_SQUEEZE_CHANGE_INSERT records
  /\ nupdates l' = nupdates l + count_kind PG_SQUEEZE_CHANGE_UPDATE_NEW records
  /\ ndeletes l' = ndeletes l + count_kind PG_SQUEEZE_CHANGE_DELETE records
  /\ (List.length (filter is_GetBulkInsertState (calls_since w w')) + b2n (bistate l)
      = List.length (filter is_FreeBulkInsertState (calls_since w w')) + b2n (bistate l'))%nat
  /\ (forall r raw, In r records -> kind (vl_dat r) <> PG_SQUEEZE_CHANGE_other raw).
Proof.
  induction records as [|e rest IH]; intros l w l' w'; simpl.
  - unfold ret. intros E. inversion E; subst.
    rewrite (calls_since_same w' w' eq_refl). unfold count_kind. simpl.
    repeat split; try lia.
  - unfold bind. destruct (apply_change key nkeys l e w) as [l1 w1|] eqn:E1;
      [|discriminate].
    intros E2.
    pose proof (apply_change_OK_calls _ _ _ _ _ _ _ E1) as (_ & n1 & N1 & _).
    pose proof (apply_loop_OK _ _ _ _ _ _ _ E2) as (_ & _ & n2 & N2 & _).
    apply apply_change_OK_effects in E1.
    destruct E1 as (A1 & I1 & U1 & D1 & B1 & _ & K1).
    apply IH in E2. destruct E2 as (A2 & I2 & U2 & D2 & B2 & K2).
    rewrite (calls_since_trans _ _ _ _ _ N1 N2).
    rewrite !count_kind_cons, flat_map_app, !filter_app, !length_app.
    rewrite A1, A2, I2, I1, U2, U1, D2, D1.
    repeat split; try lia.
    intros r raw [<-|I]; [apply K1 | apply (K2 r raw I)].
Qed.

Lemma apply_loop_snapshot key nkeys records :
  forall l w l' w',
  GetActiveSnapshot w = currentCommandId w ->
  ActiveSnapshot w <> [] ->
  apply_loop key nkeys records l w = OK l' w' ->
  GetActiveSnapshot w' = currentCommandId w'
  /\ tl (ActiveSnapshot w') = tl (ActiveSnapshot w)
  /\ ActiveSnapshot w' <> [].
Proof.
  induction records as [|e rest IH]; intros l w l' w' G N; simpl.
  - unfold ret. intros E. inversion E; subst. auto.
  - unfold bind. destruct (apply_change key nkeys l e w) as [l1 w1|] eqn:E1;
      [|discriminate].
    intros E2.
    destruct (apply_change_snapshot key nkeys l e w G N) as [_ S].
    destruct (S l1 w1 E1) as (G1 & T1 & N1).
    destruct (IH _ _ _ _ G1 N1 E2) as (G2 & T2 & N2).
    repeat split; auto. congruence.
Qed.

Lemma finished_calls l w :
  calls (finished l w) =
  calls w ++ elog_DEBUG1_applied (ninserts l) (nupdates l) (ndeletes l)
             :: (if bistate l then [FreeBulkInsertState] else []).
Proof.
  unfold finished. destruct (bistate l); simpl; rewrite <- ?app_assoc; reflexivity.
Qed.

(* A successful pass over a non-empty buffer, taken apart. *)
Lemma apply_concurrent_changes_OK key nkeys w w' :
  nchanges (dstate w) <> 0 ->
  apply_concurrent_changes key nkeys w = OK tt w' ->
  exists l wl new,
    apply_loop key nkeys (tstore (dstate w)) locals0 (pushed w) = OK l wl
    /\ w' = finished l wl
    /\ calls wl = calls w ++ new
    /\ calls_since w w' =
       new ++ elog_DEBUG1_applied (ninserts l) (nupdates l) (ndeletes l)
              :: (if bistate l then [FreeBulkInsertState] else []).
Proof.
  intros NZ E. rewrite (apply_concurrent_changes_run _ _ _ NZ) in E.
  destruct (apply_loop _ _ _ _ _) as [l wl|] eqn:L; [|discriminate].
  inversion E; subst w'. clear E.
  pose proof (apply_loop_OK _ _ _ _ _ _ _ L) as (_ & _ & new & N & _).
  simpl in N.
  exists l, wl, new. repeat split; auto.
  apply calls_since_app. rewrite finished_calls, N, <- app_assoc. reflexivity.
Qed.

(** X11. A replay that returns logs, in its DEBUG1 message, the numbers of INSERT,
    UPDATE_NEW and DELETE records of the buffer; and the buffer held no
    record of an unknown kind. *)
Theorem replay_reports_the_number_of_changes_of_each_kind key nkeys w w' :
  nchanges (dstate w) <> 0 ->
  apply_concurrent_changes key nkeys w = OK tt w' ->
  let buffer := tstore (dstate w) in
  In (elog_DEBUG1_applied (count_kind PG_SQUEEZE_CHANGE_INSERT buffer)
                          (count_kind PG_SQUEEZE_CHANGE_UPDATE_NEW buffer)
                          (count_kind PG_SQUEEZE_CHANGE_DELETE buffer))
     (calls_since w w')
  /\ (forall r raw, In r buffer -> kind (vl_dat r) <> PG_SQUEEZE_CHANGE_other raw).
Proof.
  intros NZ E buffer. subst buffer.
  destruct (apply_concurrent_changes_OK _ _ _ _ NZ E) as (l & wl & new & L & _ & _ & C).
  apply apply_loop_effects in L.
  destruct L as (_ & I & U & D & _ & K). simpl in I, U, D.
  split; [|exact K].
  rewrite C, I, U, D. apply in_or_app. right. left. reflexivity.
Qed.

(** X12. A replay that returns has freed every bulk-insert state it allocated;
    during the loop a bulk-insert state is held after a record exactly when
    that record was an INSERT. *)
Theorem replay_releases_every_bulk_insert_state key nkeys w w' :
  apply_concurrent_changes key nkeys w = OK tt w' ->
  List.length (filter is_GetBulkInsertState (calls_since w w'))
  = List.length (filter is_FreeBulkInsertState (calls_since w w'))
  /\ forall pre e l2 w2,
       apply_loop key nkeys (pre ++ [e]) locals0 (pushed w) = OK l2 w2 ->
       bistate l2 = has_kind PG_SQUEEZE_CHANGE_INSERT e.
Proof.
  intros E. split.
  - destruct (Z.eq_dec (nchanges (dstate w)) 0) as [Z0|NZ].
    + unfold apply_concurrent_changes, bind, get in E. rewrite Z0 in E.
      simpl in E. unfold ret in E. inversion E; subst.
      rewrite (calls_since_same w' w' eq_refl). reflexivity.
    + destruct (apply_concurrent_changes_OK _ _ _ _ NZ E)
        as (l & wl & new & L & _ & N & C).
      apply apply_loop_effects in L. destruct L as (_ & _ & _ & _ & B & _).
      change (calls_since (pushed w) wl) with (calls_since w wl) in B.
      rewrite (calls_since_app _ _ _ N) in B. simpl in B.
      rewrite C, !filter_app, !length_app. simpl.
      destruct (bistate l); simpl in *; lia.
  - intros pre e l2 w2 L. rewrite apply_loop_app in L.
    destruct (apply_loop key nkeys pre locals0 (pushed w)) as [l1 w1|];
      [|discriminate].
    simpl in L. unfold bind in L.
    destruct (apply_change key nkeys l1 e w1) as [l2' w2'|] eqn:S; [|discriminate].
    unfold ret in L. inversion L; subst.
    apply apply_change_OK_effects in S. apply S.
Qed.

(** X13. A replay that returns leaves the snapshot stack as it found it, and at
    each buffered record the command counter has advanced once per earlier
    record other than UPDATE_OLD, and every index scan of the record's step
    runs with that counter as the snapshot's curcid. *)
Theorem replay_scans_with_the_current_command_id key nkeys w w' :
  nchanges (dstate w) <> 0 ->
  apply_concurrent_changes key nkeys w = OK tt w' ->
  ActiveSnapshot w' = ActiveSnapshot w
  /\ forall pre e post,
       tstore (dstate w) = pre ++ e :: post ->
       exists l1 w1,
         apply_loop key nkeys pre locals0 (pushed w) = OK l1 w1
         /\ currentCommandId w1 =
            currentCommandId w
            + Z.of_nat (List.length (filter advances_counter pre))
         /\ Forall (eq (currentCommandId w1))
              (flat_map scan_curcid
                 (calls_since w1 (world_of (apply_change key nkeys l1 e w1)))).
Proof.
  intros NZ E.
  destruct (apply_concurrent_changes_OK _ _ _ _ NZ E) as (l & wl & new & L & -> & _).
  assert (G0 : GetActiveSnapshot (pushed w) = currentCommandId (pushed w))
    by reflexivity.
  assert (N0 : ActiveSnapshot (pushed w) <> []) by discriminate.
  split.
  - destruct (apply_loop_snapshot _ _ _ _ _ _ _ G0 N0 L) as (_ & T & _).
    unfold finished. destruct (bistate l); simpl; exact T.
  - intros pre e post D. rewrite D, apply_loop_app in L.
    destruct (apply_loop key nkeys pre locals0 (pushed w)) as [l1 w1|] eqn:P;
      [|discriminate].
    exists l1, w1. split; [reflexivity|].
    pose proof (apply_loop_OK _ _ _ _ _ _ _ P) as (_ & C & _).
    split; [exact C|].
    destruct (apply_loop_snapshot _ _ _ _ _ _ _ G0 N0 P) as (G1 & _ & N1).
    apply (apply_change_snapshot key nkeys l1 e w1 G1 N1).
Qed.

(** X14. A replay that returns made, in buffer order, one heap_insert per INSERT
    record, one simple_heap_update per UPDATE_NEW record and one
    simple_heap_delete per DELETE record, with the records' tuples, and no
    other insert, update or delete. *)
Theorem replay_applies_each_buffered_change_once_in_order key nkeys w w' :
  nchanges (dstate w) <> 0 ->
  apply_concurrent_changes key nkeys w = OK tt w' ->
  flat_map applied_by_call (calls_since w w')
  = flat_map applied_of_record (tstore (dstate w)).
Proof.
  intros NZ E.
  destruct (apply_concurrent_changes_OK _ _ _ _ NZ E) as (l & wl & new & L & _ & N & C).
  apply apply_loop_effects in L. destruct L as (A & _).
  change (calls_since (pushed w) wl) with (calls_since w wl) in A.
  rewrite (calls_since_app _ _ _ N) in A.
  rewrite C, flat_map_app, A. simpl.
  destruct (bistate l); simpl; apply app_nil_r.
Qed.

End PassMore.

(** ** One iteration of the coordinator *)

Section CoordinatorFacts.
Context `{PG : Postgres}.

#[local] Arguments get_changed_tuple : simpl never.

(* What replay never writes, whatever the outcome. *)
Lemma apply_loop_frame key nkeys records :
  forall l w,
  let r := apply_loop key nkeys records l w in
  dstate (world_of r) = dstate w
  /\ EndRecPtr (world_of r) = EndRecPtr w
  /\ clock_reads (world_of r) = clock_reads w
  /\ exists new, calls (world_of r) = calls w ++ new.
Proof.
  induction records as [|e rest IH]; intros l w; cbv zeta; simpl.
  - repeat split. exists []. symmetry. apply app_nil_r.
  - unfold bind.
    pose proof (apply_change_frame key nkeys l e w) as F. cbv zeta in F.
    destruct (apply_change key nkeys l e w) as [l1 w1|f w1];
      cbn [world_of] in F; destruct F as (D & E & C & _ & n1 & N1).
    + destruct (IH l1 w1) as (D2 & E2 & C2 & n2 & N2).
      repeat split; try congruence.
      exists (n1 ++ n2). rewrite N2, N1, app_assoc. reflexivity.
    + cbn [world_of]. repeat split; auto. exists n1. exact N1.
Qed.

Lemma apply_concurrent_changes_frame key nkeys w :
  let r := apply_concurrent_changes key nkeys w in
  EndRecPtr (world_of r) = EndRecPtr w
  /\ clock_reads (world_of r) = clock_reads w
  /\ relid (dstate (world_of r)) = relid (dstate w)
  /\ exists new, calls (world_of r) = calls w ++ new.
Proof.
  cbv zeta. destruct (Z.eq_dec (nchanges (dstate w)) 0) as [Z0|NZ].
  - unfold apply_concurrent_changes, bind, get. rewrite Z0. simpl.
    repeat split. exists []. symmetry. apply app_nil_r.
  - rewrite (apply_concurrent_changes_run _ _ _ NZ).
    destruct (apply_loop_frame key nkeys (tstore (dstate w)) locals0 (pushed w))
      as (D & E & C & new & N).
    destruct (apply_loop _ _ _ _ _) as [l wl|f wl]; cbn [world_of] in *.
    + rewrite dstate_finished, D. simpl.
      unfold finished at 1 2. destruct (bistate l); simpl;
        (repeat split; auto; eexists; rewrite finished_calls, N, <- app_assoc;
         reflexivity).
    + rewrite D. repeat split; auto. exists new. exact N.
Qed.

(* An iteration that does not fail, step by step. *)
Lemma coordinator_iteration_OK startptr end_of_wal key nkeys must wal w it w' :
  coordinator_iteration startptr end_of_wal key nkeys must wal w = OK it w' ->
  exists done startptr' wal' how w2 elapsed w3,
    decode_concurrent_changes startptr end_of_wal must wal (tick_interrupts w)
    = OK (done, (startptr', wal', how)) w2
    /\ processing_time_elapsed must w2 = OK elapsed w3
    /\ ((elapsed = true /\ it = RETURN_false startptr' wal' /\ w' = w3)
        \/ (elapsed = false /\ nchanges (dstate w3) = 0
            /\ it = NEXT done startptr' wal' /\ w' = w3)
        \/ (elapsed = false /\ nchanges (dstate w3) <> 0
            /\ it = NEXT done startptr' wal'
            /\ check_catalog_changes (catalog_checks w3) = None
            /\ apply_concurrent_changes key nkeys
                 (tick_catalog (record_call w3 call_check_catalog_changes))
               = OK tt w')).
Proof.
  unfold coordinator_iteration. unfold bind at 1.
  unfold CHECK_FOR_INTERRUPTS at 1.
  destruct (InterruptPending _); [discriminate|].
  unfold bind at 1.
  destruct (decode_concurrent_changes _ _ _ _ _)
    as [[done [[startptr' wal'] how]] w2|] eqn:Dc; [|discriminate].
  unfold bind at 1.
  destruct (processing_time_elapsed must w2) as [elapsed w3|] eqn:T; [|discriminate].
  intros E. exists done, startptr', wal', how, w2, elapsed, w3.
  split; [reflexivity|]. split; [exact T|]. clear T.
  destruct elapsed.
  - unfold ret in E. inversion E; subst. left. auto.
  - unfold bind at 1, get in E.
    destruct (Z.eqb_spec (nchanges (dstate w3)) 0) as [Z0|NZ].
    + unfold ret in E. inversion E; subst. right. left. auto.
    + right. right. unfold bind at 1, do_check_catalog_changes in E.
      destruct (check_catalog_changes (catalog_checks w3)); [discriminate|].
      unfold bind at 1 in E.
      destruct (apply_concurrent_changes _ _ _) as [[] w5|]; [|discriminate].
      unfold ret in E. inversion E; subst. auto 10.
Qed.

End CoordinatorFacts.

(** ** The coordinator's result *)

Section CoordinatorTheorems.
Context `{PG : Postgres}.

#[local] Arguments get_changed_tuple : simpl never.

Lemma elapsed_frame must w2 elapsed w3 :
  processing_time_elapsed must w2 = OK elapsed w3 ->
  dstate w3 = dstate w2 /\ EndRecPtr w3 = EndRecPtr w2
  /\ calls w3 = calls w2 /\ rel_dst w3 = rel_dst w2
  /\ catalog_checks w3 = catalog_checks w2
  /\ (elapsed = true ->
      exists utmost,
        must = Some utmost /\ clock_reads w3 = S (clock_reads w2)
        /\ deadline_reached (gettimeofday (clock_reads w2)) utmost = true).
Proof.
  rewrite processing_time_elapsed_spec. destruct must as [utmost|]; intros E;
    inversion E; subst; repeat split.
  - intros DL. exists utmost. auto.
  - discriminate.
Qed.

Lemma do_check_frame (w : World) :
  let r := do_check_catalog_changes w in
  dstate (world_of r) = dstate w.
Proof.
  unfold do_check_catalog_changes.
  destruct (check_catalog_changes _); reflexivity.
Qed.

Lemma buffer_consistent_iteration startptr end_of_wal key nkeys must wal w :
  buffer_consistent (dstate w) ->
  buffer_consistent
    (dstate (world_of (coordinator_iteration startptr end_of_wal key nkeys
                         must wal w))).
Proof.
  intros C. unfold coordinator_iteration. unfold bind at 1.
  unfold CHECK_FOR_INTERRUPTS at 1.
  destruct (InterruptPending _); [exact C|].
  unfold bind at 1.
  pose proof (buffer_consistent_decode startptr end_of_wal must wal
                (tick_interrupts w) C) as C2.
  destruct (decode_concurrent_changes _ _ _ _ _)
    as [[done [[startptr' wal'] how]] w2|]; cbn [world_of] in *; [|exact C2].
  unfold bind at 1. rewrite processing_time_elapsed_spec.
  assert (K : forall w3, dstate w3 = dstate w2 ->
    buffer_consistent
      (dstate (world_of
         (bind get (fun w0 =>
            if nchanges (dstate w0) =? 0 then ret (NEXT done startptr' wal')
            else bind do_check_catalog_changes (fun _ =>
                   bind (apply_concurrent_changes key nkeys) (fun _ =>
                     ret (NEXT done startptr' wal')))) w3)))).
  { intros w3 D3. unfold bind at 1, get.
    destruct (nchanges (dstate w3) =? 0); [unfold ret; simpl; rewrite D3; exact C2|].
    unfold bind at 1, do_check_catalog_changes.
    destruct (check_catalog_changes _); cbn [world_of];
      [simpl; rewrite D3; exact C2|].
    unfold bind at 1.
    pose proof (buffer_consistent_apply key nkeys
                  (tick_catalog (record_call w3 call_check_catalog_changes))) as C4.
    destruct (apply_concurrent_changes _ _ _) as [[] w5|]; cbn [world_of] in *;
      apply C4; simpl; rewrite D3; exact C2. }
  destruct must as [utmost|].
  - destruct (deadline_reached _ utmost).
    + unfold ret. exact C2.
    + apply K. reflexivity.
  - apply K. reflexivity.
Qed.

(* The iteration that ends the loop with true. *)
Lemma last_iteration_done startptr end_of_wal key nkeys must wal w startptr' wal' w' :
  coordinator_iteration startptr end_of_wal key nkeys must wal w
  = OK (NEXT true startptr' wal') w' ->
  nchanges (dstate w') = 0
  /\ (EndRecPtr w' = InvalidXLogRecPtr \/ end_of_wal <= EndRecPtr w').
Proof.
  intros E. apply coordinator_iteration_OK in E.
  destruct E as (done & sp2 & wal2 & how & w2 & elapsed & w3 & Dc & T & Cases).
  apply decode_concurrent_changes_OK in Dc.
  destruct Dc as (wl & _ & Dn & _ & Ep & _).
  apply elapsed_frame in T. destruct T as (_ & E3 & _).
  assert (Drained : done = true ->
                    EndRecPtr w3 = InvalidXLogRecPtr \/ end_of_wal <= EndRecPtr w3).
  { intros Tr. rewrite Tr in Dn. symmetry in Dn. apply orb_true_iff in Dn.
    rewrite E3, Ep. destruct Dn as [Dn|Dn].
    - left. apply Z.eqb_eq. exact Dn.
    - right. rewrite Z.geb_leb in Dn. apply Z.leb_le. exact Dn. }
  destruct Cases as [(_ & X & _)|[(_ & Z0 & X & ->)|(_ & NZ & X & _ & A)]];
    try discriminate X; injection X as Hd _ _; symmetry in Hd.
  - split; [exact Z0 | apply Drained; exact Hd].
  - pose proof (apply_concurrent_changes_frame key nkeys
                  (tick_catalog (record_call w3 call_check_catalog_changes)))
      as (Ea & _). cbv zeta in Ea. rewrite A in Ea. cbn [world_of] in Ea.
    assert (NZ4 : nchanges (dstate (tick_catalog
                     (record_call w3 call_check_catalog_changes))) <> 0)
      by exact NZ.
    destruct (apply_concurrent_changes_OK _ _ _ _ NZ4 A) as (l & wl' & _ & _ & -> & _).
    rewrite dstate_finished. split; [reflexivity|].
    rewrite Ea. apply Drained. exact Hd.
Qed.

(* Consistent counters that say zero changes describe an empty buffer. *)
Lemma consistent_empty d :
  buffer_consistent d -> nchanges d = 0 ->
  tstore d = [] /\ data_size d = 0.
Proof.
  intros [Hn Hs] Z0. rewrite Hn in Z0.
  destruct (tstore d) as [|r rest]; [|simpl in Z0; lia].
  split; [reflexivity|]. rewrite Hs. reflexivity.
Qed.

(** X15. From consistent buffer counters: when process_concurrent_changes
    returns true the buffer is empty, no record stored and both counters
    zero, and the reader is at or beyond end_of_wal (or has read nothing
    valid); when it returns false a deadline was given and the last reading
    of the clock had reached it; without a deadline it can only return
    true. *)
Theorem coordinator_result_tells_what_was_done
  fuel startptr end_of_wal key nkeys must_complete wal w done startptr' wal' w' :
  buffer_consistent (dstate w) ->
  process_concurrent_changes fuel startptr end_of_wal key nkeys must_complete wal w
  = Some (OK (done, startptr', wal') w') ->
  (done = true ->
   tstore (dstate w') = []
   /\ nchanges (dstate w') = 0
   /\ data_size (dstate w') = 0
   /\ (EndRecPtr w' = InvalidXLogRecPtr \/ end_of_wal <= EndRecPtr w'))
  /\ (done = false ->
      exists utmost n,
        must_complete = Some utmost /\ clock_reads w' = S n
        /\ deadline_reached (gettimeofday n) utmost = true)
  /\ (must_complete = None -> done = true).
Proof.
  revert startptr wal w.
  induction fuel as [|fuel IH]; intros startptr wal w C; simpl; [discriminate|].
  pose proof (buffer_consistent_iteration startptr end_of_wal key nkeys
                must_complete wal w C) as C2.
  destruct (coordinator_iteration _ _ _ _ _ _ _) as [[sp2 wal2|d sp2 wal2] w2|] eqn:It;
    cbn [world_of] in C2.
  - intros E. inversion E; subst. clear E.
    apply coordinator_iteration_OK in It.
    destruct It as (d & sp3 & wal3 & how & w3 & elapsed & w4 & _ & T & Cases).
    apply elapsed_frame in T. destruct T as (_ & _ & _ & _ & _ & T).
    destruct Cases as [(El & _ & ->)|[(_ & _ & X & _)|(_ & _ & X & _)]];
      try discriminate X.
    destruct (T El) as (utmost & M & Ck & DL).
    split; [discriminate|]. split.
    + intros _. exists utmost, (clock_reads w3). auto.
    + rewrite M. discriminate.
  - destruct d.
    + intros E. inversion E; subst. clear E.
      apply last_iteration_done in It. destruct It as (Z0 & Drained).
      destruct (consistent_empty _ C2 Z0) as (Ts & Sz).
      split; [intros _; auto|]. split; [discriminate | reflexivity].
    + apply IH. exact C2.
  - discriminate.
Qed.

(** X16. If nchanges and data_size agree with the buffered records when
    process_concurrent_changes is entered, they agree when it is left,
    whether it returns or fails. *)
Theorem coordinator_keeps_the_counters_true
  fuel startptr end_of_wal key nkeys must_complete wal w r :
  buffer_consistent (dstate w) ->
  process_concurrent_changes fuel startptr end_of_wal key nkeys must_complete wal w
  = Some r ->
  buffer_consistent (dstate (world_of r)).
Proof.
  revert startptr wal w.
  induction fuel as [|fuel IH]; intros startptr wal w C; simpl; [discriminate|].
  pose proof (buffer_consistent_iteration startptr end_of_wal key nkeys
                must_complete wal w C) as C2.
  destruct (coordinator_iteration _ _ _ _ _ _ _) as [[sp2 wal2|d sp2 wal2] w2|];
    cbn [world_of] in C2.
  - intros E. inversion E; subst. exact C2.
  - destruct d.
    + intros E. inversion E; subst. exact C2.
    + apply IH. exact C2.
  - intros E. inversion E; subst. exact C2.
Qed.

End CoordinatorTheorems.

(** ** The coordinator ends *)

Section CoordinatorRuns.
Context `{PG : Postgres}.

#[local] Arguments get_changed_tuple : simpl never.

Lemma consistent_full_not_empty d :
  buffer_consistent d -> 0 < maintenance_wm_bytes ->
  maintenance_wm_bytes <= data_size d -> nchanges d <> 0.
Proof.
  intros [Hn Hs] P F Z0. rewrite Hn in Z0.
  destruct (tstore d); [|simpl in Z0; lia].
  rewrite Hs in F. cbn [sum_sizes fold_right] in F.
  change (to_Size 0) with 0 in F. lia.
Qed.

(* An iteration that asks for another one has read a record, or has
   emptied a full buffer. *)
Lemma iteration_progress startptr end_of_wal key nkeys must wal w startptr' wal' w' :
  0 < maintenance_wm_bytes ->
  buffer_consistent (dstate w) ->
  coordinator_iteration startptr end_of_wal key nkeys must wal w
  = OK (NEXT false startptr' wal') w' ->
  (List.length wal' < List.length wal)%nat
  \/ (wal' = wal /\ maintenance_wm_bytes <= data_size (dstate w)
      /\ data_size (dstate w') = 0).
Proof.
  intros P C E. apply coordinator_iteration_OK in E.
  destruct E as (done & sp2 & wal2 & how & w2 & elapsed & w3 & Dc & T & Cases).
  apply decode_concurrent_changes_OK in Dc.
  destruct Dc as (wl & L & Dn & D2 & _).
  apply elapsed_frame in T. destruct T as (D3 & _).
  apply decode_loop_OK in L. destruct L as [_ L].
  assert (X : NEXT false startptr' wal' = NEXT done sp2 wal2
              /\ (nchanges (dstate w3) = 0 /\ w' = w3
                  \/ nchanges (dstate w3) <> 0
                     /\ apply_concurrent_changes key nkeys
                          (tick_catalog (record_call w3 call_check_catalog_changes))
                        = OK tt w')).
  { destruct Cases as [(_ & X & _)|[(_ & Z0 & X & ->)|(_ & NZ & X & _ & A)]];
      [discriminate X | auto | auto]. }
  destruct X as [X Cases']. injection X as Hd <- <-.
  destruct L as [(-> & _ & -> & _ & Cnd)|(consumed & record & _ & -> & _)].
  - right. cbn [dstate set_CurrentResourceOwner EndRecPtr] in *.
    assert (Full : maintenance_wm_bytes <= data_size (dstate w)).
    { rewrite <- Hd in Dn. symmetry in Dn. apply orb_false_iff in Dn.
      destruct Dn as [Dn1 Dn2]. rewrite Z.geb_leb in Dn2.
      apply andb_false_iff in Cnd. destruct Cnd as [Cnd|Cnd].
      - unfold more_to_read in Cnd. apply orb_false_iff in Cnd.
        destruct Cnd as [_ Cnd]. simpl in Cnd, Dn1, Dn2.
        rewrite Dn1 in Cnd. simpl in Cnd.
        apply Z.ltb_ge in Cnd. apply Z.leb_gt in Dn2. lia.
      - apply Z.ltb_ge in Cnd. exact Cnd. }
    split; [reflexivity|]. split; [exact Full|].
    destruct Cases' as [(Z0 & _)|(NZ & A)].
    + exfalso. rewrite D3, D2 in Z0. simpl in Z0.
      apply (consistent_full_not_empty _ C P Full Z0).
    + assert (NZ4 : nchanges (dstate (tick_catalog
                       (record_call w3 call_check_catalog_changes))) <> 0)
        by exact NZ.
      destruct (apply_concurrent_changes_OK _ _ _ _ NZ4 A) as (l & wl' & _ & _ & -> & _).
      rewrite dstate_finished. reflexivity.
  - left. rewrite length_app. simpl. lia.
Qed.

Lemma coordinator_terminates_within fuel :
  forall startptr end_of_wal key nkeys must wal w,
  0 < maintenance_wm_bytes ->
  buffer_consistent (dstate w) ->
  (2 * List.length wal
   + (if (data_size (dstate w) <? maintenance_wm_bytes)%Z then 1 else 2)
   <= fuel)%nat ->
  process_concurrent_changes fuel startptr end_of_wal key nkeys must wal w <> None.
Proof.
  induction fuel as [|fuel IH]; intros startptr end_of_wal key nkeys must wal w P C F.
  - destruct (data_size (dstate w) <? maintenance_wm_bytes); lia.
  - simpl.
    pose proof (buffer_consistent_iteration startptr end_of_wal key nkeys
                  must wal w C) as C2.
    destruct (coordinator_iteration _ _ _ _ _ _ _) as [[sp2 wal2|d sp2 wal2] w2|] eqn:It;
      try discriminate.
    destruct d; [discriminate|].
    cbn [world_of] in C2. apply IH; [exact P | exact C2 |].
    destruct (iteration_progress _ _ _ _ _ _ _ _ _ _ P C It)
      as [Shorter|(-> & Full & Empty)].
    + destruct (data_size (dstate w2) <? maintenance_wm_bytes),
        (data_size (dstate w) <? maintenance_wm_bytes); lia.
    + apply Z.ltb_ge in Full. rewrite Full in F.
      rewrite Empty. apply Z.ltb_lt in P. rewrite P. lia.
Qed.

Lemma bind_Fail {A B} (m : M A) (k : A -> M B) w f w' :
  bind m k w = Fail f w' ->
  m w = Fail f w' \/ exists a w1, m w = OK a w1 /\ k a w1 = Fail f w'.
Proof.
  unfold bind. destruct (m w) as [a w1|f1 w1]; intros E.
  - right. exists a, w1. auto.
  - left. inversion E; subst. reflexivity.
Qed.

(* Replay never waits for WAL. *)
Lemma apply_change_never_waits key nkeys l e w w' :
  apply_change key nkeys l e w <> Fail WAL_WAIT w'.
Proof.
  unfold apply_change.
  destruct (kind (vl_dat e)) eqn:K; cbn [kind_eqb negb andb dispatch_change];
    unfold_step; cbn [kind_eqb];
    destruct (bistate l); cbn;
    repeat first [rewrite find_target_spec; cbn | split_match];
    discriminate.
Qed.

Lemma apply_loop_never_waits key nkeys records :
  forall l w w', apply_loop key nkeys records l w <> Fail WAL_WAIT w'.
Proof.
  induction records as [|e rest IH]; intros l w w'; simpl.
  - discriminate.
  - unfold bind.
    pose proof (apply_change_never_waits key nkeys l e w) as N.
    destruct (apply_change key nkeys l e w) as [l1 w1|f w1].
    + apply IH.
    + intros E. inversion E; subst. apply (N w'). reflexivity.
Qed.

Lemma apply_concurrent_changes_never_waits key nkeys w w' :
  apply_concurrent_changes key nkeys w <> Fail WAL_WAIT w'.
Proof.
  destruct (Z.eq_dec (nchanges (dstate w)) 0) as [Z0|NZ].
  - unfold apply_concurrent_changes, bind, get. rewrite Z0. simpl. discriminate.
  - rewrite (apply_concurrent_changes_run _ _ _ NZ).
    pose proof (apply_loop_never_waits key nkeys (tstore (dstate w)) locals0
                  (pushed w)) as N.
    destruct (apply_loop _ _ _ _ _) as [l wl|f wl]; [discriminate|].
    intros E. inversion E; subst. apply (N w'). reflexivity.
Qed.

(* A loop that returns has left the record at the end bound unread, or
   stands on it. *)
Lemma decode_loop_keeps_cover end_of_wal must wal :
  forall startptr w startptr' wal' how w',
  Exists (fun r => end_of_wal <= xl_end r /\ xl_end r <> InvalidXLogRecPtr) wal ->
  decode_loop end_of_wal must wal startptr w = OK (startptr', wal', how) w' ->
  Exists (fun r => end_of_wal <= xl_end r /\ xl_end r <> InvalidXLogRecPtr) wal'
  \/ (end_of_wal <= EndRecPtr w' /\ EndRecPtr w' <> InvalidXLogRecPtr).
Proof.
  induction wal as [|record wal0 IH];
    intros startptr w startptr' wal' how w' Cover.
  - inversion Cover.
  - simpl. destruct (_ && _).
    2: { intros E. inversion E; subst. left. exact Cover. }
    unfold bind at 1.
    match goal with
    | |- context [match ?m (set_EndRecPtr w (xl_end record)) with _ => _ end] =>
        destruct (m (set_EndRecPtr w (xl_end record))) as [[] w2|] eqn:R
    end; [|discriminate].
    apply read_record_OK in R.
    unfold bind at 1. rewrite processing_time_elapsed_spec.
    assert (Go : forall w3, EndRecPtr w3 = xl_end record ->
      bind CHECK_FOR_INTERRUPTS
        (fun _ => decode_loop end_of_wal must wal0 InvalidXLogRecPtr) w3
      = OK (startptr', wal', how) w' ->
      Exists (fun r => end_of_wal <= xl_end r /\ xl_end r <> InvalidXLogRecPtr) wal'
      \/ (end_of_wal <= EndRecPtr w' /\ EndRecPtr w' <> InvalidXLogRecPtr)).
    { intros w3 E3. unfold bind at 1, CHECK_FOR_INTERRUPTS.
      destruct (InterruptPending _); [discriminate|].
      inversion Cover as [r l [Ge Nz]|r l Rest]; subst.
      - assert (Stop : more_to_read InvalidXLogRecPtr end_of_wal
                         (tick_interrupts w3) = false).
        { unfold more_to_read. simpl. rewrite E3.
          destruct (Z.eqb_spec (xl_end record) InvalidXLogRecPtr);
            [contradiction|].
          destruct (Z.ltb_spec (xl_end record) end_of_wal); [lia|reflexivity]. }
        destruct wal0; simpl; rewrite Stop; simpl; intros E; inversion E; subst;
          right; simpl; rewrite E3; auto.
      - apply IH. exact Rest. }
    assert (Brk : forall w3, EndRecPtr w3 = xl_end record ->
      OK (InvalidXLogRecPtr, wal0, EXIT_BREAK) w3 = OK (startptr', wal', how) w' ->
      Exists (fun r => end_of_wal <= xl_end r /\ xl_end r <> InvalidXLogRecPtr) wal'
      \/ (end_of_wal <= EndRecPtr w' /\ EndRecPtr w' <> InvalidXLogRecPtr)).
    { intros w3 E3 E. inversion E; subst.
      inversion Cover as [r l [Ge Nz]|r l Rest]; subst.
      - right. rewrite E3. auto.
      - left. exact Rest. }
    subst w2.
    destruct must as [utmost|].
    + destruct (deadline_reached _ utmost).
      * unfold ret. apply Brk. reflexivity.
      * apply Go. reflexivity.
    + apply Go. reflexivity.
Qed.

(* An iteration served by such a WAL does not wait, and when it asks for
   another iteration the record at the end bound is still to come. *)
Lemma iteration_keeps_cover startptr end_of_wal key nkeys must wal w :
  Exists (fun r => end_of_wal <= xl_end r /\ xl_end r <> InvalidXLogRecPtr) wal ->
  match coordinator_iteration startptr end_of_wal key nkeys must wal w with
  | OK (NEXT false _ wal') _ =>
      Exists (fun r => end_of_wal <= xl_end r /\ xl_end r <> InvalidXLogRecPtr) wal'
  | OK _ _ => True
  | Fail f _ => f <> WAL_WAIT
  end.
Proof.
  intros Cover.
  destruct (coordinator_iteration startptr end_of_wal key nkeys must wal w)
    as [it w'|f w'] eqn:It.
  - destruct it as [|[|] sp' wal']; try exact I.
    apply coordinator_iteration_OK in It.
    destruct It as (done & sp2 & wal2 & how & w2 & elapsed & w3 & Dc & T & Cases).
    apply decode_concurrent_changes_OK in Dc.
    destruct Dc as (wl & L & Dn & _ & _).
    assert (X : NEXT false sp' wal' = NEXT done sp2 wal2).
    { destruct Cases as [(_ & X & _)|[(_ & _ & X & _)|(_ & _ & X & _)]];
        [discriminate X | exact X | exact X]. }
    injection X as Hd <- <-.
    destruct (decode_loop_keeps_cover _ _ _ _ _ _ _ _ _ Cover L) as [K|[Ge Nz]];
      [exact K|].
    exfalso. rewrite <- Hd in Dn. symmetry in Dn. apply orb_false_iff in Dn.
    destruct Dn as [_ Dn]. rewrite Z.geb_leb in Dn. apply Z.leb_gt in Dn. lia.
  - intros ->. revert It.
    unfold coordinator_iteration. intros It.
    apply bind_Fail in It. destruct It as [It|([] & w1 & _ & It)].
    { unfold CHECK_FOR_INTERRUPTS in It.
      destruct (InterruptPending _); discriminate. }
    apply bind_Fail in It.
    destruct It as [It|([done [[sp2 wal2] how]] & w2 & _ & It)].
    { revert It.
      unfold decode_concurrent_changes, PG_TRY_rethrow, bind, get, modify, ret.
      pose proof (decode_loop_never_waits end_of_wal must wal startptr
                    (set_CurrentResourceOwner w1 (resowner (dstate w1)))) as N.
      destruct (decode_loop _ _ _ _ _) as [out wl|[] wl]; try discriminate.
      intros _. apply (N wl Cover). reflexivity. }
    apply bind_Fail in It. destruct It as [It|(elapsed & w3 & _ & It)].
    { rewrite processing_time_elapsed_spec in It.
      destruct must; discriminate. }
    destruct elapsed; [discriminate|].
    apply bind_Fail in It. destruct It as [It|(w0 & w4 & G & It)];
      [discriminate|].
    destruct (nchanges (dstate w0) =? 0); [discriminate|].
    apply bind_Fail in It. destruct It as [It|([] & w5 & _ & It)].
    { unfold do_check_catalog_changes in It.
      destruct (check_catalog_changes _); discriminate. }
    apply bind_Fail in It. destruct It as [It|([] & w6 & _ & It)];
      [|discriminate].
    revert It. apply apply_concurrent_changes_never_waits.
Qed.

Lemma coordinator_never_waits fuel :
  forall startptr end_of_wal key nkeys must wal w r,
  Exists (fun r => end_of_wal <= xl_end r /\ xl_end r <> InvalidXLogRecPtr) wal ->
  process_concurrent_changes fuel startptr end_of_wal key nkeys must wal w
  = Some r ->
  forall w', r <> Fail WAL_WAIT w'.
Proof.
  induction fuel as [|fuel IH];
    intros startptr end_of_wal key nkeys must wal w r Cover; simpl;
    [discriminate|].
  pose proof (iteration_keeps_cover startptr end_of_wal key nkeys must wal w
                Cover) as K.
  destruct (coordinator_iteration _ _ _ _ _ _ _) as [[sp2 wal2|d sp2 wal2] w2|f w2].
  - intros E w'. inversion E; subst. discriminate.
  - destruct d.
    + intros E w'. inversion E; subst. discriminate.
    + apply IH. exact K.
  - intros E w'. inversion E; subst. intros X. inversion X; subst.
    apply K. reflexivity.
Qed.

(** X17. With a positive memory limit, a consistent buffer and a WAL in
    which some record to come ends at or beyond end_of_wal,
    process_concurrent_changes returns or raises within 2 * n + 2
    iterations of its loop, n being the number of WAL records to come; it
    does not end up waiting for WAL. *)
Theorem coordinator_terminates
  fuel startptr end_of_wal key nkeys must_complete wal w :
  0 < maintenance_wm_bytes ->
  buffer_consistent (dstate w) ->
  Exists (fun r => end_of_wal <= xl_end r /\ xl_end r <> InvalidXLogRecPtr) wal ->
  (2 * List.length wal + 2 <= fuel)%nat ->
  exists r,
    process_concurrent_changes fuel startptr end_of_wal key nkeys
                               must_complete wal w = Some r
    /\ forall w', r <> Fail WAL_WAIT w'.
Proof.
  intros P C Cover F.
  destruct (process_concurrent_changes fuel startptr end_of_wal key nkeys
              must_complete wal w) as [r|] eqn:E.
  - exists r. split; [reflexivity|].
    apply (coordinator_never_waits _ _ _ _ _ _ _ _ _ Cover E).
  - exfalso. revert E. apply coordinator_terminates_within; auto.
    destruct (data_size (dstate w) <? maintenance_wm_bytes); lia.
Qed.

End CoordinatorRuns.

(** ** No change is lost *)

Section Conservation.
Context `{PG : Postgres}.

#[local] Arguments get_changed_tuple : simpl never.

Lemma no_replay_call_applies_nothing (new : list Call) :
  filter is_replay_call new = [] -> flat_map applied_by_call new = [].
Proof.
  induction new as [|c new IH]; simpl; [reflexivity|].
  destruct c; simpl; try discriminate; exact IH.
Qed.

Lemma no_replay_call_writes_nothing (new : list Call) :
  filter is_replay_call new = [] -> filter is_table_write new = [].
Proof.
  induction new as [|c new IH]; simpl; [reflexivity|].
  destruct c; simpl; try discriminate; exact IH.
Qed.

Lemma captured_records_app relid a b :
  captured_records relid (a ++ b)
  = captured_records relid a ++ captured_records relid b.
Proof. apply flat_map_app. Qed.

(* One iteration: what it applied and what it left in the buffer is what
   was in the buffer and what it captured. *)
Lemma iteration_conserves startptr end_of_wal key nkeys must wal w it w' :
  coordinator_iteration startptr end_of_wal key nkeys must wal w = OK it w' ->
  exists consumed new,
    wal = consumed ++ match it with
                      | RETURN_false _ wal' => wal'
                      | NEXT _ _ wal' => wal'
                      end
    /\ calls w' = calls w ++ new
    /\ relid (dstate w') = relid (dstate w)
    /\ flat_map applied_by_call new
       ++ flat_map applied_of_record (tstore (dstate w'))
       = flat_map applied_of_record
           (tstore (dstate w) ++ captured_records (relid (dstate w)) consumed).
Proof.
  intros E. apply coordinator_iteration_OK in E.
  destruct E as (done & sp2 & wal2 & how & w2 & elapsed & w3 & Dc & T & Cases).
  apply decode_concurrent_changes_OK in Dc.
  destruct Dc as (wl & L & _ & Dl & _ & _ & _ & _ & _ & _ & nd & Nd & Fd).
  destruct (decode_loop_consumed _ _ _ _ _ _ _ _ _ L) as (consumed & W & Dc & _).
  assert (Ts : tstore (dstate w2)
               = tstore (dstate w) ++ captured_records (relid (dstate w)) consumed)
    by (rewrite Dl, Dc; reflexivity).
  assert (Rl : relid (dstate w2) = relid (dstate w))
    by (rewrite Dl, Dc; apply relid_append).
  apply decode_loop_OK in L. destruct L as [(_ & Cl & _) _].
  cbn [calls set_CurrentResourceOwner tick_interrupts dstate] in *.
  rewrite Cl in Nd. clear Cl.
  apply elapsed_frame in T. destruct T as (D3 & _ & C3 & _).
  assert (Keep : w' = w3 ->
    calls w' = calls w ++ nd
    /\ relid (dstate w') = relid (dstate w)
    /\ flat_map applied_by_call nd
       ++ flat_map applied_of_record (tstore (dstate w'))
       = flat_map applied_of_record
           (tstore (dstate w) ++ captured_records (relid (dstate w)) consumed)).
  { intros ->. rewrite C3, D3, Rl, Ts, (no_replay_call_applies_nothing _ Fd).
    auto. }
  destruct Cases as [(_ & -> & X)|[(_ & _ & -> & X)|(_ & NZ & -> & _ & A)]].
  - exists consumed, nd. split; [exact W|]. apply Keep. exact X.
  - exists consumed, nd. split; [exact W|]. apply Keep. exact X.
  - assert (NZ4 : nchanges (dstate (tick_catalog
                     (record_call w3 call_check_catalog_changes))) <> 0)
      by exact NZ.
    pose proof (apply_concurrent_changes_frame key nkeys
                  (tick_catalog (record_call w3 call_check_catalog_changes)))
      as (_ & _ & Ra & na & Na).
    cbv zeta in Ra, Na. rewrite A in Ra, Na. cbn [world_of] in Ra, Na.
    destruct (apply_concurrent_changes_OK _ _ _ _ NZ4 A)
      as (l & wl' & new & L & Fw & N & C).
    assert (Ap : flat_map applied_by_call na
                 = flat_map applied_of_record (tstore (dstate w3))).
    { rewrite (calls_since_app _ _ _ Na) in C.
      apply apply_loop_effects in L. destruct L as (Al & _).
      change (calls_since (pushed ?x) wl') with (calls_since x wl') in Al.
      rewrite (calls_since_app _ _ _ N) in Al.
      rewrite C, flat_map_app, Al. simpl.
      destruct (bistate l); simpl; apply app_nil_r. }
    exists consumed, (nd ++ call_check_catalog_changes :: na).
    split; [exact W|]. split; [|split].
    + rewrite Na. simpl. rewrite C3, Nd, <- !app_assoc. reflexivity.
    + rewrite Ra. simpl. rewrite D3. exact Rl.
    + rewrite Fw, dstate_finished. simpl. rewrite app_nil_r.
      rewrite flat_map_app, (no_replay_call_applies_nothing _ Fd). simpl.
      rewrite Ap. simpl. rewrite D3, Ts. reflexivity.
Qed.

(** X18. When process_concurrent_changes returns, the inserts, updates and
    deletes it made, followed by those still asked for by the buffer, are
    exactly those asked for by the buffer at entry followed by the captured
    changes of the WAL records consumed, in that order: nothing is lost,
    repeated or reordered. *)
Theorem coordinator_applies_or_keeps_every_captured_change
  fuel startptr end_of_wal key nkeys must_complete wal w done startptr' wal' w' :
  process_concurrent_changes fuel startptr end_of_wal key nkeys must_complete wal w
  = Some (OK (done, startptr', wal') w') ->
  exists consumed,
    wal = consumed ++ wal'
    /\ flat_map applied_by_call (calls_since w w')
       ++ flat_map applied_of_record (tstore (dstate w'))
       = flat_map applied_of_record
           (tstore (dstate w) ++ captured_records (relid (dstate w)) consumed).
Proof.
  intros E.
  assert (G : exists consumed new,
    wal = consumed ++ wal'
    /\ calls w' = calls w ++ new
    /\ flat_map applied_by_call new
       ++ flat_map applied_of_record (tstore (dstate w'))
       = flat_map applied_of_record
           (tstore (dstate w) ++ captured_records (relid (dstate w)) consumed)).
  { revert startptr wal w E.
    induction fuel as [|fuel IH]; intros startptr wal w; simpl; [discriminate|].
    destruct (coordinator_iteration _ _ _ _ _ _ _)
      as [[sp2 wal2|d sp2 wal2] w2|] eqn:It; [| |discriminate].
    - intros E. inversion E; subst. clear E.
      apply iteration_conserves in It.
      destruct It as (consumed & new & W & N & _ & A). eauto.
    - apply iteration_conserves in It.
      destruct It as (c1 & n1 & W1 & N1 & R1 & A1).
      destruct d.
      + intros E. inversion E; subst. eauto.
      + intros E. apply IH in E.
        destruct E as (c2 & n2 & W2 & N2 & A2).
        exists (c1 ++ c2), (n1 ++ n2). split; [|split].
        * rewrite W1, W2, app_assoc. reflexivity.
        * rewrite N2, N1, app_assoc. reflexivity.
        * rewrite flat_map_app, <- app_assoc, A2, R1.
          rewrite captured_records_app.
          rewrite (flat_map_app applied_of_record (tstore (dstate w2))).
          rewrite app_assoc, A1.
          rewrite !(flat_map_app applied_of_record), <- !app_assoc.
          reflexivity. }
  destruct G as (consumed & new & W & N & A).
  exists consumed. split; [exact W|].
  rewrite (calls_since_app _ _ _ N). exact A.
Qed.

End Conservation.

(** ** The catalog check *)

Section CatalogCheck.
Context `{PG : Postgres}.

#[local] Arguments get_changed_tuple : simpl never.

(* Decoding, whatever its outcome, records no call of replay. *)
Lemma decode_concurrent_changes_calls startptr end_of_wal must wal w :
  let r := decode_concurrent_changes startptr end_of_wal must wal w in
  rel_dst (world_of r) = rel_dst w
  /\ catalog_checks (world_of r) = catalog_checks w
  /\ exists new, calls (world_of r) = calls w ++ new
                 /\ filter is_replay_call new = [].
Proof.
  cbv zeta.
  destruct (decode_loop_frame end_of_wal must wal startptr
              (set_CurrentResourceOwner w (resowner (dstate w))) _ eq_refl)
    as ((Rd & Cl & _ & _ & Cc & _) & _).
  unfold decode_concurrent_changes, PG_TRY_rethrow, bind, get, modify, ret.
  destruct (decode_loop _ _ _ _ _) as [out wl|f wl]; cbn [world_of] in *.
  - destruct (negb _); simpl; rewrite Rd, Cc, Cl; simpl;
      (repeat split; eexists; split;
       [rewrite <- ?app_assoc; reflexivity|reflexivity]).
  - destruct f; simpl; rewrite ?Rd, ?Cc, ?Cl; simpl; repeat split;
    exists []; (split; [symmetry; apply app_nil_r|reflexivity]).
Qed.

(* The calls of one iteration: those of decoding, then, if replay was
   reached, the catalog check and what followed it. *)
Lemma iteration_calls startptr end_of_wal key nkeys must wal w :
  let r := coordinator_iteration startptr end_of_wal key nkeys must wal w in
  exists quiet,
    filter is_replay_call quiet = []
    /\ ((calls (world_of r) = calls w ++ quiet
         /\ rel_dst (world_of r) = rel_dst w
         /\ (forall it w', r = OK it w' ->
             nchanges (dstate w') = 0
             \/ exists startptr' wal', it = RETURN_false startptr' wal'))
        \/ (exists rest,
              calls (world_of r)
              = calls w ++ quiet ++ call_check_catalog_changes :: rest
              /\ match check_catalog_changes (catalog_checks w) with
                 | Some msg =>
                     rest = [] /\ rel_dst (world_of r) = rel_dst w
                     /\ exists w', r = Fail (ELOG_ERROR msg) w'
                 | None => True
                 end)).
Proof.
  cbv zeta.
  remember (coordinator_iteration startptr end_of_wal key nkeys must wal w)
    as r eqn:Er.
  unfold coordinator_iteration in Er.
  unfold bind at 1 in Er. unfold CHECK_FOR_INTERRUPTS at 1 in Er.
  destruct (InterruptPending _).
  { subst r. exists []. split; [reflexivity|]. left. simpl. rewrite app_nil_r.
    repeat split. intros it w' E. discriminate E. }
  unfold bind at 1 in Er.
  pose proof (decode_concurrent_changes_calls startptr end_of_wal must wal
                (tick_interrupts w)) as D. cbv zeta in D.
  destruct (decode_concurrent_changes _ _ _ _ _)
    as [[done [[sp2 wal2] how]] w2|f w2]; cbn [world_of] in D;
    destruct D as (Rd & Cc & nd & Nd & Qd); simpl in Rd, Cc, Nd;
    exists nd; (split; [exact Qd|]).
  2:{ subst r. left. cbn [world_of]. repeat split; auto.
      intros it w' E. discriminate E. }
  unfold bind at 1 in Er.
  destruct (processing_time_elapsed must w2) as [elapsed w3|f w3] eqn:T.
  2:{ rewrite processing_time_elapsed_spec in T. destruct must; discriminate. }
  apply elapsed_frame in T. destruct T as (D3 & _ & C3 & R3 & K3 & _).
  destruct elapsed.
  { subst r. left. unfold ret. cbn [world_of]. rewrite C3, R3.
    repeat split; auto. intros it w' E. inversion E; subst. right. eauto. }
  unfold bind at 1, get at 1 in Er.
  destruct (nchanges (dstate w3) =? 0) eqn:Z0.
  { subst r. left. unfold ret. cbn [world_of]. rewrite C3, R3.
    repeat split; auto. intros it w' E. inversion E; subst. left.
    apply Z.eqb_eq. exact Z0. }
  right. unfold bind at 1 in Er. unfold do_check_catalog_changes at 1 in Er.
  rewrite K3, Cc in Er.
  destruct (check_catalog_changes (catalog_checks w)) as [msg|].
  { subst r. exists []. cbn [world_of]. simpl.
    rewrite C3, R3, Nd, Rd, <- app_assoc.
    repeat split. eauto. }
  unfold bind at 1 in Er.
  pose proof (apply_concurrent_changes_frame key nkeys
                (tick_catalog (record_call w3 call_check_catalog_changes)))
    as (_ & _ & _ & na & Na).
  destruct (apply_concurrent_changes _ _ _) as [[] w4|f w4];
    cbn [world_of] in Na; unfold ret in Er; subst r; cbn [world_of];
    exists na; (split; [|exact I]);
    rewrite Na; simpl; rewrite C3, Nd, <- !app_assoc; reflexivity.
Qed.

Lemma filter_quiet_prefix quiet rest :
  filter is_replay_call quiet = [] ->
  filter is_replay_call (quiet ++ rest) = filter is_replay_call rest.
Proof. intros Q. rewrite filter_app, Q. reflexivity. Qed.

(** X19. In one iteration of process_concurrent_changes, whatever its outcome,
    the first call other than decoding's own is check_catalog_changes:
    nothing is scanned or written before the catalog was checked. *)
Theorem catalog_check_precedes_replay
  startptr end_of_wal key nkeys must_complete wal w :
  let r := coordinator_iteration startptr end_of_wal key nkeys
                                 must_complete wal w in
  filter is_replay_call (calls_since w (world_of r)) = []
  \/ exists rest,
       filter is_replay_call (calls_since w (world_of r))
       = call_check_catalog_changes :: rest.
Proof.
  destruct (iteration_calls startptr end_of_wal key nkeys must_complete wal w)
    as (quiet & Q & [(C & _)|(rest & C & _)]); cbv zeta.
  - left. rewrite (calls_since_app _ _ _ C). exact Q.
  - right. rewrite (calls_since_app _ _ _ C), (filter_quiet_prefix _ _ Q).
    simpl. eauto.
Qed.

(** X20. If check_catalog_changes raises, the iteration leaves the destination
    table untouched and makes no insert, update or delete; it completes only
    when the deadline was reached or nothing was buffered. *)
Theorem a_catalog_change_stops_replay
  startptr end_of_wal key nkeys must_complete wal w msg :
  check_catalog_changes (catalog_checks w) = Some msg ->
  let r := coordinator_iteration startptr end_of_wal key nkeys
                                 must_complete wal w in
  rel_dst (world_of r) = rel_dst w
  /\ filter is_table_write (calls_since w (world_of r)) = []
  /\ forall it w', r = OK it w' ->
       nchanges (dstate w') = 0
       \/ exists startptr' wal', it = RETURN_false startptr' wal'.
Proof.
  intros Ch.
  destruct (iteration_calls startptr end_of_wal key nkeys must_complete wal w)
    as (quiet & Q & [(C & R & O)|(rest & C & X)]); cbv zeta.
  - rewrite (calls_since_app _ _ _ C).
    split; [exact R|]. split; [|exact O].
    apply no_replay_call_writes_nothing. exact Q.
  - rewrite Ch in X. destruct X as (-> & R & w' & F).
    rewrite (calls_since_app _ _ _ C).
    split; [exact R|]. split.
    + rewrite filter_app, (no_replay_call_writes_nothing _ Q). reflexivity.
    + intros it w2 E. rewrite F in E. discriminate.
Qed.

End CatalogCheck.

(** ** The properties on the small PostgreSQL *)

Section MoreChecks.
#[local] Existing Instance Scenario.with_asserts.

(** X3, witness: a DELETE of the relation that comes without its old
    tuple. *)
Lemma plugin_change_rejects_before_storing_witness :
  let w := Scenario.world true [] in
  plugin_change 16384 (mk_rbchange REORDER_BUFFER_CHANGE_DELETE None None) w
  = Fail (ELOG_ERROR "Incomplete delete info.") w.
Proof.
  cbv zeta.
  destruct (plugin_change_rejects_before_storing 16384
              (mk_rbchange REORDER_BUFFER_CHANGE_DELETE None None)
              (Scenario.world true []))
    as (_ & _ & H & _).
  apply H; reflexivity.
Defined.

(** X6, witness: decoding the three records into an empty buffer. *)
Lemma decode_appends_what_was_captured_in_order_witness :
  let w := Scenario.world true [] in
  let w' := world_of (decode_concurrent_changes 1 300 None Scenario.wal w) in
  exists consumed,
    Scenario.wal = consumed ++ []
    /\ tstore (dstate w') = [] ++ captured_records 16384 consumed
    /\ nchanges (dstate w')
       = 0 + Z.of_nat (List.length (captured_records 16384 consumed))
    /\ relid (dstate w') = 16384.
Proof.
  cbv zeta.
  apply (decode_appends_what_was_captured_in_order 1 300 None Scenario.wal
           (Scenario.world true []) true 0 [] EXIT_CONDITION).
  vm_compute. reflexivity.
Defined.

(** X7, witness: the same run read its three records below 300. *)
Lemma decode_reads_only_below_the_end_bound_witness :
  let w := Scenario.world true [] in
  let w' := world_of (decode_concurrent_changes 1 300 None Scenario.wal w) in
  exists consumed,
    Scenario.wal = consumed ++ []
    /\ read_below 300 1 (EndRecPtr w) consumed
    /\ (consumed = [] -> 0 = 1 /\ EndRecPtr w' = EndRecPtr w)
    /\ (consumed <> [] -> 0 = InvalidXLogRecPtr).
Proof.
  cbv zeta.
  apply (decode_reads_only_below_the_end_bound 1 300 None Scenario.wal
           (Scenario.world true []) true 0 [] EXIT_CONDITION).
  vm_compute. reflexivity.
Defined.

(** X8, witness: the third record ends at the bound 300. *)
Lemma decode_does_not_wait_past_the_end_bound_witness :
  decode_concurrent_changes 1 300 None Scenario.wal (Scenario.world true [])
  <> Fail WAL_WAIT (Scenario.world true []).
Proof.
  apply (decode_does_not_wait_past_the_end_bound 1 300 None Scenario.wal
           (Scenario.world true []) (Scenario.world true [])).
  apply Exists_cons_tl, Exists_cons_tl, Exists_cons_hd.
  simpl. unfold InvalidXLogRecPtr. lia.
Defined.

(** X9, witness: with the deadline passed, one record is decoded. *)
Lemma decode_checks_the_deadline_after_a_record_witness :
  let w := Scenario.world true [] in
  let w' := world_of (decode_concurrent_changes 1 300 Scenario.deadline
                        Scenario.wal w) in
  (tl Scenario.wal = Scenario.wal /\ EXIT_BREAK = EXIT_CONDITION
   /\ dstate w' = dstate w /\ clock_reads w' = clock_reads w)
  \/ exists record,
       Scenario.wal = record :: tl Scenario.wal /\ EXIT_BREAK = EXIT_BREAK
       /\ dstate w' =
          append_changes (dstate w)
            (captured_read (relid (dstate w)) (xl_read record))
       /\ clock_reads w' = S (clock_reads w).
Proof.
  cbv zeta.
  apply (decode_checks_the_deadline_after_a_record 1 300 (mk_timeval 0 0)
           Scenario.wal (Scenario.world true []) false 0 (tl Scenario.wal)
           EXIT_BREAK).
  - vm_compute. reflexivity.
  - vm_compute. reflexivity.
Defined.

(** X10, witness: the UPDATE_NEW of row_Y' is replayed with row_Y pending;
    the scan for row_Y finds the row that is updated. *)
Lemma update_and_delete_hit_the_row_found_witness :
  let e := Scenario.ev PG_SQUEEZE_CHANGE_UPDATE_NEW Scenario.row_Y' in
  let w := Scenario.world_at_update in
  exists ctid,
    index_getnext (rel_dst w) (GetActiveSnapshot w)
      (key_arguments (key_tuple_of Scenario.locals_at_update e)
                     (scan_entries [1] 1))
    = Done (Some ctid).
Proof.
  cbv zeta.
  destruct (update_and_delete_hit_the_row_found [1] 1 Scenario.locals_at_update
              (Scenario.ev PG_SQUEEZE_CHANGE_UPDATE_NEW Scenario.row_Y')
              Scenario.world_at_update (mk_locals None false 3 1 0)
              (world_of (apply_change [1] 1 Scenario.locals_at_update
                           (Scenario.ev PG_SQUEEZE_CHANGE_UPDATE_NEW
                                        Scenario.row_Y')
                           Scenario.world_at_update)))
    as (ctid & H & _).
  - left. reflexivity.
  - vm_compute. reflexivity.
  - exists ctid. exact H.
Defined.

(** X11, witness: the six buffered changes are three inserts, one update
    and one delete. *)
Lemma replay_reports_the_number_of_changes_of_each_kind_witness :
  let w := Scenario.world true Scenario.buffer in
  let w' := world_of (apply_concurrent_changes [1] 1 w) in
  In (elog_DEBUG1_applied 3 1 1) (calls_since w w').
Proof.
  cbv zeta.
  destruct (replay_reports_the_number_of_changes_of_each_kind [1] 1
              (Scenario.world true Scenario.buffer)
              (world_of (apply_concurrent_changes [1] 1
                           (Scenario.world true Scenario.buffer))))
    as (H & _).
  - vm_compute. discriminate.
  - vm_compute. reflexivity.
  - exact H.
Defined.

(** X12, witness: the replay of the six changes. *)
Lemma replay_releases_every_bulk_insert_state_witness :
  let w := Scenario.world true Scenario.buffer in
  let w' := world_of (apply_concurrent_changes [1] 1 w) in
  List.length (filter is_GetBulkInsertState (calls_since w w'))
  = List.length (filter is_FreeBulkInsertState (calls_since w w')).
Proof.
  cbv zeta.
  destruct (replay_releases_every_bulk_insert_state [1] 1
              (Scenario.world true Scenario.buffer)
              (world_of (apply_concurrent_changes [1] 1
                           (Scenario.world true Scenario.buffer))))
    as (H & _).
  - vm_compute. reflexivity.
  - exact H.
Defined.

(** X13, witness: the replay of the six changes leaves the snapshot stack
    as it found it. *)
Lemma replay_scans_with_the_current_command_id_witness :
  let w := Scenario.world true Scenario.buffer in
  let w' := world_of (apply_concurrent_changes [1] 1 w) in
  ActiveSnapshot w' = ActiveSnapshot w.
Proof.
  cbv zeta.
  destruct (replay_scans_with_the_current_command_id [1] 1
              (Scenario.world true Scenario.buffer)
              (world_of (apply_concurrent_changes [1] 1
                           (Scenario.world true Scenario.buffer))))
    as (H & _).
  - vm_compute. discriminate.
  - vm_compute. reflexivity.
  - exact H.
Defined.

(** X14, witness: the replay of the six changes. *)
Lemma replay_applies_each_buffered_change_once_in_order_witness :
  let w := Scenario.world true Scenario.buffer in
  let w' := world_of (apply_concurrent_changes [1] 1 w) in
  flat_map applied_by_call (calls_since w w')
  = flat_map applied_of_record Scenario.buffer.
Proof.
  cbv zeta.
  apply (replay_applies_each_buffered_change_once_in_order [1] 1
           (Scenario.world true Scenario.buffer)).
  - vm_compute. discriminate.
  - vm_compute. reflexivity.
Defined.

(** X15, witness: without a deadline the three records are decoded and
    replayed in one iteration. *)
Lemma coordinator_result_tells_what_was_done_witness :
  let w := Scenario.world true [] in
  let w' := world_of (coordinator_iteration 1 300 [1] 1 None Scenario.wal w) in
  tstore (dstate w') = []
  /\ nchanges (dstate w') = 0
  /\ data_size (dstate w') = 0
  /\ (EndRecPtr w' = InvalidXLogRecPtr \/ 300 <= EndRecPtr w').
Proof.
  cbv zeta.
  destruct (coordinator_result_tells_what_was_done 5 1 300 [1] 1 None
              Scenario.wal (Scenario.world true []) true 0 []
              (world_of (coordinator_iteration 1 300 [1] 1 None Scenario.wal
                           (Scenario.world true []))))
    as (H & _).
  - split; vm_compute; reflexivity.
  - vm_compute. reflexivity.
  - exact (H eq_refl).
Defined.

(** X16, witness: the same run, from the empty buffer. *)
Lemma coordinator_keeps_the_counters_true_witness :
  let w := Scenario.world true [] in
  let r : result (bool * XLogRecPtr * list XLogRecord) :=
    OK (true, 0, [])
       (world_of (coordinator_iteration 1 300 [1] 1 None Scenario.wal w)) in
  buffer_consistent (dstate (world_of r)).
Proof.
  cbv zeta.
  apply (coordinator_keeps_the_counters_true 5 1 300 [1] 1 None Scenario.wal
           (Scenario.world true [])).
  - split; vm_compute; reflexivity.
  - vm_compute. reflexivity.
Defined.

(** X17, witness: the third of the three records ends at the bound 300;
    eight iterations suffice. *)
Lemma coordinator_terminates_witness :
  exists r,
    process_concurrent_changes 8 1 300 [1] 1 None Scenario.wal
                               (Scenario.world true []) = Some r
    /\ forall w', r <> Fail WAL_WAIT w'.
Proof.
  apply (coordinator_terminates 8 1 300 [1] 1 None Scenario.wal
           (Scenario.world true [])).
  - vm_compute. reflexivity.
  - split; vm_compute; reflexivity.
  - apply Exists_cons_tl, Exists_cons_tl, Exists_cons_hd.
    simpl. unfold InvalidXLogRecPtr. lia.
  - simpl. lia.
Defined.

(** X18, witness: the same run applies what the three records carried. *)
Lemma coordinator_applies_or_keeps_every_captured_change_witness :
  let w := Scenario.world true [] in
  let w' := world_of (coordinator_iteration 1 300 [1] 1 None Scenario.wal w) in
  exists consumed,
    Scenario.wal = consumed ++ []
    /\ flat_map applied_by_call (calls_since w w')
       ++ flat_map applied_of_record (tstore (dstate w'))
       = flat_map applied_of_record
           (tstore (dstate w) ++ captured_records (relid (dstate w)) consumed).
Proof.
  cbv zeta.
  apply (coordinator_applies_or_keeps_every_captured_change 5 1 300 [1] 1 None
           Scenario.wal (Scenario.world true []) true 0 []).
  vm_compute. reflexivity.
Defined.

(** X20, witness: after a catalog change the three records are decoded and
    nothing is written. *)
Lemma a_catalog_change_stops_replay_witness :
  let r := @coordinator_iteration Altered.pg 1 300 [1] 1 None Scenario.wal
             Altered.world in
  rel_dst (world_of r) = rel_dst Altered.world
  /\ filter is_table_write (calls_since Altered.world (world_of r)) = []
  /\ forall it w', r = OK it w' ->
       nchanges (dstate w') = 0
       \/ exists startptr' wal', it = RETURN_false startptr' wal'.
Proof.
  exact (@a_catalog_change_stops_replay Altered.pg 1 300 [1] 1 None
           Scenario.wal Altered.world "catalog changed"%string eq_refl).
Defined.

End MoreChecks.
